(** * Request admission, response cache and query orchestration

    A shallow embedding of [src/utils/rate_limiter.py],
    [src/utils/cache_manager.py] and [src/gemini_client.py], and the
    properties of the specification proved or refuted on it.

    Conventions.
    - A reading of [time.time()] is a rational number of seconds ([Q]);
      the rounding of Python floats is not modelled.
    - A Python [int] is a [Z].
    - A [deque] is a list whose head is the left end ([popleft] removes
      the head, [append] adds at the tail); an [OrderedDict] is the list
      of its bindings, the oldest first.
    - A method of a class takes the state of the object and returns the
      new state next to its result; a method that reads the clock takes
      the reading as an argument.
    - A Python exception is a [Raise] result; the state at the time of
      the exception is kept.
    - In the orchestrator the clock, the caches, the limiter and the
      history are fields of a [world]; what the call does to the outside
      (backend, database, web, standard output, sleeps) is appended to a
      trace, and what the outside answers comes from an [environment].
      The clock moves in [time.sleep] only. *)

From Stdlib Require Import ZArith QArith Qminmax Qround List Sorted Bool Lia Lqa.
From Stdlib Require Import String Ascii.
Import ListNotations.

Set Implicit Arguments.

(** ** Python exceptions and results *)

Inductive exn : Type :=
| IndexError
| KeyError
| OtherError (message : string).

Inductive result (A : Type) : Type :=
| Ok (value : A)
| Raise (e : exn).

Arguments Ok {A} value.
Arguments Raise {A} e.

(** ** [ModelLimiter]: one tier, two sliding windows *)

Module ModelLimiter.

Record t : Type := mk {
  rpm : Z;
  rpd : Z;
  minute_window : Q;
  day_window : Q;
  minute_requests : list Q;
  day_requests : list Q
}.

(** [__init__] *)
Definition init (rpm rpd : Z) : t :=
  mk rpm rpd 60 86400 [] [].

(** One [while queue and now - queue[0] >= window: queue.popleft()]. *)
Fixpoint purge (now window : Q) (queue : list Q) : list Q :=
  match queue with
  | [] => []
  | oldest :: rest =>
      if Qle_bool window (now - oldest)
      then purge now window rest
      else queue
  end.

Definition _clean_old_requests (self : t) (now : Q) : t :=
  mk self.(rpm) self.(rpd) self.(minute_window) self.(day_window)
     (purge now self.(minute_window) self.(minute_requests))
     (purge now self.(day_window) self.(day_requests)).

Definition len (queue : list Q) : Z := Z.of_nat (List.length queue).

(** What the [if] of [try_acquire] tests once the old requests are gone. *)
Definition below_limits (self : t) : bool :=
  (len self.(minute_requests) <? self.(rpm))%Z
  && (len self.(day_requests) <? self.(rpd))%Z.

Definition record_request (self : t) (now : Q) : t :=
  mk self.(rpm) self.(rpd) self.(minute_window) self.(day_window)
     (self.(minute_requests) ++ [now])
     (self.(day_requests) ++ [now]).

Definition try_acquire (self : t) (now : Q) : bool * t :=
  let self := _clean_old_requests self now in
  if below_limits self
  then (true, record_request self now)
  else (false, self).

(** [queue[0]], which raises [IndexError] on an empty deque. *)
Definition front (queue : list Q) : result Q :=
  match queue with
  | [] => Raise IndexError
  | oldest :: _ => Ok oldest
  end.

(** One [if len(queue) >= limit: wait = max(0.0, window - (now - queue[0]))]
    of [get_wait_time], the wait being [0.0] before it. *)
Definition window_wait (queue : list Q) (limit : Z) (window now : Q)
  : result Q :=
  if (len queue >=? limit)%Z
  then match front queue with
       | Ok oldest => Ok (Qmax 0 (window - (now - oldest)))
       | Raise e => Raise e
       end
  else Ok 0.

Definition get_wait_time (self : t) (now : Q) : result Q :=
  match window_wait self.(minute_requests) self.(rpm)
                    self.(minute_window) now with
  | Raise e => Raise e
  | Ok minute_wait =>
      match window_wait self.(day_requests) self.(rpd)
                        self.(day_window) now with
      | Raise e => Raise e
      | Ok day_wait => Ok (Qmax minute_wait day_wait)
      end
  end.

(** *** Runs of a limiter

    [run self log clock] calls [try_acquire] once per reading of
    [clock], in order, and appends the reading of every granted call to
    [log]. *)
Fixpoint run (self : t) (log : list Q) (clock : list Q) : t * list Q :=
  match clock with
  | [] => (self, log)
  | now :: later =>
      let (granted, self') := try_acquire self now in
      run self' (if granted then log ++ [now] else log) later
  end.

Definition grants (rpm rpd : Z) (clock : list Q) : list Q :=
  snd (run (init rpm rpd) [] clock).

Definition state_after (rpm rpd : Z) (clock : list Q) : t :=
  fst (run (init rpm rpd) [] clock).

(** The clock never runs backwards: every reading is at least [last]
    and at least the reading before it. *)
Fixpoint monotone_from (last : Q) (clock : list Q) : bool :=
  match clock with
  | [] => true
  | now :: later => Qle_bool last now && monotone_from now later
  end.

Definition monotone (clock : list Q) : bool :=
  match clock with
  | [] => true
  | first :: later => monotone_from first later
  end.

(** A granted request [g] lies in the window of length [window] that
    trails the instant [t] when it is not after [t] and younger than
    [window]. *)
Definition in_window (t window g : Q) : bool :=
  Qle_bool g t && negb (Qle_bool window (t - g)).

Definition requests_within (log : list Q) (t window : Q) : Z :=
  Z.of_nat (List.length (filter (in_window t window) log)).

(** The answers of the calls of [run], in order. *)
Fixpoint outcomes (self : t) (clock : list Q) : list bool :=
  match clock with
  | [] => []
  | now :: later =>
      let (granted, self') := try_acquire self now in
      granted :: outcomes self' later
  end.

(** *** The wording of the specification about the wait time

    These follow the sentences of the specification, not the code: a
    window is saturated at [now] when the granted requests that lie in
    it are at least its limit, and its oldest entry ages out when it
    becomes as old as the window is long. *)
Definition saturated (log : list Q) (now window : Q) (limit : Z) : bool :=
  (requests_within log now window >=? limit)%Z.

Definition oldest_within (log : list Q) (now window : Q) : option Q :=
  hd_error (filter (in_window now window) log).

Definition ages_out_in (log : list Q) (now window : Q) : Q :=
  match oldest_within log now window with
  | Some oldest => window - (now - oldest)
  | None => 0
  end.

(** "0 if not currently saturated; otherwise the larger of the time until
    the oldest minute-window entry ages out and, if the day window is
    saturated, the time until the oldest day-window entry ages out". *)
Definition wait_time_as_worded (log : list Q) (rpm rpd : Z) (now : Q) : Q :=
  if negb (saturated log now 60 rpm) && negb (saturated log now 86400 rpd)
  then 0
  else Qmax (ages_out_in log now 60)
            (if saturated log now 86400 rpd
             then ages_out_in log now 86400 else 0).

(** A tier has spare capacity at [now] when neither of its windows is
    saturated. *)
Definition has_spare_capacity (log : list Q) (rpm rpd : Z) (now : Q) : bool :=
  negb (saturated log now 60 rpm) && negb (saturated log now 86400 rpd).

(** Each window counts only when it is saturated itself. *)
Definition wait_time_per_window (log : list Q) (rpm rpd : Z) (now : Q) : Q :=
  Qmax (if saturated log now 60 rpm then ages_out_in log now 60 else 0)
       (if saturated log now 86400 rpd
        then ages_out_in log now 86400 else 0).

(** *** What the deques know

    The invariants of a limiter, stated against the log of its granted
    requests. *)

(** What one deque of a limiter knows about the log of granted requests
    when the last clock reading was [last]. *)
Record tracked (window : Q) (limit : Z) (last : Q) (log queue : list Q)
  : Prop := Tracked {
  tracked_split :
    exists stale, log = stale ++ queue
                  /\ Forall (fun g => window <= last - g) stale;
  tracked_bound : Forall (fun g => g <= last) log;
  tracked_sorted : StronglySorted Qle queue;
  tracked_len : (len queue <= limit)%Z;
  tracked_count : forall t, (requests_within log t window <= limit)%Z
}.

(** The state of a tier built with limits [rpm0] and [rpd0] agrees with
    the log of its granted requests. *)
Record consistent (rpm0 rpd0 : Z) (last : Q) (log : list Q) (self : t)
  : Prop := Consistent {
  consistent_rpm : self.(rpm) = rpm0;
  consistent_rpd : self.(rpd) = rpd0;
  consistent_minute_window : self.(minute_window) = 60;
  consistent_day_window : self.(day_window) = 86400;
  consistent_minute : tracked 60 rpm0 last log self.(minute_requests);
  consistent_day : tracked 86400 rpd0 last log self.(day_requests)
}.

End ModelLimiter.

(** ** [config.py]: the constants read from the environment *)

Module Config.

Record t : Type := mk {
  GEMINI_PRO_RPM : Z;
  GEMINI_PRO_RPD : Z;
  GEMINI_FLASH_RPM : Z;
  GEMINI_FLASH_RPD : Z;
  CACHE_ENABLED : bool;
  CACHE_TIMEOUT : Z;
  MAX_CACHE_ITEMS : Z
}.

(** The values [config.py] falls back on when the environment sets none. *)
Definition defaults : t := mk 3 30 5 50 true 3600 100.

End Config.

(** ** [RateLimiter]: two tiers and the current-tier pointer *)

Module RateLimiter.

Inductive ModelType : Type := PRO | FLASH.

(** [self.limiters] holds one limiter per [ModelType]. *)
Record t : Type := mk {
  pro : ModelLimiter.t;
  flash : ModelLimiter.t;
  _current_model : ModelType
}.

Definition init (config : Config.t) : t :=
  mk (ModelLimiter.init config.(Config.GEMINI_PRO_RPM)
                        config.(Config.GEMINI_PRO_RPD))
     (ModelLimiter.init config.(Config.GEMINI_FLASH_RPM)
                        config.(Config.GEMINI_FLASH_RPD))
     PRO.

(** [self.limiters[model]] *)
Definition limiter (self : t) (model : ModelType) : ModelLimiter.t :=
  match model with
  | PRO => self.(pro)
  | FLASH => self.(flash)
  end.

(** The limiter of [model] after one of its methods changed it. *)
Definition with_limiter (self : t) (model : ModelType)
  (changed : ModelLimiter.t) : t :=
  match model with
  | PRO => mk changed self.(flash) self.(_current_model)
  | FLASH => mk self.(pro) changed self.(_current_model)
  end.

(** A limiter given by its pointer, the tier the pointer is on and the
    other tier. *)
Definition assemble (current : ModelType)
  (current_tier other_tier : ModelLimiter.t) : t :=
  match current with
  | PRO => mk current_tier other_tier PRO
  | FLASH => mk other_tier current_tier FLASH
  end.

(** [ModelType.FLASH if model == ModelType.PRO else ModelType.PRO] *)
Definition other (model : ModelType) : ModelType :=
  match model with
  | PRO => FLASH
  | FLASH => PRO
  end.

Definition switch_model (self : t) : ModelType * t :=
  let next := other self.(_current_model) in
  (next, mk self.(pro) self.(flash) next).

Definition get_current_model (self : t) : ModelType :=
  self.(_current_model).

(** Each tier reads the clock in its own [try_acquire]: [now] is the
    reading of the current tier, [later] the reading of the other tier,
    taken only when the current tier has denied. *)
Definition try_acquire (self : t) (now later : Q) : bool * t :=
  let current := self.(_current_model) in
  let (granted, changed) :=
    ModelLimiter.try_acquire (limiter self current) now in
  let self := with_limiter self current changed in
  if granted then (true, self)
  else
    let other_model := other current in
    let (granted, changed) :=
      ModelLimiter.try_acquire (limiter self other_model) later in
    let self := with_limiter self other_model changed in
    if granted
    then (true, mk self.(pro) self.(flash) other_model)
    else (false, self).

(** [if timeout is not None: if time.time() - start_time >= timeout] *)
Definition timed_out (timeout : option Q) (start_time now : Q) : bool :=
  match timeout with
  | Some limit => Qle_bool limit (now - start_time)
  | None => false
  end.

(** The [while True] of [wait_for_token].  The clock stands still but in
    [time.sleep(0.1)], which moves it by a tenth of a second; [polls]
    bounds the turns of the loop, and [None] says the loop has not ended
    within them.  The result carries the clock the loop ended at. *)
Fixpoint poll (polls : nat) (self : t) (timeout : option Q)
  (start_time now : Q) : option (bool * t * Q) :=
  match polls with
  | O => None
  | S polls =>
      let (granted, self) := try_acquire self now now in
      if granted then Some (true, self, now)
      else if timed_out timeout start_time now
           then Some (false, self, now)
           else poll polls self timeout start_time (now + (1 # 10))
  end.

Definition wait_for_token (polls : nat) (self : t) (timeout : option Q)
  (now : Q) : option (bool * t * Q) :=
  poll polls self timeout now now.

Definition get_wait_time (self : t) (now : Q)
  : result (list (ModelType * Q)) :=
  match ModelLimiter.get_wait_time self.(pro) now with
  | Raise e => Raise e
  | Ok pro_wait =>
      match ModelLimiter.get_wait_time self.(flash) now with
      | Raise e => Raise e
      | Ok flash_wait => Ok [(PRO, pro_wait); (FLASH, flash_wait)]
      end
  end.

(** Both tiers without the requests that have aged out at [now]. *)
Definition cleaned (self : t) (now : Q) : t :=
  mk (ModelLimiter._clean_old_requests self.(pro) now)
     (ModelLimiter._clean_old_requests self.(flash) now)
     self.(_current_model).

(** A tier that can never grant: one of its limits is not positive. *)
Definition closed (tier : ModelLimiter.t) : Prop :=
  (ModelLimiter.rpm tier <= 0)%Z \/ (ModelLimiter.rpd tier <= 0)%Z.

(** *** Runs of the two tiers

    A call of [try_acquire] reads the clock once or twice: the current
    tier reads it, and the other tier reads it when the current tier has
    denied.  [run self log clock] makes one call per pair of readings of
    [clock] and appends to [log], for every granted call, the reading of
    the tier that granted: the first one when the pointer stayed, the
    second one when it moved. *)
Definition granted_at (before after : ModelType) (now later : Q) : Q :=
  match before, after with
  | PRO, PRO | FLASH, FLASH => now
  | _, _ => later
  end.

Fixpoint run (self : t) (log : list Q) (clock : list (Q * Q)) : t * list Q :=
  match clock with
  | [] => (self, log)
  | (now, later) :: rest =>
      let (granted, self') := try_acquire self now later in
      run self'
          (if granted
           then log ++ [granted_at self.(_current_model)
                                   self'.(_current_model) now later]
           else log)
          rest
  end.

Definition grants (config : Config.t) (clock : list (Q * Q)) : list Q :=
  snd (run (init config) [] clock).

(** The readings of the clock, in order. *)
Definition readings (clock : list (Q * Q)) : list Q :=
  flat_map (fun reading => [fst reading; snd reading]) clock.

(** The log of the grants is shared out between the tiers: every tier
    agrees with a log of its own, read last at an instant no later than
    [last], and a window holds as many requests of [log] as of the two
    logs together. *)
Definition shared (config : Config.t) (last : Q) (log : list Q) (self : t)
  : Prop :=
  exists pro_log flash_log last_pro last_flash,
    last_pro <= last /\ last_flash <= last
    /\ ModelLimiter.consistent
         config.(Config.GEMINI_PRO_RPM) config.(Config.GEMINI_PRO_RPD)
         last_pro pro_log self.(pro)
    /\ ModelLimiter.consistent
         config.(Config.GEMINI_FLASH_RPM) config.(Config.GEMINI_FLASH_RPD)
         last_flash flash_log self.(flash)
    /\ forall t window,
         ModelLimiter.requests_within log t window
         = (ModelLimiter.requests_within pro_log t window
            + ModelLimiter.requests_within flash_log t window)%Z.

End RateLimiter.

(** ** [CacheManager]: a bounded cache whose entries expire *)

Module CacheManager.

Section Values.

(** The values are [Any] in the source. *)
Variable V : Type.

(** An [OrderedDict] from keys to [(value, timestamp)]: the bindings in
    their order, the head being the first (the oldest) one. *)
Definition ordered_dict : Type := list (string * (V * Q)).

Record t : Type := mk {
  _cache : ordered_dict;
  enabled : bool;
  timeout : Z;
  max_items : Z
}.

Definition init (config : Config.t) : t :=
  mk [] config.(Config.CACHE_ENABLED) config.(Config.CACHE_TIMEOUT)
     config.(Config.MAX_CACHE_ITEMS).

Definition with_cache (self : t) (cache : ordered_dict) : t :=
  mk cache self.(enabled) self.(timeout) self.(max_items).

(** [d[key]], and [key in d] when it is [Some]. *)
Fixpoint lookup (key : string) (d : ordered_dict) : option (V * Q) :=
  match d with
  | [] => None
  | (k, bound) :: rest =>
      if String.eqb key k then Some bound else lookup key rest
  end.

(** [del d[key]] *)
Definition delete (key : string) (d : ordered_dict) : ordered_dict :=
  filter (fun binding => negb (String.eqb key (fst binding))) d.

(** [d[key] = bound]: a key the dictionary holds keeps its place. *)
Fixpoint assign (key : string) (bound : V * Q) (d : ordered_dict)
  : ordered_dict :=
  match d with
  | [] => [(key, bound)]
  | (k, old) :: rest =>
      if String.eqb key k
      then (k, bound) :: rest
      else (k, old) :: assign key bound rest
  end.

(** [d.move_to_end(key)] for a key the dictionary holds. *)
Definition move_to_end (key : string) (d : ordered_dict) : ordered_dict :=
  match lookup key d with
  | Some bound => delete key d ++ [(key, bound)]
  | None => d
  end.

Definition size (d : ordered_dict) : Z := Z.of_nat (List.length d).

(** [while len(d) >= max_items: d.popitem(last=False)]; [popitem] raises
    [KeyError] on an empty dictionary. *)
Fixpoint evict (max_items : Z) (d : ordered_dict) : result ordered_dict :=
  match d with
  | [] => if (0 >=? max_items)%Z then Raise KeyError else Ok []
  | _ :: rest =>
      if (size d >=? max_items)%Z then evict max_items rest else Ok d
  end.

Definition get (self : t) (key : string) (now : Q) : option V * t :=
  if negb self.(enabled) then (None, self)
  else
    match lookup key self.(_cache) with
    | Some (value, timestamp) =>
        if Qle_bool (now - timestamp) (inject_Z self.(timeout))
        then (Some value, with_cache self (move_to_end key self.(_cache)))
        else (None, with_cache self (delete key self.(_cache)))
    | None => (None, self)
    end.

(** When [popitem] raises, the loop has emptied the dictionary. *)
Definition set (self : t) (key : string) (value : V) (now : Q)
  : result unit * t :=
  if negb self.(enabled) then (Ok tt, self)
  else
    match evict self.(max_items) self.(_cache) with
    | Raise e => (Raise e, with_cache self [])
    | Ok room =>
        (Ok tt,
         with_cache self (move_to_end key (assign key (value, now) room)))
    end.

Definition clear (self : t) : t := with_cache self [].

Definition remove (self : t) (key : string) : t :=
  match lookup key self.(_cache) with
  | Some _ => with_cache self (delete key self.(_cache))
  | None => self
  end.

(** *** Runs of a cache

    A use of the cache is a [set] or a [get] with the clock reading it
    takes.  [run] replays uses and keeps, next to the cache, the number
    of uses so far and for every key the number of the use that touched
    it last: a [set] that stored it or a [get] that returned it. *)
Inductive use : Type :=
| Set_ (key : string) (value : V) (now : Q)
| Get_ (key : string) (now : Q).

Definition stamps : Type := string -> nat.

Definition touch (last_used : stamps) (key : string) (n : nat) : stamps :=
  fun k => if String.eqb k key then n else last_used k.

Definition step (state : t * stamps * nat) (u : use) : t * stamps * nat :=
  let '(self, last_used, n) := state in
  match u with
  | Set_ key value now =>
      match set self key value now with
      | (Ok _, self') =>
          (self', (if self.(enabled) then touch last_used key n
                   else last_used), S n)
      | (Raise _, self') => (self', last_used, S n)
      end
  | Get_ key now =>
      match get self key now with
      | (Some _, self') => (self', touch last_used key n, S n)
      | (None, self') => (self', last_used, S n)
      end
  end.

Definition run (config : Config.t) (uses : list use) : t * stamps * nat :=
  fold_left step uses (init config, fun _ => O, O).

Definition cache_of (state : t * stamps * nat) : t := fst (fst state).

Definition last_used_of (state : t * stamps * nat) : stamps :=
  snd (fst state).

(** *** Order of use *)

Definition used_before (last_used : stamps) (a b : string * (V * Q)) : Prop :=
  (last_used (fst a) < last_used (fst b))%nat.

(** The bindings of a cache stand in the order of their last use, and
    the cache does not exceed [capacity]. *)
Record ordered_by_use (capacity : Z) (state : t * stamps * nat)
  : Prop := OrderedByUse {
  obu_capacity : max_items (cache_of state) = capacity;
  obu_size : (size (_cache (cache_of state)) <= capacity)%Z;
  obu_sorted : StronglySorted (used_before (last_used_of state))
                              (_cache (cache_of state));
  obu_past : Forall (fun b => (last_used_of state (fst b) < snd state)%nat)
                    (_cache (cache_of state))
}.

(** *** Histories of a cache

    A call of one of the four methods, with the clock reading it takes
    when it takes one.  [history] replays calls on a new cache; an
    exception that [set] raises ends that call only. *)
Inductive call : Type :=
| CallSet (key : string) (value : V) (now : Q)
| CallGet (key : string) (now : Q)
| CallRemove (key : string)
| CallClear.

Definition perform (self : t) (c : call) : t :=
  match c with
  | CallSet key value now => snd (set self key value now)
  | CallGet key now => snd (get self key now)
  | CallRemove key => remove self key
  | CallClear => clear self
  end.

Definition history (config : Config.t) (calls : list call) : t :=
  fold_left perform calls (init config).

(** What the callers wrote under [key] last: the value and the time of
    the last [set] of the key, unless a [remove] of the key or a [clear]
    came after it. *)
Definition note (key : string) (held : option (V * Q)) (c : call)
  : option (V * Q) :=
  match c with
  | CallSet k value now => if String.eqb key k then Some (value, now) else held
  | CallGet _ _ => held
  | CallRemove k => if String.eqb key k then None else held
  | CallClear => None
  end.

Definition last_written (key : string) (calls : list call) : option (V * Q) :=
  fold_left (note key) calls None.

(** Every binding of [d] is what was written last under its key. *)
Definition holds_last_written (calls : list call) (d : ordered_dict) : Prop :=
  Forall (fun binding =>
            last_written (fst binding) calls = Some (snd binding)) d.

Definition keys (d : ordered_dict) : list string := map fst d.

End Values.

Arguments init {V} config.
Arguments Set_ {V} key value now.
Arguments Get_ {V} key now.

Arguments CallSet {V} key value now.
Arguments CallGet {V} key now.
Arguments CallRemove {V} key.
Arguments CallClear {V}.

End CacheManager.

(** ** Python strings

    A [str] is the [string] of the bytes of its UTF-8 encoding, so
    [s.encode()] is [s] itself.  [lower] changes the letters [A] to [Z]
    only and [strip] removes the blanks of ASCII only; the phrases and
    characters the program looks for or removes are matched byte by
    byte, which on UTF-8 is the same as character by character. *)

Module Str.

Definition lower_char (c : ascii) : ascii :=
  let n := nat_of_ascii c in
  if (65 <=? n)%nat && (n <=? 90)%nat then ascii_of_nat (n + 32) else c.

(** [s.lower()] *)
Fixpoint lower (s : string) : string :=
  match s with
  | EmptyString => EmptyString
  | String c rest => String (lower_char c) (lower rest)
  end.

(** [needle in s] *)
Fixpoint contains (needle s : string) : bool :=
  String.prefix needle s
  || match s with
     | EmptyString => false
     | String _ rest => contains needle rest
     end.

(** [s.replace(old, new)] for a non-empty [old]: the occurrences of
    [old] are taken from the left and do not overlap; [skip] counts the
    characters of an occurrence still to pass. *)
Fixpoint replace_from (skip : nat) (old new s : string) : string :=
  match s with
  | EmptyString => EmptyString
  | String c rest =>
      match skip with
      | S skip => replace_from skip old new rest
      | O =>
          if String.prefix old s
          then new ++ replace_from (String.length old - 1) old new rest
          else String c (replace_from O old new rest)
      end
  end.

Definition replace (old new s : string) : string := replace_from O old new s.

Definition is_space (c : ascii) : bool :=
  let n := nat_of_ascii c in
  ((9 <=? n)%nat && (n <=? 13)%nat)
  || ((28 <=? n)%nat && (n <=? 32)%nat).

Fixpoint lstrip (s : string) : string :=
  match s with
  | EmptyString => EmptyString
  | String c rest => if is_space c then lstrip rest else s
  end.

Fixpoint rstrip (s : string) : string :=
  match s with
  | EmptyString => EmptyString
  | String c rest =>
      match rstrip rest with
      | EmptyString => if is_space c then EmptyString else String c EmptyString
      | kept => String c kept
      end
  end.

(** [s.strip()] *)
Definition strip (s : string) : string := rstrip (lstrip s).

(** [sep.join(parts)] *)
Fixpoint join (sep : string) (parts : list string) : string :=
  match parts with
  | [] => EmptyString
  | [part] => part
  | part :: rest => part ++ sep ++ join sep rest
  end.

(** The truth value of a [str]: the empty string is false. *)
Definition truthy (s : string) : bool :=
  match s with
  | EmptyString => false
  | String _ _ => true
  end.

End Str.

(** ** [hashlib.md5(data).hexdigest()] (RFC 1321)

    Bytes and 32-bit words are numbers of [Z]; every sum is reduced
    modulo [2^32]. *)

Module Md5.

Definition mask : Z := 4294967295.

Definition wrap (x : Z) : Z := Z.land x mask.

Definition rotate_left (x : Z) (count : Z) : Z :=
  wrap (Z.lor (Z.shiftl x count) (Z.shiftr x (32 - count))).

Definition sines : list Z :=
  [3614090360; 3905402710; 606105819; 3250441966; 4118548399; 1200080426;
   2821735955; 4249261313; 1770035416; 2336552879; 4294925233; 2304563134;
   1804603682; 4254626195; 2792965006; 1236535329; 4129170786; 3225465664;
   643717713; 3921069994; 3593408605; 38016083; 3634488961; 3889429448;
   568446438; 3275163606; 4107603335; 1163531501; 2850285829; 4243563512;
   1735328473; 2368359562; 4294588738; 2272392833; 1839030562; 4259657740;
   2763975236; 1272893353; 4139469664; 3200236656; 681279174; 3936430074;
   3572445317; 76029189; 3654602809; 3873151461; 530742520; 3299628645;
   4096336452; 1126891415; 2878612391; 4237533241; 1700485571; 2399980690;
   4293915773; 2240044497; 1873313359; 4264355552; 2734768916; 1309151649;
   4149444226; 3174756917; 718787259; 3951481745]%Z.

Definition shifts : list Z :=
  [7; 12; 17; 22; 7; 12; 17; 22; 7; 12; 17; 22; 7; 12; 17; 22;
   5; 9; 14; 20; 5; 9; 14; 20; 5; 9; 14; 20; 5; 9; 14; 20;
   4; 11; 16; 23; 4; 11; 16; 23; 4; 11; 16; 23; 4; 11; 16; 23;
   6; 10; 15; 21; 6; 10; 15; 21; 6; 10; 15; 21; 6; 10; 15; 21]%Z.

Definition bytes_of (s : string) : list Z :=
  map (fun c => Z.of_nat (nat_of_ascii c)) (list_ascii_of_string s).

(** The [count] low bytes of [x], the lowest first. *)
Fixpoint little_endian (count : nat) (x : Z) : list Z :=
  match count with
  | O => []
  | S count => Z.land x 255 :: little_endian count (Z.shiftr x 8)
  end.

(** The message, one [0x80], zeros up to 56 modulo 64, and the length
    of the message in bits on 8 bytes. *)
Definition pad (message : list Z) : list Z :=
  let n := List.length message in
  let zeros := ((55 + 64 - n mod 64) mod 64)%nat in
  message ++ [128%Z] ++ repeat 0%Z zeros
          ++ little_endian 8 (Z.of_nat n * 8).

Fixpoint words_of (count : nat) (bytes : list Z) : list Z :=
  match count with
  | O => []
  | S count =>
      match bytes with
      | b0 :: b1 :: b2 :: b3 :: rest =>
          (b0 + Z.shiftl b1 8 + Z.shiftl b2 16 + Z.shiftl b3 24)%Z
          :: words_of count rest
      | _ => []
      end
  end.

Definition round (block : list Z) (state : Z * Z * Z * Z) (i : nat)
  : Z * Z * Z * Z :=
  let '(a, b, c, d) := state in
  let negate x := Z.lxor x mask in
  let '(f, g) :=
    if (i <? 16)%nat
    then (Z.lor (Z.land b c) (Z.land (negate b) d), i)
    else if (i <? 32)%nat
    then (Z.lor (Z.land d b) (Z.land (negate d) c), ((5 * i + 1) mod 16)%nat)
    else if (i <? 48)%nat
    then (Z.lxor (Z.lxor b c) d, ((3 * i + 5) mod 16)%nat)
    else (Z.lxor c (Z.lor b (negate d)), ((7 * i) mod 16)%nat) in
  let f := wrap (f + a + nth i sines 0 + nth g block 0)%Z in
  (d, wrap (b + rotate_left f (nth i shifts 0))%Z, b, c).

Definition compress (state : Z * Z * Z * Z) (block : list Z)
  : Z * Z * Z * Z :=
  let '(a0, b0, c0, d0) := state in
  let '(a, b, c, d) := fold_left (round block) (seq 0 64) state in
  (wrap (a0 + a), wrap (b0 + b), wrap (c0 + c), wrap (d0 + d))%Z.

(** The blocks of 64 bytes, each as 16 words; [blocks] bounds their
    number. *)
Fixpoint digest_blocks (blocks : nat) (state : Z * Z * Z * Z)
  (bytes : list Z) : Z * Z * Z * Z :=
  match blocks with
  | O => state
  | S blocks =>
      match bytes with
      | [] => state
      | _ => digest_blocks blocks (compress state (words_of 16 bytes))
                           (skipn 64 bytes)
      end
  end.

Definition hex_digit (n : Z) : ascii :=
  ascii_of_nat (Z.to_nat (if (n <? 10)%Z then 48 + n else 87 + n)%Z).

Definition hex_byte (b : Z) : string :=
  String (hex_digit (Z.shiftr b 4)) (String (hex_digit (Z.land b 15))
                                            EmptyString).

Definition hexdigest (data : string) : string :=
  let bytes := pad (bytes_of data) in
  let '(a, b, c, d) :=
    digest_blocks (List.length bytes)
      (1732584193, 4023233417, 2562383102, 271733878)%Z bytes in
  String.concat EmptyString
    (map hex_byte (little_endian 4 a ++ little_endian 4 b
                   ++ little_endian 4 c ++ little_endian 4 d)).

End Md5.

(** ** [GeminiClient]: the orchestrator

    The client owns a cache, a rate limiter and the conversation
    history; the clock, the file system, the generative backend, the
    database of the history and the web are outside it.  A [world] holds
    what the client owns, the clock and the [trace] of what a call did
    to the outside, oldest first; an [environment] gives the answers of
    the outside. *)

Module GeminiClient.

Inductive backend_model : Type :=
| model_pro      (* [gemini-2.5-pro], for text *)
| model_vision.  (* [gemini-2.5-flash], for images *)

(** What a dispatch [generate_content] ends in: it raises (or reading
    [response.text] does), or it replies with a text, empty when the
    reply has none, [flagged] when a candidate carries safety ratings. *)
Inductive backend_outcome : Type :=
| BackendRaises (message : string)
| BackendReplies (text : string) (flagged : bool).

(** What the web search ends in: a statement of its [try] raises, or
    the request replies with a status and the page with the texts of
    its [.result__snippet] elements. *)
Inductive web_outcome : Type :=
| WebRaises (message : string)
| WebReplies (status_code : Z) (snippets : list string).

(** A row of the table [conversations]. *)
Record conversation : Type := mk_conversation {
  question : string;
  response : string;
  images : option (list string);
  tags : list string
}.

Record environment : Type := mk_environment {
  (** [os.path.getmtime] and [os.path.getsize], as the f-string prints
      their results; [None] when they raise [OSError] *)
  getmtime : string -> option string;
  getsize : string -> option string;
  (** the error of [Image.open], [None] when the image opens *)
  image_error : string -> option string;
  (** the outcome of the dispatch number [n] *)
  backend : nat -> backend_outcome;
  (** the error of the database operation number [n], [None] when it
      succeeds *)
  database : nat -> option string;
  web : string -> web_outcome;
  (** the error of writing the temporary file of a response *)
  save_error : string -> option string;
  (** the format [{time:.1f}] *)
  render_wait : Q -> string;
  (** [_extract_tags]: five of the words of a text, in the order of a
      Python [set] *)
  _extract_tags : string -> list string
}.

Inductive event : Type :=
| CacheGet (key : string)
| CacheSet (key value : string)
| WaitForToken (granted : bool)
| HistoryRead
| HistoryWrite (question response : string)
| Dispatch (model : backend_model) (prompt : string) (images : list string)
| Backoff (seconds : Z)
| SaveTemp (response : string)
| WebRequest (url : string)
| PrintImageError (path message : string)
| PrintQueryError (message : string)
| PrintRetry (retries max_retries : Z)
| PrintFinalError (last_error : option string)
| PrintSaveError (message : string).

Record world : Type := mk_world {
  clock : Q;
  cache : CacheManager.t string;
  rate_limiter : RateLimiter.t;
  history : list conversation;   (* the newest row first *)
  dispatches : nat;
  database_calls : nat;
  trace : list event
}.

(** [__init__], at a clock reading. *)
Definition init (config : Config.t) (now : Q) : world :=
  mk_world now (CacheManager.init config) (RateLimiter.init config)
           [] O O [].

(** *** Computations

    A computation runs from a world to a result or an exception and the
    world it leaves; [None] says that a loop of the model ran out of
    turns. *)
Definition M (A : Type) : Type := world -> option (result A * world).

Definition ret {A : Type} (a : A) : M A := fun w => Some (Ok a, w).

Definition raise {A : Type} (e : exn) : M A := fun w => Some (Raise e, w).

Definition bind {A B : Type} (m : M A) (k : A -> M B) : M B :=
  fun w =>
    match m w with
    | None => None
    | Some (Ok a, w') => k a w'
    | Some (Raise e, w') => Some (Raise e, w')
    end.

Notation "x <- m ;; k" := (bind m (fun x => k))
  (at level 61, m at next level, right associativity).
Notation "m ;; k" := (bind m (fun _ => k))
  (at level 61, right associativity).

(** [try: body except Exception as e: handler(e)] *)
Definition try_except {A : Type} (body : M A) (handler : exn -> M A) : M A :=
  fun w =>
    match body w with
    | Some (Raise e, w') => handler e w'
    | other => other
    end.

Definition emit (e : event) : M unit :=
  fun w =>
    Some (Ok tt,
          mk_world w.(clock) w.(cache) w.(rate_limiter) w.(history)
                   w.(dispatches) w.(database_calls) (w.(trace) ++ [e])).

(** [time.sleep(seconds)] *)
Definition sleep (seconds : Z) : M unit :=
  fun w =>
    Some (Ok tt,
          mk_world (w.(clock) + inject_Z seconds) w.(cache) w.(rate_limiter)
                   w.(history) w.(dispatches) w.(database_calls)
                   w.(trace)).

(** [str(e)] *)
Definition str_of_exn (e : exn) : string :=
  match e with
  | IndexError => "deque index out of range"
  | KeyError => "'dictionary is empty'"
  | OtherError message => message
  end.

(** *** The collaborators, as the client calls them *)

Definition cache_get (key : string) : M (option string) :=
  fun w =>
    let (found, changed) := CacheManager.get w.(cache) key w.(clock) in
    Some (Ok found,
          mk_world w.(clock) changed w.(rate_limiter) w.(history)
                   w.(dispatches) w.(database_calls)
                   (w.(trace) ++ [CacheGet key])).

Definition cache_set (key value : string) : M unit :=
  fun w =>
    let (outcome, changed) := CacheManager.set w.(cache) key value w.(clock) in
    Some (outcome,
          mk_world w.(clock) changed w.(rate_limiter) w.(history)
                   w.(dispatches) w.(database_calls)
                   (w.(trace) ++ [CacheSet key value])).

(** One operation on the database: it raises what the environment says
    or goes on with [done]. *)
Definition database_call {A : Type} (env : environment) (e : event)
  (done : world -> A * list conversation) : M A :=
  fun w =>
    let w' rows :=
      mk_world w.(clock) w.(cache) w.(rate_limiter) rows
               w.(dispatches) (S w.(database_calls)) (w.(trace) ++ [e]) in
    match env.(database) w.(database_calls) with
    | Some message => Some (Raise (OtherError message), w' w.(history))
    | None => let (a, rows) := done w in Some (Ok a, w' rows)
    end.

(** [self.history.add_conversation(question, response, images, tags)] *)
Definition add_conversation (env : environment) (question response : string)
  (images : option (list string)) (tags : list string) : M unit :=
  database_call env (HistoryWrite question response)
    (fun w => (tt, mk_conversation question response images tags
                     :: w.(history))).

(** [self.history.get_recent_conversations(limit)] *)
Definition get_recent_conversations (env : environment) (limit : nat)
  : M (list conversation) :=
  database_call env HistoryRead
    (fun w => (firstn limit w.(history), w.(history))).

(** [self.rate_limiter.wait_for_token(timeout=10)].  With the timeout of
    ten seconds and a tenth of a second per turn the loop takes at most
    101 turns. *)
Definition wait_for_token : M bool :=
  fun w =>
    match RateLimiter.wait_for_token 101 w.(rate_limiter) (Some 10)
                                     w.(clock) with
    | None => None
    | Some (granted, limiter, now) =>
        Some (Ok granted,
              mk_world now w.(cache) limiter w.(history)
                       w.(dispatches) w.(database_calls)
                       (w.(trace) ++ [WaitForToken granted]))
    end.

(** [self.rate_limiter.get_wait_time()] *)
Definition get_wait_time : M (list (RateLimiter.ModelType * Q)) :=
  fun w =>
    Some (RateLimiter.get_wait_time w.(rate_limiter) w.(clock), w).

(** [model.generate_content(...)] and the reading of its reply. *)
Definition generate_content (env : environment) (model : backend_model)
  (prompt : string) (images : list string) : M (string * bool) :=
  fun w =>
    let w' :=
      mk_world w.(clock) w.(cache) w.(rate_limiter) w.(history)
               (S w.(dispatches)) w.(database_calls)
               (w.(trace) ++ [Dispatch model prompt images]) in
    match env.(backend) w.(dispatches) with
    | BackendRaises message => Some (Raise (OtherError message), w')
    | BackendReplies text flagged => Some (Ok (text, flagged), w')
    end.

(** *** The methods of the client *)

Definition newline : string := String (ascii_of_nat 10) EmptyString.

Definition double_quote : string := String (ascii_of_nat 34) EmptyString.

(** The loop that removes from the response, one after the other, the
    asterisk, the acute accent, the backquote, the double quote and the
    apostrophe. *)
Definition sanitize (text : string) : string :=
  fold_left (fun text char => Str.replace char EmptyString text)
            ["*"; "´"; "`"; double_quote; "'"]%string text.

(** The entry of one image in the key: [f"{path}:{mtime}:{size}"], or
    the path alone when [getmtime] or [getsize] raises [OSError]. *)
Definition key_part (env : environment) (path : string) : string :=
  match env.(getmtime) path with
  | None => path
  | Some mtime =>
      match env.(getsize) path with
      | None => path
      | Some size => path ++ ":" ++ mtime ++ ":" ++ size
      end
  end.

(** [if image_paths:] holds for a list that is not empty. *)
Definition attached (image_paths : option (list string)) : list string :=
  match image_paths with
  | Some paths => paths
  | None => []
  end.

Definition key_string (env : environment) (question : string)
  (image_paths : option (list string)) : string :=
  Str.join "||" (question :: map (key_part env) (attached image_paths)).

Definition _generate_cache_key (env : environment) (question : string)
  (image_paths : option (list string)) : string :=
  Md5.hexdigest (key_string env question image_paths).

(** The images of [_process_images]: the paths that open. *)
Definition opened (env : environment) (image_paths : list string)
  : list string :=
  filter (fun path => match env.(image_error) path with
                      | None => true
                      | Some _ => false
                      end) image_paths.

Fixpoint _process_images (env : environment) (image_paths : list string)
  : M (list string) :=
  match image_paths with
  | [] => ret []
  | path :: rest =>
      match env.(image_error) path with
      | None => images <- _process_images env rest ;; ret (path :: images)
      | Some message =>
          emit (PrintImageError path message) ;; _process_images env rest
      end
  end.

Definition _save_temp_response (env : environment) (response_text : string)
  : M bool :=
  emit (SaveTemp response_text) ;;
  match env.(save_error) response_text with
  | None => ret true
  | Some message => emit (PrintSaveError message) ;; ret false
  end.

Definition searches_web (question : string) : bool :=
  Str.contains "pesquise na internet" (Str.lower question)
  || Str.contains "pesquisa na internet" (Str.lower question).

(** The first [if] of [send_query], whose every branch returns. *)
Definition web_search (env : environment) (question : string) : M string :=
  let query :=
    Str.strip
      (Str.replace "pesquisa na internet" ""
         (Str.replace "pesquise na internet" "" (Str.lower question))) in
  if negb (Str.truthy query)
  then ret "Por favor, especifique o que deseja pesquisar na internet."%string
  else
    let url := ("https://duckduckgo.com/html/?q=" ++ query)%string in
    emit (WebRequest url) ;;
    match env.(web) url with
    | WebRaises message =>
        ret ("Erro ao realizar pesquisa na internet: " ++ message)%string
    | WebReplies status_code snippets =>
        if (status_code =? 200)%Z
        then
          match firstn 3 snippets with
          | [] =>
              ret "Nenhum resultado relevante encontrado na internet."%string
          | results =>
              ret (sanitize ("Resultados da pesquisa na internet:"
                             ++ newline
                             ++ Str.join (newline ++ newline) results))
          end
        else
          ret "Não foi possível acessar a pesquisa na internet no momento."%string
    end.

Definition model_value (model : RateLimiter.ModelType) : string :=
  match model with
  | RateLimiter.PRO => "pro"
  | RateLimiter.FLASH => "flash"
  end.

Definition unavailable (env : environment)
  (wait_times : list (RateLimiter.ModelType * Q)) : string :=
  ("Serviço temporariamente indisponível. Tempo de espera por modelo: "
   ++ Str.join ", "
        (map (fun entry =>
                model_value (fst entry) ++ ": "
                ++ env.(render_wait) (snd entry) ++ "s")
             wait_times))%string.

Definition build_prompt (historico : list conversation) (question : string)
  : string :=
  let contexto :=
    fold_left
      (fun contexto h =>
         contexto ++ "Usuário: " ++ h.(GeminiClient.question) ++ newline
                  ++ "Assistente: " ++ h.(response) ++ newline)%string
      historico EmptyString in
  ("Responda em português do Brasil, de forma clara, objetiva e sem cumprimentos iniciais como 'Olá' ou 'Oi'. "
   ++ "Considere o contexto da conversa abaixo:" ++ newline
   ++ contexto
   ++ "Usuário: " ++ question ++ newline
   ++ "Assistente:")%string.

Definition error_msg : string :=
  "Desculpe, ocorreu um erro ao processar sua pergunta.".

(** The body of the [try] of one turn of the retry loop; a result is a
    [return] of [send_query]. *)
Definition attempt (env : environment) (question : string)
  (image_paths : option (list string)) (cache_key : string) : M string :=
  granted <- wait_for_token ;;
  if negb granted
  then
    wait_times <- get_wait_time ;;
    ret (unavailable env wait_times)
  else
    historico <- get_recent_conversations env 5 ;;
    let prompt := build_prompt historico question in
    reply <-
      match attached image_paths with
      | [] => generate_content env model_pro prompt []
      | paths =>
          processed_images <- _process_images env paths ;;
          generate_content env model_vision prompt processed_images
      end ;;
    let (text, flagged) := reply in
    if Str.truthy text
    then
      let response_text := sanitize text in
      cache_set cache_key response_text ;;
      add_conversation env question response_text image_paths
        (env.(_extract_tags) (question ++ " " ++ response_text)%string) ;;
      _save_temp_response env response_text ;;
      ret response_text
    else if flagged
    then ret "A resposta foi bloqueada por questões de segurança do modelo Gemini."%string
    else ret "Desculpe, não consegui processar sua pergunta."%string.

(** [while retries < max_retries].  [remaining] is the number of turns
    left, [max_retries - retries]: a turn returns or adds one to
    [retries]. *)
Fixpoint retry_loop (env : environment) (question : string)
  (image_paths : option (list string)) (cache_key : string)
  (max_retries : Z) (remaining : nat) (retries : Z)
  (last_error : option string) : M string :=
  match remaining with
  | O =>
      emit (PrintFinalError last_error) ;;
      ret error_msg
  | S remaining =>
      try_except (attempt env question image_paths cache_key)
        (fun e =>
           emit (PrintQueryError (str_of_exn e)) ;;
           let retries := (retries + 1)%Z in
           let last_error := Some (str_of_exn e) in
           (if (retries <? max_retries)%Z
            then
              let backoff_time := (2 ^ retries)%Z in
              emit (PrintRetry retries max_retries) ;;
              emit (Backoff backoff_time) ;;
              sleep backoff_time
            else ret tt) ;;
           retry_loop env question image_paths cache_key max_retries
                      remaining retries last_error)
  end.

Definition send_query (env : environment) (question : string)
  (image_paths : option (list string)) (max_retries : Z) : M string :=
  if searches_web question
  then web_search env question
  else
    let cache_key := _generate_cache_key env question image_paths in
    cached_response <- cache_get cache_key ;;
    match cached_response with
    | Some (String c rest) =>
        let cached_response := String c rest in
        add_conversation env question cached_response image_paths
          (env.(_extract_tags) (question ++ " " ++ cached_response)%string) ;;
        ret cached_response
    | _ =>
        retry_loop env question image_paths cache_key max_retries
                   (Z.to_nat max_retries) 0 None
    end.

(** *** Readings of a trace *)

(** The admission checks and the backoff sleeps of a trace, in order:
    [None] for a call of [wait_for_token], [Some seconds] for a
    [time.sleep(backoff_time)]. *)
Definition rhythm (events : list event) : list (option Z) :=
  flat_map (fun e => match e with
                     | WaitForToken _ => [None]
                     | Backoff seconds => [Some seconds]
                     | _ => []
                     end) events.

(** The errors of the failed turns, as [except] printed them. *)
Definition failures (events : list event) : list string :=
  flat_map (fun e => match e with
                     | PrintQueryError message => [message]
                     | _ => []
                     end) events.

(** What [print(f"Erro final: {last_error}")] printed. *)
Definition final_errors (events : list event) : list (option string) :=
  flat_map (fun e => match e with
                     | PrintFinalError last_error => [last_error]
                     | _ => []
                     end) events.

(** One admission check, then [more] times a sleep of [2 ^ retries]
    seconds and an admission check, [retries] being the count of the
    failures so far. *)
Fixpoint backoff_rhythm (retries : Z) (more : nat) : list (option Z) :=
  match more with
  | O => [None]
  | S more =>
      None :: Some (2 ^ (retries + 1))%Z :: backoff_rhythm (retries + 1) more
  end.

(** The rhythm of [attempts] turns that start after [retries]
    failures. *)
Definition rhythm_from (retries : Z) (attempts : nat) : list (option Z) :=
  match attempts with
  | O => []
  | S more => backoff_rhythm retries more
  end.

Definition expected_rhythm (attempts : nat) : list (option Z) :=
  rhythm_from 0 attempts.

(** The number of turns that started when [failed] turns failed and
    [remaining] turns were allowed: a loop that did not use up its turns
    ended in a turn that returned. *)
Definition turns (failed remaining : nat) : nat :=
  if (failed <? remaining)%nat then S failed else failed.

(** The cached response that passes [if cached_response:], which the
    empty string does not. *)
Definition cached_answer (w : world) (key : string) : option string :=
  match fst (CacheManager.get w.(cache) key w.(clock)) with
  | Some (String c rest) => Some (String c rest)
  | _ => None
  end.

(** The world after [self.cache.get(key)]. *)
Definition after_get (w : world) (key : string) : world :=
  mk_world w.(clock) (snd (CacheManager.get w.(cache) key w.(clock)))
           w.(rate_limiter) w.(history) w.(dispatches) w.(database_calls)
           (w.(trace) ++ [CacheGet key]).

(** The last of the errors, [last_error] when there is none. *)
Definition last_error_after (last_error : option string)
  (errors : list string) : option string :=
  List.last (map Some errors) last_error.

(** [w] with [added] at the end of its trace and nothing else changed. *)
Definition traced (w : world) (added : list event) : world :=
  mk_world w.(clock) w.(cache) w.(rate_limiter) w.(history)
           w.(dispatches) w.(database_calls) (w.(trace) ++ added).

(** *** Computations that neither check admission nor back off *)

Definition quiet (e : event) : Prop :=
  rhythm [e] = [] /\ failures [e] = [] /\ final_errors [e] = [].

Definition quietly {A : Type} (m : M A) : Prop :=
  forall w, exists r w' added,
    m w = Some (r, w')
    /\ w'.(trace) = w.(trace) ++ added
    /\ Forall quiet added.


(** The world [seconds] later. *)
Definition elapse (seconds : Q) (w : world) : world :=
  mk_world (w.(clock) + seconds) w.(cache) w.(rate_limiter) w.(history)
           w.(dispatches) w.(database_calls) w.(trace).


(** *** The discipline of a trace

    Where a call stands between an admission check and the use of the
    token it granted. *)
Inductive phase : Type :=
| Idle          (* no token in hand *)
| Granted       (* [wait_for_token] has returned [True] *)
| Dispatched.   (* the backend has been called with the token *)

(** A dispatch takes a token that was granted, a write of the cache
    takes the dispatch before it, an admission check starts over. *)
Definition advance (p : phase) (e : event) : option phase :=
  match e with
  | WaitForToken granted => Some (if granted then Granted else Idle)
  | Dispatch _ _ _ =>
      match p with
      | Granted => Some Dispatched
      | _ => None
      end
  | CacheSet _ _ =>
      match p with
      | Dispatched => Some Idle
      | _ => None
      end
  | _ => Some p
  end.

(** The phase the events lead to from [p], [None] when one of them
    breaks the discipline. *)
Fixpoint follow (p : phase) (events : list event) : option phase :=
  match events with
  | [] => Some p
  | e :: rest =>
      match advance p e with
      | Some p' => follow p' rest
      | None => None
      end
  end.

(** The number of the admission checks of a trace, of those that were
    granted, and of the calls of the backend. *)
Definition checks (events : list event) : nat :=
  List.length (filter (fun e => match e with
                                | WaitForToken _ => true
                                | _ => false
                                end) events).

Definition tokens (events : list event) : nat :=
  List.length (filter (fun e => match e with
                                | WaitForToken true => true
                                | _ => false
                                end) events).

Definition dispatched (events : list event) : nat :=
  List.length (filter (fun e => match e with
                                | Dispatch _ _ _ => true
                                | _ => false
                                end) events).

(** An event that is no admission check, no dispatch and no write of
    the cache. *)
Definition neutral (e : event) : Prop :=
  (forall p, advance p e = Some p)
  /\ checks [e] = O /\ dispatched [e] = O.

(** A computation that, started in phase [p], ends, keeps the
    discipline, checks admission at most [n] times, counts its
    dispatches, and ends with a result and in a phase that [q] holds
    of. *)
Definition orderly {A : Type} (m : M A) (p : phase) (n : nat)
  (q : result A -> phase -> Prop) : Prop :=
  forall w, exists r w' added,
    m w = Some (r, w')
    /\ w'.(trace) = w.(trace) ++ added
    /\ w'.(dispatches) = (w.(dispatches) + dispatched added)%nat
    /\ (checks added <= n)%nat
    /\ exists p', follow p added = Some p' /\ q r p'.

(** The two answers to a reply without a text. *)
Definition no_text_answer (flagged : bool) : string :=
  if flagged
  then "A resposta foi bloqueada por questões de segurança do modelo Gemini."
  else "Desculpe, não consegui processar sua pergunta.".

(** *** The time a computation sleeps

    The clock of a world moves in [time.sleep] only.  A computation
    lasts [d] when it ends and has moved the clock forward by [d] at
    most. *)
Definition lasts {A : Type} (m : M A) (d : Q) : Prop :=
  forall w, exists r w',
    m w = Some (r, w')
    /\ w.(clock) <= w'.(clock)
    /\ w'.(clock) - w.(clock) <= d.

(** The sleeps of [remaining] turns that start after [retries]
    failures: an admission check of ten seconds and a tenth per turn,
    and [2 ^ retries] seconds of backoff between two turns. *)
Fixpoint budget (retries : Z) (remaining : nat) : Q :=
  match remaining with
  | O => 0
  | S more =>
      (101 # 10)
      + match more with
        | O => 0
        | S _ => inject_Z (2 ^ (retries + 1)) + budget (retries + 1) more
        end
  end.

(** *** What a call has done *)

(** The row of an answer in the history. *)
Definition row (env : environment) (question text : string)
  (image_paths : option (list string)) : conversation :=
  mk_conversation question text image_paths
    (env.(_extract_tags) (question ++ " " ++ text)%string).

(** [w'] has the rows of [w] and the settings of its cache, and no
    fewer dispatches. *)
Definition steady (w w' : world) : Prop :=
  w'.(history) = w.(history)
  /\ (w.(dispatches) <= w'.(dispatches))%nat
  /\ CacheManager.enabled w'.(cache) = CacheManager.enabled w.(cache)
  /\ CacheManager.timeout w'.(cache) = CacheManager.timeout w.(cache).

(** From [w] to [w'] the backend has answered: the last dispatch, made
    no earlier than in [w], replied with a text; the result is that
    text, sanitized; it is the newest row of the history; and a cache
    that is enabled holds it under [key], stamped with the clock of
    [w']. *)
Definition backend_answered (env : environment) (question : string)
  (image_paths : option (list string)) (key : string)
  (w : world) (r : result string) (w' : world) : Prop :=
  exists n reply flagged,
    (w.(dispatches) <= n)%nat
    /\ w'.(dispatches) = S n
    /\ env.(backend) n = BackendReplies reply flagged
    /\ Str.truthy reply = true
    /\ r = Ok (sanitize reply)
    /\ w'.(history)
       = row env question (sanitize reply) image_paths :: w.(history)
    /\ CacheManager.enabled w'.(cache) = CacheManager.enabled w.(cache)
    /\ CacheManager.timeout w'.(cache) = CacheManager.timeout w.(cache)
    /\ (CacheManager.enabled w'.(cache) = true ->
        CacheManager.lookup key (CacheManager._cache w'.(cache))
        = Some (sanitize reply, w'.(clock))).

(** The dispatch number [n] raises. *)
Definition raises (env : environment) (n : nat) : bool :=
  match env.(backend) n with
  | BackendRaises _ => true
  | BackendReplies _ _ => false
  end.

(** How many of the dispatches [first], ..., [first + count - 1]
    raise. *)
Definition raised (env : environment) (first count : nat) : nat :=
  List.length (filter (raises env) (seq first count)).

(** The seconds of the backoff sleeps of a trace, together. *)
Definition backoff_seconds (events : list event) : Z :=
  fold_right Z.add 0%Z
    (flat_map (fun e => match e with
                        | Backoff seconds => [seconds]
                        | _ => []
                        end) events).

End GeminiClient.

(** ** Sample environments *)

Module Samples.

Import GeminiClient.

(** No file has metadata or opens, the database works, the web is
    down; the backend is given. *)
Definition environment_with (backend : nat -> backend_outcome)
  (database : nat -> option string) : environment :=
  mk_environment (fun _ => None) (fun _ => None)
    (fun _ => Some "cannot identify image file"%string)
    backend database
    (fun _ => WebRaises "connection refused"%string)
    (fun _ => None) (fun _ => "0.0"%string) (fun _ => []).

(** The backend raises twice and then answers. *)
Definition third_time_lucky : environment :=
  environment_with
    (fun n => match n with
              | O => BackendRaises "503 unavailable"%string
              | S O => BackendRaises "deadline exceeded"%string
              | _ => BackendReplies "It is a cat."%string false
              end)
    (fun _ => None).


(** The backend answers and the database works. *)
Definition answers : environment :=
  environment_with (fun _ => BackendReplies "It is a cat."%string false)
                   (fun _ => None).

(** The backend answers and the database is locked. *)
Definition database_locked : environment :=
  environment_with (fun _ => BackendReplies "It is a cat."%string false)
                   (fun _ => Some "database is locked"%string).

(** The backend answers; the database reads, and is locked when
    written: the operations of a turn are a read and then a write. *)
Definition writes_fail : environment :=
  environment_with (fun _ => BackendReplies "It is a cat."%string false)
                   (fun n => if Nat.even n then None
                             else Some "database is locked"%string).

(** A fresh client with the default configuration, at clock 1000. *)
Definition fresh : world := init Config.defaults 1000.

(** A client whose cache holds an answer to [question], written at
    clock 1000. *)
Definition answered (env : environment) (question answer : string) : world :=
  mk_world 1000
    (CacheManager.mk
       [(_generate_cache_key env question None, (answer, 1000))]
       true 3600 100)
    (RateLimiter.init Config.defaults) [] O O [].

(** What a call returned or raised. *)
Definition outcome (run : option (result string * world))
  : option (result string) :=
  option_map fst run.

(** What a call added to the trace of [w]. *)
Definition added_to (w : world) (run : option (result string * world))
  : list event :=
  match run with
  | Some (_, w') => skipn (List.length w.(trace)) w'.(trace)
  | None => []
  end.

(** The world a call left, [w] when it did not end. *)
Definition left_by (w : world) (run : option (result string * world))
  : world :=
  match run with
  | Some (_, w') => w'
  | None => w
  end.

(** A cache of numbers after two writes. *)
Definition two_entries : CacheManager.t nat :=
  CacheManager.history Config.defaults
    [CacheManager.CallSet "a" 1%nat 0; CacheManager.CallSet "b" 2%nat 1].

(** Both tiers have granted all they grant in a minute, at clock 1000. *)
Definition saturated_tiers : RateLimiter.t :=
  RateLimiter.mk
    (ModelLimiter.state_after 3 30 [1000; 1000; 1000])
    (ModelLimiter.state_after 5 50 [1000; 1000; 1000; 1000; 1000])
    RateLimiter.PRO.

(** A client with these tiers, at clock 1000. *)
Definition busy : world :=
  mk_world 1000 (CacheManager.init Config.defaults) saturated_tiers
           [] O O [].

(** What [wait_for_token(timeout=10)] leaves of [busy]. *)
Definition busy_wait : bool * RateLimiter.t * Q :=
  match RateLimiter.wait_for_token 101 saturated_tiers (Some 10) 1000 with
  | Some ended => ended
  | None => (false, saturated_tiers, 1000)
  end.

(** The waits the limiter reports after that. *)
Definition busy_waits : list (RateLimiter.ModelType * Q) :=
  match RateLimiter.get_wait_time (snd (fst busy_wait)) (snd busy_wait) with
  | Ok waits => waits
  | Raise _ => []
  end.

(** The backend replies without a text. *)
Definition no_text (flagged : bool) : environment :=
  environment_with (fun _ => BackendReplies EmptyString flagged)
                   (fun _ => None).

(** The file at [path] has the given time of modification and size, no
    other file has metadata. *)
Definition with_metadata (path mtime size : string) : environment :=
  mk_environment
    (fun p => if String.eqb p path then Some mtime else None)
    (fun p => if String.eqb p path then Some size else None)
    (fun _ => None)
    (fun _ => BackendReplies "It is a cat."%string false) (fun _ => None)
    (fun _ => WebRaises "connection refused"%string)
    (fun _ => None) (fun _ => "0.0"%string) (fun _ => []).

(** The backend raises at every dispatch. *)
Definition always_raises : environment :=
  environment_with (fun _ => BackendRaises "503 unavailable"%string)
                   (fun _ => None).

End Samples.


(** * Properties *)

(** ** One sliding window *)

Lemma last_cons (A : Type) (l : list A) (a d : A) :
  List.last (a :: l) d = List.last l a.
Proof.
  revert a d. induction l as [|b l IH]; intros a d; auto.
  change (List.last (b :: l) d = List.last (b :: l) a).
  now rewrite (IH b d), (IH b a).
Qed.

Section SlidingWindow.

Import ModelLimiter.

Variable window : Q.
Variable limit : Z.

Lemma tracked_init last : (0 <= limit)%Z -> tracked window limit last [] [].
Proof.
  intros Hl. split; simpl; auto.
  - exists []. split; auto.
  - constructor.
Qed.

Lemma purge_split now queue :
  exists dropped,
    queue = dropped ++ purge now window queue
    /\ Forall (fun g => window <= now - g) dropped.
Proof.
  induction queue as [|oldest rest IH]; simpl.
  - exists []. split; auto.
  - destruct (Qle_bool window (now - oldest)) eqn:E.
    + destruct IH as (dropped & Hq & Hd).
      exists (oldest :: dropped). split.
      * simpl. now rewrite <- Hq.
      * constructor; auto. now apply Qle_bool_iff.
    + exists []. split; auto.
Qed.

Lemma purge_fresh now queue :
  StronglySorted Qle queue ->
  Forall (fun g => now - g < window) (purge now window queue).
Proof.
  induction 1 as [|oldest rest Hs IH Hle]; simpl; auto.
  destruct (Qle_bool window (now - oldest)) eqn:E; auto.
  assert (Hf : now - oldest < window).
  { apply Qnot_le_lt. intros H. apply Qle_bool_iff in H. congruence. }
  constructor; auto.
  rewrite Forall_forall in *. intros g Hg. specialize (Hle g Hg).
  cbv beta in *. lra.
Qed.

Lemma purge_sorted now queue :
  StronglySorted Qle queue -> StronglySorted Qle (purge now window queue).
Proof.
  induction 1 as [|oldest rest Hs IH Hle]; simpl.
  - constructor.
  - destruct (Qle_bool window (now - oldest)); auto. now constructor.
Qed.

Lemma purge_len now queue : (len (purge now window queue) <= len queue)%Z.
Proof.
  unfold len. induction queue as [|oldest rest IH]; simpl; try lia.
  destruct (Qle_bool window (now - oldest)); simpl List.length; lia.
Qed.

Lemma tracked_purge last now log queue :
  last <= now ->
  tracked window limit last log queue ->
  tracked window limit now log (purge now window queue).
Proof.
  intros Hnow [(stale & Hlog & Hstale) Hb Hs Hlen Hc].
  destruct (purge_split now queue) as (dropped & Hq & Hd).
  split; auto.
  - exists (stale ++ dropped). split.
    + rewrite <- app_assoc, <- Hq. exact Hlog.
    + apply Forall_app. split; auto.
      eapply Forall_impl; [|exact Hstale]. simpl. intros g Hg. lra.
  - eapply Forall_impl; [|exact Hb]. simpl. intros g Hg. lra.
  - now apply purge_sorted.
  - pose proof (purge_len now queue). lia.
Qed.

Lemma sorted_snoc queue now :
  StronglySorted Qle queue ->
  Forall (fun g => g <= now) queue ->
  StronglySorted Qle (queue ++ [now]).
Proof.
  induction 1 as [|oldest rest Hs IH Hle]; simpl; intros Hb.
  - constructor; auto. constructor.
  - inversion Hb; subst. constructor; auto.
    apply Forall_app. split; auto.
Qed.

Lemma requests_within_app log1 log2 t :
  requests_within (log1 ++ log2) t window
  = (requests_within log1 t window + requests_within log2 t window)%Z.
Proof.
  unfold requests_within. rewrite filter_app, length_app. lia.
Qed.

Lemma requests_within_le_len log t :
  (requests_within log t window <= len log)%Z.
Proof.
  unfold requests_within, len.
  pose proof (filter_length_le (in_window t window) log). lia.
Qed.

Lemma requests_within_none log t :
  Forall (fun g => in_window t window g = false) log ->
  requests_within log t window = 0%Z.
Proof.
  unfold requests_within. induction 1 as [|g rest Hg _ IH]; simpl; auto.
  now rewrite Hg.
Qed.

Lemma in_window_true t g :
  in_window t window g = true <-> g <= t /\ t - g < window.
Proof.
  unfold in_window. rewrite andb_true_iff, negb_true_iff, Qle_bool_iff.
  split; intros [H1 H2]; split; auto.
  - apply Qnot_le_lt. intros H. apply Qle_bool_iff in H. congruence.
  - destruct (Qle_bool window (t - g)) eqn:E; auto.
    apply Qle_bool_iff in E. lra.
Qed.

Lemma in_window_false t g :
  in_window t window g = false <-> t < g \/ window <= t - g.
Proof.
  destruct (in_window t window g) eqn:E.
  - apply in_window_true in E. split; [discriminate|]. intros [H|H]; lra.
  - split; auto. intros _.
    destruct (Qlt_le_dec t g) as [H|H]; auto.
    destruct (Qlt_le_dec (t - g) window) as [H'|H']; auto.
    assert (in_window t window g = true) by (apply in_window_true; auto).
    congruence.
Qed.

Lemma tracked_record now log queue :
  tracked window limit now log queue ->
  Forall (fun g => now - g < window) queue ->
  (len queue < limit)%Z ->
  tracked window limit now (log ++ [now]) (queue ++ [now]).
Proof.
  intros [(stale & Hlog & Hstale) Hb Hs Hlen Hc] Hfresh Hlt.
  split.
  - exists stale. split; auto. now rewrite Hlog, app_assoc.
  - apply Forall_app. split; auto. constructor; auto. lra.
  - apply sorted_snoc; auto.
    subst log. apply Forall_app in Hb. tauto.
  - unfold len in *. rewrite length_app. simpl. lia.
  - intros t. rewrite requests_within_app.
    destruct (Qlt_le_dec t now) as [Hearly|Hlate].
    + assert (requests_within [now] t window = 0%Z) as ->.
      { apply requests_within_none. constructor; auto.
        apply in_window_false. auto. }
      specialize (Hc t). lia.
    + assert (requests_within [now] t window <= 1)%Z.
      { pose proof (requests_within_le_len [now] t). unfold len in *.
        simpl in *. lia. }
      assert (requests_within log t window <= len queue)%Z.
      { subst log. rewrite requests_within_app.
        rewrite (requests_within_none (log:=stale)).
        - pose proof (requests_within_le_len queue t). lia.
        - eapply Forall_impl; [|exact Hstale]. simpl. intros g Hg.
          apply in_window_false. right. lra. }
      lia.
Qed.

(** At an instant not before the last reading, the requests in the
    trailing window are requests of the deque. *)
Lemma requests_within_queue last now log queue :
  last <= now ->
  tracked window limit last log queue ->
  filter (in_window now window) log = filter (in_window now window) queue.
Proof.
  intros Hnow [(stale & Hlog & Hstale) _ _ _ _]. subst log.
  rewrite filter_app.
  replace (filter (in_window now window) stale) with (@nil Q); auto.
  symmetry. induction Hstale as [|g rest Hg _ IH]; simpl; auto.
  assert (in_window now window g = false) as ->; auto.
  apply in_window_false. right. lra.
Qed.

Lemma filter_all (A : Type) (f : A -> bool) (l : list A) :
  Forall (fun a => f a = true) l -> filter f l = l.
Proof.
  induction 1 as [|a l Ha _ IH]; simpl; auto. now rewrite Ha, IH.
Qed.

(** What one [if] of [get_wait_time] computes, in the words of the
    specification: the time until the oldest entry of the window ages
    out when the window is saturated, and 0 when it is not. *)
Lemma window_wait_spec last now log queue :
  (0 < limit)%Z ->
  last <= now ->
  tracked window limit last log queue ->
  exists wait,
    window_wait queue limit window now = Ok wait
    /\ wait == (if saturated log now window limit
                then ages_out_in log now window else 0).
Proof.
  intros Hpos Hnow Ht.
  pose proof (requests_within_queue Hnow Ht) as Hfilter.
  destruct Ht as [(stale & Hlog & _) Hb Hs Hlen _].
  assert (Hbq : Forall (fun g => g <= last) queue).
  { subst log. apply Forall_app in Hb. tauto. }
  unfold window_wait, saturated, ages_out_in, oldest_within, requests_within.
  rewrite Hfilter. clear Hfilter Hlog Hb.
  pose proof (filter_length_le (in_window now window) queue) as Hfl.
  unfold len in *. rewrite !Z.geb_leb.
  destruct (limit <=? Z.of_nat (List.length queue))%Z eqn:E.
  - apply Z.leb_le in E.
    destruct queue as [|oldest rest]; [simpl in E; lia|].
    simpl front. eexists. split; [reflexivity|].
    inversion Hs as [|? ? Hs' Hle]; subst.
    destruct (Qlt_le_dec (now - oldest) window) as [Hfresh|Hold].
    + rewrite filter_all.
      * assert ((limit <=? Z.of_nat (List.length (oldest :: rest)))%Z = true)
          as -> by (apply Z.leb_le; lia).
        simpl. apply Q.max_r. lra.
      * assert (Hge : Forall (fun g => oldest <= g) (oldest :: rest)).
        { constructor; auto. apply Qle_refl. }
        rewrite Forall_forall in *. intros g Hg.
        specialize (Hge g Hg). specialize (Hbq g Hg). cbv beta in *.
        apply in_window_true. split; lra.
    + assert (in_window now window oldest = false) as Hout.
      { apply in_window_false. now right. }
      simpl filter. rewrite Hout.
      pose proof (filter_length_le (in_window now window) rest) as Hfr.
      assert ((limit <=? Z.of_nat (List.length
                 (filter (in_window now window) rest)))%Z = false) as ->.
      { apply Z.leb_gt. simpl List.length in *. lia. }
      apply Q.max_l. lra.
  - exists 0. split; auto.
    apply Z.leb_gt in E.
    assert ((limit <=? Z.of_nat (List.length
               (filter (in_window now window) queue)))%Z = false) as ->.
    { apply Z.leb_gt. lia. }
    reflexivity.
Qed.

End SlidingWindow.

(** ** One tier *)

Section Tier.

Import ModelLimiter.

Variables rpm0 rpd0 : Z.

Lemma consistent_init last :
  (0 <= rpm0)%Z -> (0 <= rpd0)%Z ->
  consistent rpm0 rpd0 last [] (init rpm0 rpd0).
Proof.
  intros Hm Hd. split; simpl; auto using tracked_init.
Qed.

Lemma consistent_clean last now log self :
  last <= now ->
  consistent rpm0 rpd0 last log self ->
  consistent rpm0 rpd0 now log (_clean_old_requests self now).
Proof.
  intros Hnow [Hrpm Hrpd Hmw Hdw Hm Hd].
  split; simpl; auto; rewrite ?Hmw, ?Hdw; now apply tracked_purge with last.
Qed.

Lemma consistent_try_acquire last now log self :
  last <= now ->
  consistent rpm0 rpd0 last log self ->
  consistent rpm0 rpd0 now
    (if fst (try_acquire self now) then log ++ [now] else log)
    (snd (try_acquire self now)).
Proof.
  intros Hnow Hc.
  pose proof (consistent_clean Hnow Hc) as Hclean.
  unfold try_acquire.
  destruct (below_limits (_clean_old_requests self now)) eqn:E; simpl; auto.
  destruct Hc as [_ _ Hmw Hdw [_ _ Hms _ _] [_ _ Hds _ _]].
  destruct Hclean as [Hrpm Hrpd Hmw' Hdw' Hm Hd].
  unfold below_limits in E. apply andb_true_iff in E. destruct E as [E1 E2].
  apply Z.ltb_lt in E1, E2. rewrite Hrpm in E1. rewrite Hrpd in E2.
  split; simpl; auto.
  - apply tracked_record; auto. rewrite Hmw. now apply purge_fresh.
  - apply tracked_record; auto. rewrite Hdw. now apply purge_fresh.
Qed.

Lemma consistent_run clock : forall last log self,
  monotone_from last clock = true ->
  consistent rpm0 rpd0 last log self ->
  consistent rpm0 rpd0 (List.last clock last)
             (snd (run self log clock)) (fst (run self log clock)).
Proof.
  induction clock as [|now later IH]; intros last log self Hmono Hc.
  - exact Hc.
  - simpl in Hmono. apply andb_true_iff in Hmono. destruct Hmono as [H1 H2].
    apply Qle_bool_iff in H1.
    pose proof (consistent_try_acquire H1 Hc) as Hstep.
    cbn [run]. destruct (try_acquire self now) as [granted self'].
    simpl in Hstep.
    rewrite last_cons. now apply IH.
Qed.


(** Every state a monotone clock reaches agrees with its log. *)
Lemma consistent_reachable clock :
  (0 <= rpm0)%Z -> (0 <= rpd0)%Z ->
  monotone clock = true ->
  consistent rpm0 rpd0 (List.last clock 0) (grants rpm0 rpd0 clock)
             (state_after rpm0 rpd0 clock).
Proof.
  intros Hm Hd Hmono. unfold grants, state_after.
  destruct clock as [|first later].
  - simpl. now apply consistent_init.
  - rewrite last_cons. cbn [run].
    pose proof (@consistent_init first Hm Hd) as Hinit.
    assert (Hfirst : first <= first) by apply Qle_refl.
    pose proof (consistent_try_acquire Hfirst Hinit) as Hstep.
    destruct (try_acquire (init rpm0 rpd0) first) as [granted self'].
    now apply consistent_run.
Qed.

Lemma monotone_from_app clock : forall last now,
  monotone_from last (clock ++ [now]) = true ->
  monotone_from last clock = true /\ List.last clock last <= now.
Proof.
  induction clock as [|first later IH]; intros last now; simpl.
  - rewrite andb_true_r, Qle_bool_iff. auto.
  - rewrite andb_true_iff. intros [H1 H2].
    destruct (IH _ _ H2) as [H3 H4]. rewrite H1, H3. split; auto.
    change (List.last (first :: later) last <= now). now rewrite last_cons.
Qed.

(** A state a monotone clock reaches, seen at an instant [now] that is
    not before the last call. *)
Lemma consistent_at clock now :
  (0 <= rpm0)%Z -> (0 <= rpd0)%Z ->
  monotone (clock ++ [now]) = true ->
  exists last,
    last <= now
    /\ consistent rpm0 rpd0 last (grants rpm0 rpd0 clock)
                  (state_after rpm0 rpd0 clock).
Proof.
  intros Hm Hd Hmono. destruct clock as [|first later].
  - exists now. split; [apply Qle_refl|]. now apply consistent_init.
  - simpl in Hmono. apply monotone_from_app in Hmono.
    destruct Hmono as [H1 H2].
    exists (List.last (first :: later) 0). split.
    + now rewrite last_cons.
    + now apply consistent_reachable.
Qed.

Lemma get_wait_time_spec clock now :
  (0 < rpm0)%Z -> (0 < rpd0)%Z ->
  monotone (clock ++ [now]) = true ->
  exists wait,
    get_wait_time (state_after rpm0 rpd0 clock) now = Ok wait
    /\ wait == wait_time_per_window (grants rpm0 rpd0 clock) rpm0 rpd0 now.
Proof.
  intros Hm Hd Hmono.
  destruct (@consistent_at clock now) as (last & Hlast & Hc); auto; try lia.
  destruct Hc as [Hrpm Hrpd Hmw Hdw Hmin Hday].
  destruct (window_wait_spec Hm Hlast Hmin) as (mw & Hmw1 & Hmw2).
  destruct (window_wait_spec Hd Hlast Hday) as (dw & Hdw1 & Hdw2).
  unfold get_wait_time. rewrite Hrpm, Hrpd, Hmw, Hdw, Hmw1, Hdw1.
  eexists. split; [reflexivity|].
  unfold wait_time_per_window. now rewrite Hmw2, Hdw2.
Qed.

Lemma purged_queue_is_window (window : Q) (limit : Z) last now log queue :
  last <= now ->
  tracked window limit last log queue ->
  requests_within log now window = len (purge now window queue).
Proof.
  intros Hnow Ht.
  pose proof (tracked_purge Hnow Ht) as Hp.
  unfold requests_within, len.
  rewrite (requests_within_queue (Qle_refl now) Hp).
  rewrite filter_all; auto.
  destruct Ht as [_ _ Hs _ _]. destruct Hp as [(stale & Hlog & _) Hb _ _ _].
  pose proof (@purge_fresh window now _ Hs) as Hf.
  subst log. apply Forall_app in Hb. destruct Hb as [_ Hb].
  rewrite Forall_forall in *. intros g Hg.
  specialize (Hf g Hg). specialize (Hb g Hg). cbv beta in *.
  apply in_window_true. split; lra.
Qed.

(** [try_acquire] grants exactly when the tier has spare capacity. *)
Lemma try_acquire_grants_iff_spare last now log self :
  last <= now ->
  consistent rpm0 rpd0 last log self ->
  fst (try_acquire self now) = has_spare_capacity log rpm0 rpd0 now.
Proof.
  intros Hnow [Hrpm Hrpd Hmw Hdw Hmin Hday].
  unfold has_spare_capacity, saturated.
  rewrite (purged_queue_is_window Hnow Hmin).
  rewrite (purged_queue_is_window Hnow Hday).
  unfold try_acquire.
  replace (below_limits (_clean_old_requests self now))
    with (negb (len (purge now 60 (minute_requests self)) >=? rpm0)%Z
          && negb (len (purge now 86400 (day_requests self)) >=? rpd0)%Z).
  - now destruct (negb _ && negb _).
  - unfold below_limits. simpl. rewrite Hrpm, Hrpd, Hmw, Hdw.
    rewrite !Z.geb_leb, <- !Z.ltb_antisym. reflexivity.
Qed.

Lemma try_acquire_grants_iff_spare_reachable clock now :
  (0 <= rpm0)%Z -> (0 <= rpd0)%Z ->
  monotone (clock ++ [now]) = true ->
  fst (try_acquire (state_after rpm0 rpd0 clock) now)
  = has_spare_capacity (grants rpm0 rpd0 clock) rpm0 rpd0 now.
Proof.
  intros Hm Hd Hmono.
  destruct (@consistent_at clock now) as (last & Hlast & Hc); auto.
  now apply try_acquire_grants_iff_spare with last.
Qed.

End Tier.

(** C1. For every sequence of [try_acquire] calls on one limiter built
    with limits [rpm] and [rpd] whose clock readings never decrease, and
    at every instant [t], at most [rpm] of the granted calls lie in the
    60 seconds that trail [t], and at most [rpd] in the 86400 seconds
    that trail [t]. *)
Theorem limiter_windows_within_limits
  (rpm rpd : Z) (clock : list Q) (t : Q) :
  (0 <= rpm)%Z -> (0 <= rpd)%Z ->
  ModelLimiter.monotone clock = true ->
  (ModelLimiter.requests_within
     (ModelLimiter.grants rpm rpd clock) t 60 <= rpm)%Z
  /\ (ModelLimiter.requests_within
        (ModelLimiter.grants rpm rpd clock) t 86400 <= rpd)%Z.
Proof.
  intros Hm Hd Hmono.
  destruct (@consistent_reachable rpm rpd clock Hm Hd Hmono)
    as [_ _ _ _ Hmin Hday].
  split.
  - apply (ModelLimiter.tracked_count Hmin).
  - apply (ModelLimiter.tracked_count Hday).
Qed.

Lemma limiter_windows_within_limits_witness :
  Z.le (ModelLimiter.requests_within
          (ModelLimiter.grants 3 30 [0; 1 # 2; 1; 1; 30; 61]) 61 60) 3
  /\ Z.le (ModelLimiter.requests_within
             (ModelLimiter.grants 3 30 [0; 1 # 2; 1; 1; 30; 61]) 61 86400) 30.
Proof.
  apply (@limiter_windows_within_limits 3 30 [0; 1 # 2; 1; 1; 30; 61] 61);
    [lia | lia | reflexivity].
Defined.

Lemma Qle_bool_false (x y : Q) : y < x -> Qle_bool x y = false.
Proof.
  intros H. destruct (Qle_bool x y) eqn:E; auto.
  apply Qle_bool_iff in E. lra.
Qed.

(** The scenario of the specification: a fresh limiter with [rpm = 3]
    and a larger [rpd], four calls, and a look at the wait time before
    the first grant is a minute old. *)
Lemma four_calls_scenario (rpd : Z) (t1 t2 t3 t4 now : Q) :
  (3 < rpd)%Z ->
  ModelLimiter.monotone [t1; t2; t3; t4; now] = true ->
  now - t1 < 60 ->
  ModelLimiter.outcomes (ModelLimiter.init 3 rpd) [t1; t2; t3; t4]
  = [true; true; true; false]
  /\ ModelLimiter.get_wait_time
       (ModelLimiter.state_after 3 rpd [t1; t2; t3; t4]) now
     = Ok (Qmax (Qmax 0 (60 - (now - t1))) 0).
Proof.
  intros Hrpd Hmono Hnow. simpl in Hmono.
  rewrite !andb_true_iff, !Qle_bool_iff in Hmono.
  destruct Hmono as (H12 & H23 & H34 & H4n & _).
  assert (P : forall t rest, t1 <= t -> t <= now ->
            forall w, 60 <= w ->
            ModelLimiter.purge t w (t1 :: rest) = t1 :: rest).
  { intros t rest Ha Hb w Hw. simpl.
    rewrite Qle_bool_false; auto. lra. }
  assert (Hd : 60 <= 86400) by lra.
  assert (Hm : 60 <= 60) by lra.
  assert (L : forall n, (n <= 3)%Z -> (n <? rpd)%Z = true).
  { intros n Hn. apply Z.ltb_lt. lia. }
  set (st := fun queue => ModelLimiter.mk 3 rpd 60 86400 queue queue).
  assert (S1 : ModelLimiter.try_acquire (st []) t1 = (true, st [t1])).
  { unfold ModelLimiter.try_acquire, ModelLimiter.below_limits. simpl.
    now rewrite L by (unfold ModelLimiter.len; simpl; lia). }
  assert (S2 : ModelLimiter.try_acquire (st [t1]) t2 = (true, st [t1; t2])).
  { unfold ModelLimiter.try_acquire, ModelLimiter._clean_old_requests,
      ModelLimiter.below_limits, st.
    cbn [ModelLimiter.rpm ModelLimiter.rpd ModelLimiter.minute_window
         ModelLimiter.day_window ModelLimiter.minute_requests
         ModelLimiter.day_requests].
    rewrite !P by lra. simpl.
    now rewrite L by (unfold ModelLimiter.len; simpl; lia). }
  assert (S3 : ModelLimiter.try_acquire (st [t1; t2]) t3
               = (true, st [t1; t2; t3])).
  { unfold ModelLimiter.try_acquire, ModelLimiter._clean_old_requests,
      ModelLimiter.below_limits, st.
    cbn [ModelLimiter.rpm ModelLimiter.rpd ModelLimiter.minute_window
         ModelLimiter.day_window ModelLimiter.minute_requests
         ModelLimiter.day_requests].
    rewrite !P by lra. simpl.
    now rewrite L by (unfold ModelLimiter.len; simpl; lia). }
  assert (S4 : ModelLimiter.try_acquire (st [t1; t2; t3]) t4
               = (false, st [t1; t2; t3])).
  { unfold ModelLimiter.try_acquire, ModelLimiter._clean_old_requests,
      ModelLimiter.below_limits, st.
    cbn [ModelLimiter.rpm ModelLimiter.rpd ModelLimiter.minute_window
         ModelLimiter.day_window ModelLimiter.minute_requests
         ModelLimiter.day_requests].
    rewrite !P by lra. reflexivity. }
  unfold ModelLimiter.state_after, ModelLimiter.init.
  change (ModelLimiter.mk 3 rpd 60 86400 [] []) with (st []).
  cbn [ModelLimiter.outcomes ModelLimiter.run].
  rewrite S1, S2, S3, S4. split; auto.
  unfold ModelLimiter.get_wait_time, ModelLimiter.window_wait, st. simpl.
  assert ((ModelLimiter.len [t1; t2; t3] >=? rpd)%Z = false) as ->; auto.
  rewrite Z.geb_leb. apply Z.leb_gt. unfold ModelLimiter.len. simpl. lia.
Qed.

(** C7. On every state a limiter with positive limits reaches under a
    monotone clock, and at every instant [now] not before its last call,
    [get_wait_time] returns the larger of two waits, one per window: the
    time until the oldest entry of the window ages out when that window
    is saturated, and 0 when it is not.  So it returns 0 when neither
    window is saturated.  After four calls on a fresh limiter with
    [rpm = 3] and [rpd > 3] the first three are granted, the fourth is
    denied, and the wait time, read before the first grant is a minute
    old, is above 0 and at most 60. *)
Theorem get_wait_time_per_saturated_window
  (rpm rpd : Z) (clock : list Q) (now : Q) :
  (0 < rpm)%Z -> (0 < rpd)%Z ->
  ModelLimiter.monotone (clock ++ [now]) = true ->
  exists wait,
    ModelLimiter.get_wait_time (ModelLimiter.state_after rpm rpd clock) now
    = Ok wait
    /\ wait == ModelLimiter.wait_time_per_window
                 (ModelLimiter.grants rpm rpd clock) rpm rpd now
    /\ (ModelLimiter.saturated
          (ModelLimiter.grants rpm rpd clock) now 60 rpm = false ->
        ModelLimiter.saturated
          (ModelLimiter.grants rpm rpd clock) now 86400 rpd = false ->
        wait == 0)
    /\ (forall t1 t2 t3 t4,
          clock = [t1; t2; t3; t4] -> rpm = 3%Z -> (3 < rpd)%Z ->
          now - t1 < 60 ->
          ModelLimiter.outcomes (ModelLimiter.init rpm rpd) clock
          = [true; true; true; false]
          /\ 0 < wait /\ wait <= 60).
Proof.
  intros Hm Hd Hmono.
  destruct (@get_wait_time_spec rpm rpd clock now Hm Hd Hmono)
    as (wait & Hget & Hwait).
  exists wait. split; [exact Hget|]. split; [exact Hwait|]. split.
  - intros Hminute Hday. rewrite Hwait.
    unfold ModelLimiter.wait_time_per_window.
    rewrite Hminute, Hday. reflexivity.
  - intros t1 t2 t3 t4 -> -> Hrpd Hnow.
    destruct (@four_calls_scenario rpd t1 t2 t3 t4 now Hrpd Hmono Hnow)
      as [Hout Hw].
    split; [exact Hout|].
    rewrite Hw in Hget. injection Hget as <-.
    simpl in Hmono. rewrite !andb_true_iff, !Qle_bool_iff in Hmono.
    split.
    + apply Qlt_le_trans with (60 - (now - t1)); [lra|].
      eapply Qle_trans; [|apply Q.le_max_l]. apply Q.le_max_r.
    + repeat apply Q.max_lub; lra.
Qed.

Lemma get_wait_time_per_saturated_window_witness :
  exists wait,
    ModelLimiter.get_wait_time
      (ModelLimiter.state_after 3 30 [0; 1 # 4; 1 # 2; 3 # 4]) 1
    = Ok wait
    /\ wait == ModelLimiter.wait_time_per_window
                 (ModelLimiter.grants 3 30 [0; 1 # 4; 1 # 2; 3 # 4]) 3 30 1
    /\ (ModelLimiter.saturated
          (ModelLimiter.grants 3 30 [0; 1 # 4; 1 # 2; 3 # 4]) 1 60 3 = false ->
        ModelLimiter.saturated
          (ModelLimiter.grants 3 30 [0; 1 # 4; 1 # 2; 3 # 4]) 1 86400 30
        = false ->
        wait == 0)
    /\ (forall t1 t2 t3 t4,
          [0; 1 # 4; 1 # 2; 3 # 4] = [t1; t2; t3; t4] ->
          3%Z = 3%Z -> (3 < 30)%Z ->
          1 - t1 < 60 ->
          ModelLimiter.outcomes (ModelLimiter.init 3 30)
                                [0; 1 # 4; 1 # 2; 3 # 4]
          = [true; true; true; false]
          /\ 0 < wait /\ wait <= 60).
Proof.
  apply (@get_wait_time_per_saturated_window
           3 30 [0; 1 # 4; 1 # 2; 3 # 4] 1); [lia | lia | reflexivity].
Defined.

(** Where the wording of the specification and the code part: with
    [rpm = 3] and [rpd = 2], grants at 0 and 86399 and a look at 86399,
    the day window is saturated and the minute window is not.  The code
    waits the second the day window needs; the wording also counts the
    minute the young entry of the minute window needs to age out. *)
Lemma wait_time_wording_counterexample :
  ModelLimiter.monotone ([0; 86399] ++ [86399]) = true
  /\ ModelLimiter.saturated
       (ModelLimiter.grants 3 2 [0; 86399]) 86399 86400 2 = true
  /\ ModelLimiter.get_wait_time
       (ModelLimiter.state_after 3 2 [0; 86399]) 86399 = Ok 1
  /\ ModelLimiter.wait_time_as_worded
       (ModelLimiter.grants 3 2 [0; 86399]) 3 2 86399 = 60.
Proof.
  vm_compute. repeat split; reflexivity.
Qed.

(** ** The two tiers *)

(** [RateLimiter.try_acquire] by the answers of the two tiers. *)
Lemma dual_tier_cases (self : RateLimiter.t) (now later : Q) :
  let current := RateLimiter._current_model self in
  let other_model := RateLimiter.other current in
  let first := ModelLimiter.try_acquire
                 (RateLimiter.limiter self current) now in
  let second := ModelLimiter.try_acquire
                  (RateLimiter.limiter self other_model) later in
  let answer := RateLimiter.try_acquire self now later in
  (fst first = true ->
   fst answer = true
   /\ RateLimiter._current_model (snd answer) = current
   /\ RateLimiter.limiter (snd answer) current = snd first
   /\ RateLimiter.limiter (snd answer) other_model
      = RateLimiter.limiter self other_model)
  /\ (fst first = false -> fst second = true ->
      fst answer = true
      /\ RateLimiter._current_model (snd answer) = other_model
      /\ RateLimiter.limiter (snd answer) other_model = snd second
      /\ RateLimiter.limiter (snd answer) current = snd first)
  /\ (fst first = false -> fst second = false ->
      fst answer = false
      /\ RateLimiter._current_model (snd answer) = current
      /\ RateLimiter.limiter (snd answer) other_model = snd second
      /\ RateLimiter.limiter (snd answer) current = snd first).
Proof.
  destruct self as [pro flash current]. unfold RateLimiter.try_acquire.
  destruct current; cbn [RateLimiter._current_model RateLimiter.other
                         RateLimiter.limiter RateLimiter.with_limiter
                         RateLimiter.pro RateLimiter.flash];
    destruct (ModelLimiter.try_acquire pro _) as [[|] pro'];
    destruct (ModelLimiter.try_acquire flash _) as [[|] flash'];
    cbn; intuition congruence.
Qed.

Lemma try_acquire_granted_state (self : ModelLimiter.t) (now : Q) :
  fst (ModelLimiter.try_acquire self now) = true ->
  snd (ModelLimiter.try_acquire self now)
  = ModelLimiter.record_request
      (ModelLimiter._clean_old_requests self now) now.
Proof.
  unfold ModelLimiter.try_acquire.
  now destruct (ModelLimiter.below_limits _).
Qed.

Lemma assemble_parts current current_tier other_tier :
  RateLimiter._current_model
    (RateLimiter.assemble current current_tier other_tier) = current
  /\ RateLimiter.limiter
       (RateLimiter.assemble current current_tier other_tier) current
     = current_tier
  /\ RateLimiter.limiter
       (RateLimiter.assemble current current_tier other_tier)
       (RateLimiter.other current)
     = other_tier.
Proof.
  destruct current; auto.
Qed.

(** C2. On a dual-tier limiter whose tiers were reached under monotone
    clocks, [try_acquire] grants exactly when the current tier has spare
    capacity at its reading [now] of the clock or the other tier has
    spare capacity at its reading [later].  When the current tier has
    spare capacity it records the request, the pointer stays and the
    other tier is untouched; when only the other tier has, that tier
    records the request and the pointer moves to it; when neither has,
    the call is denied and the pointer stays.  The pointer moves in no
    other case. *)
Theorem dual_tier_try_acquire
  (rpm_c rpd_c rpm_o rpd_o : Z) (clock_c clock_o : list Q)
  (current : RateLimiter.ModelType) (now later : Q) :
  (0 <= rpm_c)%Z -> (0 <= rpd_c)%Z -> (0 <= rpm_o)%Z -> (0 <= rpd_o)%Z ->
  ModelLimiter.monotone (clock_c ++ [now]) = true ->
  ModelLimiter.monotone (clock_o ++ [later]) = true ->
  let current_tier := ModelLimiter.state_after rpm_c rpd_c clock_c in
  let other_tier := ModelLimiter.state_after rpm_o rpd_o clock_o in
  let other_model := RateLimiter.other current in
  let self := RateLimiter.assemble current current_tier other_tier in
  let spare_current :=
    ModelLimiter.has_spare_capacity
      (ModelLimiter.grants rpm_c rpd_c clock_c) rpm_c rpd_c now in
  let spare_other :=
    ModelLimiter.has_spare_capacity
      (ModelLimiter.grants rpm_o rpd_o clock_o) rpm_o rpd_o later in
  let answer := RateLimiter.try_acquire self now later in
  let pointer := RateLimiter._current_model (snd answer) in
  (fst answer = true <-> spare_current = true \/ spare_other = true)
  /\ (spare_current = true ->
      fst answer = true /\ pointer = current
      /\ RateLimiter.limiter (snd answer) current
         = ModelLimiter.record_request
             (ModelLimiter._clean_old_requests current_tier now) now
      /\ RateLimiter.limiter (snd answer) other_model = other_tier)
  /\ (spare_current = false -> spare_other = true ->
      fst answer = true /\ pointer = other_model
      /\ RateLimiter.limiter (snd answer) other_model
         = ModelLimiter.record_request
             (ModelLimiter._clean_old_requests other_tier later) later)
  /\ (spare_current = false -> spare_other = false ->
      fst answer = false /\ pointer = current)
  /\ (pointer = other_model ->
      spare_current = false /\ spare_other = true).
Proof.
  intros Hmc Hdc Hmo Hdo Hcc Hco. cbv zeta.
  set (current_tier := ModelLimiter.state_after rpm_c rpd_c clock_c).
  set (other_tier := ModelLimiter.state_after rpm_o rpd_o clock_o).
  set (self := RateLimiter.assemble current current_tier other_tier).
  rewrite <- (@try_acquire_grants_iff_spare_reachable
                _ _ clock_c now Hmc Hdc Hcc).
  rewrite <- (@try_acquire_grants_iff_spare_reachable
                _ _ clock_o later Hmo Hdo Hco).
  fold current_tier other_tier.
  destruct (assemble_parts current current_tier other_tier)
    as (Hp & Hc & Ho). fold self in Hp, Hc, Ho.
  pose proof (dual_tier_cases self now later) as Hcases.
  cbv zeta in Hcases. rewrite Hp, Hc, Ho in Hcases.
  pose proof (try_acquire_granted_state current_tier now) as Hgc.
  pose proof (try_acquire_granted_state other_tier later) as Hgo.
  destruct (ModelLimiter.try_acquire current_tier now) as [[|] tier_c];
    destruct (ModelLimiter.try_acquire other_tier later) as [[|] tier_o];
    cbn [fst snd] in *;
    destruct Hcases as (H1 & H2 & H3);
    repeat match goal with
           | H : true = true -> _ |- _ => specialize (H eq_refl)
           | H : false = false -> _ |- _ => specialize (H eq_refl)
           | H : true = false -> _ |- _ => clear H
           | H : false = true -> _ |- _ => clear H
           end.
  all: destruct current; cbn [RateLimiter.other] in *;
    intuition (try congruence).
Qed.

Lemma dual_tier_try_acquire_witness :
  fst (RateLimiter.try_acquire
         (RateLimiter.assemble RateLimiter.PRO
            (ModelLimiter.state_after 3 30 [0; 1; 2])
            (ModelLimiter.state_after 5 50 [])) 3 3) = true
  /\ RateLimiter._current_model
       (snd (RateLimiter.try_acquire
               (RateLimiter.assemble RateLimiter.PRO
                  (ModelLimiter.state_after 3 30 [0; 1; 2])
                  (ModelLimiter.state_after 5 50 [])) 3 3))
     = RateLimiter.FLASH.
Proof.
  pose proof (@dual_tier_try_acquire 3 30 5 50 [0; 1; 2] []
                RateLimiter.PRO 3 3) as H.
  cbv zeta in H.
  destruct H as (_ & _ & H & _);
    [lia | lia | lia | lia | reflexivity | reflexivity |].
  destruct H as (H1 & H2 & _); [reflexivity | reflexivity |].
  split; [exact H1 | exact H2].
Defined.

(** ** The cache *)

Section Cache.

Import CacheManager.

Variable V : Type.

Implicit Types (d room : ordered_dict V) (self : t V) (key : string).

Lemma lookup_app_none key d1 d2 :
  lookup key d1 = None -> lookup key (d1 ++ d2) = lookup key d2.
Proof.
  induction d1 as [|[k b] d1 IH]; simpl; auto.
  destruct (String.eqb key k); [discriminate|auto].
Qed.

Lemma lookup_delete key d : lookup key (delete key d) = None.
Proof.
  induction d as [|[k b] d IH]; simpl; auto.
  destruct (String.eqb key k) eqn:E; simpl; auto. now rewrite E.
Qed.

Lemma lookup_assign key (bound : V * Q) d :
  lookup key (assign key bound d) = Some bound.
Proof.
  induction d as [|[k b] d IH]; simpl.
  - now rewrite String.eqb_refl.
  - destruct (String.eqb key k) eqn:E; simpl; now rewrite E.
Qed.

Lemma delete_assign key (bound : V * Q) d :
  delete key (assign key bound d) = delete key d.
Proof.
  induction d as [|[k b] d IH]; simpl.
  - now rewrite String.eqb_refl.
  - destruct (String.eqb key k) eqn:E; simpl; rewrite E; simpl; auto.
    now rewrite IH.
Qed.

(** The last two statements of [set]: the binding ends up last. *)
Lemma move_to_end_assign key (bound : V * Q) d :
  move_to_end key (assign key bound d) = delete key d ++ [(key, bound)].
Proof.
  unfold move_to_end. now rewrite lookup_assign, delete_assign.
Qed.

Lemma lookup_last key (bound : V * Q) d :
  lookup key (delete key d ++ [(key, bound)]) = Some bound.
Proof.
  rewrite lookup_app_none by apply lookup_delete.
  simpl. now rewrite String.eqb_refl.
Qed.

(** What the eviction loop leaves: a tail of the dictionary that is
    under capacity; it raises only when the capacity is not positive. *)
Lemma evict_spec (capacity : Z) d :
  match evict capacity d with
  | Ok room =>
      exists evicted,
        d = evicted ++ room
        /\ (size room < capacity)%Z
        /\ (evicted <> [] -> (size d >= capacity)%Z)
  | Raise _ => (capacity <= 0)%Z
  end.
Proof.
  induction d as [|binding rest IH].
  - simpl. rewrite Z.geb_leb. destruct (capacity <=? 0)%Z eqn:E.
    + now apply Z.leb_le.
    + apply Z.leb_gt in E. exists []. repeat split; auto. congruence.
  - cbn [evict]. rewrite Z.geb_leb.
    destruct (capacity <=? size (binding :: rest))%Z eqn:E.
    + apply Z.leb_le in E.
      destruct (evict capacity rest) as [room|e]; auto.
      destruct IH as (evicted & Hd & Hroom & _).
      exists (binding :: evicted). repeat split; auto.
      * simpl. now rewrite <- Hd.
      * intros _. lia.
    + apply Z.leb_gt in E. exists []. repeat split; auto. congruence.
Qed.

(** The eviction loop stops as soon as there is room: it leaves as many
    bindings as there were, or one fewer than the capacity. *)
Lemma evict_minimal (capacity : Z) d room :
  evict capacity d = Ok room ->
  size room = Z.min (size d) (capacity - 1).
Proof.
  induction d as [|binding rest IH]; cbn [evict]; rewrite Z.geb_leb.
  - destruct (capacity <=? 0)%Z eqn:E; [discriminate|].
    apply Z.leb_gt in E. intros [= <-]. unfold size. simpl. lia.
  - destruct (capacity <=? size (binding :: rest))%Z eqn:E.
    + apply Z.leb_le in E. intros H. rewrite (IH H).
      unfold size in *. simpl List.length in *. lia.
    + apply Z.leb_gt in E. intros [= <-]. lia.
Qed.

Lemma evict_total (capacity : Z) d :
  (1 <= capacity)%Z -> exists room, evict capacity d = Ok room.
Proof.
  intros Hc. pose proof (evict_spec capacity d) as H.
  destruct (evict capacity d) as [room|e]; [eauto|lia].
Qed.

(** What [set] leaves on an enabled cache of capacity at least one. *)
Lemma set_stores self key (value : V) (now : Q) :
  enabled self = true ->
  (1 <= max_items self)%Z ->
  exists room,
    set self key value now
    = (Ok tt, with_cache self (delete key room ++ [(key, (value, now))]))
    /\ lookup key (delete key room ++ [(key, (value, now))])
       = Some (value, now).
Proof.
  intros Hen Hcap.
  destruct (evict_total (_cache self) Hcap) as (room & Hroom).
  exists room. unfold set. rewrite Hen, Hroom. simpl negb. cbv iota.
  rewrite move_to_end_assign. split; [reflexivity|apply lookup_last].
Qed.


(** C3. On an enabled cache of capacity at least one, [set(key, value)]
    stores the value; a [get(key)] that follows it no more than
    [timeout] seconds later returns the value, and one that follows more
    than [timeout] seconds later returns nothing and leaves no entry for
    the key.  On every enabled cache a [get] of a key whose entry is
    more than [timeout] seconds old returns nothing and deletes it. *)
Theorem set_then_get self key (value : V) (t0 t1 : Q) :
  enabled self = true ->
  (1 <= max_items self)%Z ->
  exists stored,
    set self key value t0 = (Ok tt, stored)
    /\ (t1 - t0 <= inject_Z (timeout self) ->
        fst (get stored key t1) = Some value)
    /\ (inject_Z (timeout self) < t1 - t0 ->
        fst (get stored key t1) = None
        /\ lookup key (_cache (snd (get stored key t1))) = None)
    /\ (forall held (old : V) (written : Q),
          enabled held = true ->
          lookup key (_cache held) = Some (old, written) ->
          inject_Z (timeout held) < t1 - written ->
          fst (get held key t1) = None
          /\ _cache (snd (get held key t1)) = delete key (_cache held)
          /\ lookup key (_cache (snd (get held key t1))) = None).
Proof.
  intros Hen Hcap.
  assert (Hexpired : forall held (old : V) (written : Q),
            enabled held = true ->
            lookup key (_cache held) = Some (old, written) ->
            inject_Z (timeout held) < t1 - written ->
            fst (get held key t1) = None
            /\ _cache (snd (get held key t1)) = delete key (_cache held)
            /\ lookup key (_cache (snd (get held key t1))) = None).
  { intros held old written He Hl Hlate. unfold get.
    rewrite He, Hl. simpl negb. cbv iota.
    rewrite Qle_bool_false by exact Hlate. simpl.
    repeat split; auto. apply lookup_delete. }
  destruct (evict_total (_cache self) Hcap) as (room & Hroom).
  unfold set. rewrite Hen, Hroom. simpl negb. cbv iota.
  eexists. split; [reflexivity|].
  rewrite move_to_end_assign.
  set (stored := with_cache self (delete key room ++ [(key, (value, t0))])).
  assert (Hl : lookup key (_cache stored) = Some (value, t0))
    by apply lookup_last.
  split; [|split]; auto.
  - intros Hsoon. unfold get. rewrite Hl.
    change (enabled stored) with (enabled self). rewrite Hen.
    simpl negb. cbv iota.
    change (timeout stored) with (timeout self).
    apply Qle_bool_iff in Hsoon. now rewrite Hsoon.
  - intros Hlate.
    destruct (Hexpired stored value t0 Hen Hl Hlate) as (H1 & _ & H3).
    auto.
Qed.

Lemma sorted_app_inv (A : Type) (R : A -> A -> Prop) (l1 l2 : list A) :
  StronglySorted R (l1 ++ l2) ->
  StronglySorted R l2 /\ (forall a b, In a l1 -> In b l2 -> R a b).
Proof.
  induction l1 as [|x l1 IH]; simpl; intros H.
  - split; auto. intros a b [].
  - inversion H as [|? ? Hs Hall]; subst.
    destruct (IH Hs) as [H2 Hcross]. split; auto.
    intros a b [->|Ha] Hb; auto.
    rewrite Forall_forall in Hall. apply Hall, in_or_app. auto.
Qed.

Lemma sorted_filter (A : Type) (R : A -> A -> Prop) (f : A -> bool)
  (l : list A) :
  StronglySorted R l -> StronglySorted R (filter f l).
Proof.
  induction 1 as [|x l Hs IH Hall]; simpl; [constructor|].
  destruct (f x); auto. constructor; auto.
  rewrite Forall_forall in *. intros y Hy.
  apply filter_In in Hy. apply Hall. tauto.
Qed.

Lemma sorted_add_last (A : Type) (R : A -> A -> Prop) (l : list A) (x : A) :
  StronglySorted R l -> Forall (fun a => R a x) l ->
  StronglySorted R (l ++ [x]).
Proof.
  induction 1 as [|y l Hs IH Hall]; simpl; intros Hx.
  - repeat constructor.
  - inversion Hx; subst. constructor; auto.
    apply Forall_app. split; auto.
Qed.

Lemma delete_other key d :
  Forall (fun b => String.eqb (fst b) key = false) (delete key d).
Proof.
  apply Forall_forall. intros b Hb. apply filter_In in Hb.
  destruct Hb as [_ Hb]. apply negb_true_iff in Hb.
  now rewrite String.eqb_sym.
Qed.

Lemma size_delete key d : (size (delete key d) <= size d)%Z.
Proof.
  unfold size, delete.
  pose proof (filter_length_le
                (fun b : string * (V * Q) => negb (String.eqb key (fst b))) d).
  lia.
Qed.

Lemma size_delete_held key d bound :
  lookup key d = Some bound -> (size (delete key d) < size d)%Z.
Proof.
  unfold size. induction d as [|[k b] d IH]; simpl; [discriminate|].
  destruct (String.eqb key k) eqn:E; simpl.
  - intros _. pose proof (size_delete key d). unfold size, delete in *. lia.
  - intros H. specialize (IH H). lia.
Qed.

(** A binding moved to the end and stamped with the number of the use
    keeps the order of use. *)
Lemma touched_last (last_used : stamps) (n : nat) key (bound : V * Q) d :
  StronglySorted (used_before last_used) d ->
  Forall (fun b => (last_used (fst b) < n)%nat) d ->
  StronglySorted (used_before (touch last_used key n))
                 (delete key d ++ [(key, bound)])
  /\ Forall (fun b => (touch last_used key n (fst b) < S n)%nat)
            (delete key d ++ [(key, bound)]).
Proof.
  intros Hs Hpast.
  pose proof (delete_other key d) as Hother.
  assert (Hpast' : Forall (fun b => (last_used (fst b) < n)%nat)
                          (delete key d)).
  { rewrite Forall_forall in *. intros b Hb. apply Hpast.
    apply filter_In in Hb. tauto. }
  assert (Hs' : StronglySorted (used_before last_used) (delete key d))
    by now apply sorted_filter.
  split.
  - apply sorted_add_last.
    + clear Hpast'. induction Hs' as [|x l Hsl IH Hall]; [constructor|].
      inversion Hother as [|? ? Hx Hl]; subst.
      constructor; auto.
      rewrite Forall_forall in *. intros y Hy.
      specialize (Hall y Hy). specialize (Hl y Hy).
      unfold used_before, touch in *. now rewrite Hx, Hl.
    + rewrite Forall_forall in *. intros b Hb.
      specialize (Hpast' b Hb). specialize (Hother b Hb).
      unfold used_before, touch. simpl.
      now rewrite Hother, String.eqb_refl.
  - apply Forall_app. split.
    + rewrite Forall_forall in *. intros b Hb.
      specialize (Hpast' b Hb). specialize (Hother b Hb).
      unfold touch. rewrite Hother. lia.
    + constructor; auto. unfold touch. simpl.
      rewrite String.eqb_refl. lia.
Qed.

Lemma ordered_by_use_step (capacity : Z) state (u : use V) :
  (0 <= capacity)%Z ->
  ordered_by_use capacity state ->
  ordered_by_use capacity (step state u).
Proof.
  intros Hcap [Hc Hsize Hs Hpast].
  destruct state as [[self last_used] n].
  unfold cache_of, last_used_of in *. simpl in Hc, Hsize, Hs, Hpast.
  assert (Hweak : forall d, Forall (fun b => (last_used (fst b) < n)%nat) d ->
                            Forall (fun b => (last_used (fst b) < S n)%nat) d).
  { intros d Hd. eapply Forall_impl; [|exact Hd]. simpl. intros; lia. }
  destruct u as [key value now|key now]; cbn [step].
  - unfold set. destruct (enabled self) eqn:Hen; simpl negb; cbv iota.
    + pose proof (evict_spec (max_items self) (_cache self)) as Hev.
      destruct (evict (max_items self) (_cache self)) as [room|e].
      * destruct Hev as (evicted & Hd & Hroom & _).
        rewrite move_to_end_assign. rewrite Hd in Hs, Hpast.
        apply sorted_app_inv in Hs. destruct Hs as [Hs _].
        apply Forall_app in Hpast. destruct Hpast as [_ Hpast].
        destruct (touched_last key (value, now) Hs Hpast) as [H1 H2].
        split; unfold cache_of, last_used_of; simpl; auto.
        pose proof (size_delete key room). unfold size in *.
        rewrite length_app. simpl. lia.
      * split; unfold cache_of, last_used_of; simpl; auto;
          first [constructor | unfold size; simpl; lia].
    + split; unfold cache_of, last_used_of; simpl; auto.
  - unfold get. destruct (enabled self) eqn:Hen; simpl negb; cbv iota.
    + destruct (lookup key (_cache self)) as [[value written]|] eqn:Hl.
      * destruct (Qle_bool (now - written) (inject_Z (timeout self))).
        -- unfold move_to_end. rewrite Hl.
           destruct (touched_last key (value, written) Hs Hpast) as [H1 H2].
           split; unfold cache_of, last_used_of; simpl; auto.
           pose proof (size_delete_held _ _ Hl). unfold size in *.
           rewrite length_app. simpl. lia.
        -- split; unfold cache_of, last_used_of; simpl; auto.
           ++ pose proof (size_delete key (_cache self)). lia.
           ++ now apply sorted_filter.
           ++ apply Hweak. rewrite Forall_forall in *. intros b Hb.
              apply Hpast. apply filter_In in Hb. tauto.
      * split; unfold cache_of, last_used_of; simpl; auto.
    + split; unfold cache_of, last_used_of; simpl; auto.
Qed.

Lemma ordered_by_use_run (capacity : Z) (uses : list (use V)) : forall state,
  (0 <= capacity)%Z ->
  ordered_by_use capacity state ->
  ordered_by_use capacity (fold_left (@step V) uses state).
Proof.
  induction uses as [|u uses IH]; intros state Hcap Hinv; simpl; auto.
  apply IH; auto. now apply ordered_by_use_step.
Qed.

Lemma ordered_by_use_reachable (config : Config.t) (uses : list (use V)) :
  (0 <= Config.MAX_CACHE_ITEMS config)%Z ->
  ordered_by_use (Config.MAX_CACHE_ITEMS config) (run config uses).
Proof.
  intros Hcap. apply ordered_by_use_run; auto.
  split; unfold cache_of, last_used_of; simpl; auto; constructor.
Qed.

(** C4. After any sequence of [set] and [get] calls on a fresh cache the
    cache holds at most [max_items] entries.  A [set] that then stores a
    value evicts a front part of the dictionary, every evicted entry was
    used before every entry that is kept, nothing is evicted unless the
    cache was at capacity and nothing beyond what makes room: the front
    part is empty when the cache is below capacity and is the one entry
    used least recently when it is at capacity.  The new entry is the
    last of the dictionary, used after every other entry. *)
Theorem cache_bounded_and_lru (config : Config.t) (uses : list (use V)) :
  (0 <= Config.MAX_CACHE_ITEMS config)%Z ->
  let state := run config uses in
  let self := cache_of state in
  let last_used := last_used_of state in
  (size (_cache self) <= Config.MAX_CACHE_ITEMS config)%Z
  /\ forall key (value : V) (now : Q) stored,
       enabled self = true ->
       set self key value now = (Ok tt, stored) ->
       exists evicted kept,
         _cache self = evicted ++ kept
         /\ (forall e k, In e evicted -> In k kept ->
                         (last_used (fst e) < last_used (fst k))%nat)
         /\ (evicted <> [] -> (size (_cache self) >= max_items self)%Z)
         /\ ((size (_cache self) < max_items self)%Z -> evicted = [])
         /\ (List.length evicted <= 1)%nat
         /\ size kept = Z.min (size (_cache self)) (max_items self - 1)
         /\ _cache stored = delete key kept ++ [(key, (value, now))]
         /\ (size (_cache stored) <= Config.MAX_CACHE_ITEMS config)%Z
         /\ (forall b, In b (delete key kept) ->
                       let after := step state (Set_ key value now) in
                       (last_used_of after (fst b)
                        < last_used_of after key)%nat).
Proof.
  intros Hcap state self last_used.
  pose proof (@ordered_by_use_reachable config uses Hcap) as Hinv.
  fold state in Hinv.
  destruct Hinv as [Hc Hsize Hs Hpast]. fold self in Hc, Hsize, Hs, Hpast.
  fold last_used in Hs, Hpast.
  split; [exact Hsize|].
  intros key value now stored Hen Hset.
  pose proof (@ordered_by_use_step _ state (Set_ key value now) Hcap
                (OrderedByUse state Hc Hsize Hs Hpast)) as Hafter.
  destruct state as [[self0 last_used0] n]. subst self last_used.
  unfold cache_of, last_used_of in *. cbn [fst snd] in *.
  cbn [step] in Hafter |- *. rewrite Hset, Hen in *.
  unfold set in Hset. rewrite Hen in Hset. simpl negb in Hset.
  cbv iota in Hset.
  pose proof (evict_spec (max_items self0) (_cache self0)) as Hev.
  pose proof (@evict_minimal (max_items self0) (_cache self0)) as Hmin.
  destruct (evict (max_items self0) (_cache self0)) as [room|e];
    [|discriminate].
  destruct Hev as (evicted & Hd & Hroom & Hfull).
  specialize (Hmin room eq_refl).
  assert (Hcount : size (_cache self0)
                   = (Z.of_nat (List.length evicted) + size room)%Z).
  { rewrite Hd at 1. unfold size. rewrite length_app. lia. }
  injection Hset as <-. rewrite move_to_end_assign in *.
  destruct Hafter as [_ Hsize' Hs' _]. cbn [fst snd _cache with_cache] in *.
  exists evicted, room. rewrite Hd in Hs.
  apply sorted_app_inv in Hs. destruct Hs as [_ Hcross].
  split; [exact Hd|]. split; [exact Hcross|]. split; [exact Hfull|].
  split.
  { intros Hbelow. destruct evicted as [|e0 evicted]; [reflexivity|].
    simpl List.length in Hcount. lia. }
  split; [lia|]. split; [exact Hmin|]. split; [reflexivity|].
  split; [exact Hsize'|].
  apply sorted_app_inv in Hs'. destruct Hs' as [_ Hlast].
  intros b Hb. specialize (Hlast b (key, (value, now)) Hb (or_introl eq_refl)).
  exact Hlast.
Qed.

End Cache.

Lemma set_then_get_witness :
  exists stored,
    CacheManager.set (CacheManager.init Config.defaults)
                     "k"%string "a"%string 0
    = (Ok tt, stored)
    /\ fst (CacheManager.get stored "k"%string 1) = Some "a"%string.
Proof.
  destruct (@set_then_get string (CacheManager.init Config.defaults)
              "k"%string "a"%string 0 1) as (stored & Hset & Hget & _);
    [reflexivity | simpl; lia |].
  exists stored. split; [exact Hset|].
  apply Hget. vm_compute. discriminate.
Defined.

(** With the cache switched off by [CACHE_ENABLED], [set] stores nothing
    and the [get] that follows returns nothing. *)
Lemma set_then_get_counterexample :
  fst (CacheManager.get
         (snd (CacheManager.set
                 (CacheManager.init (Config.mk 3 30 5 50 false 3600 100))
                 "k"%string "a"%string 0))
         "k"%string 0)
  = None.
Proof.
  reflexivity.
Qed.

Lemma cache_bounded_and_lru_witness :
  (CacheManager.size
     (CacheManager._cache
        (CacheManager.cache_of
           (CacheManager.run (Config.mk 3 30 5 50 true 3600 2)
              [CacheManager.Set_ "a"%string "1"%string 0;
               CacheManager.Get_ "a"%string 1;
               CacheManager.Set_ "b"%string "2"%string 2;
               CacheManager.Set_ "c"%string "3"%string 3]))) <= 2)%Z
  /\ exists evicted kept,
       CacheManager._cache
         (CacheManager.cache_of
            (CacheManager.run (Config.mk 3 30 5 50 true 3600 2)
               [CacheManager.Set_ "a"%string "1"%string 0;
                CacheManager.Get_ "a"%string 1;
                CacheManager.Set_ "b"%string "2"%string 2;
                CacheManager.Set_ "c"%string "3"%string 3]))
       = evicted ++ kept
       /\ (List.length evicted <= 1)%nat
       /\ CacheManager._cache
            (snd (CacheManager.set
                    (CacheManager.cache_of
                       (CacheManager.run (Config.mk 3 30 5 50 true 3600 2)
                          [CacheManager.Set_ "a"%string "1"%string 0;
                           CacheManager.Get_ "a"%string 1;
                           CacheManager.Set_ "b"%string "2"%string 2;
                           CacheManager.Set_ "c"%string "3"%string 3]))
                    "d"%string "4"%string 4))
          = CacheManager.delete "d"%string kept
            ++ [("d"%string, ("4"%string, 4))].
Proof.
  destruct (@cache_bounded_and_lru string (Config.mk 3 30 5 50 true 3600 2)
              [CacheManager.Set_ "a"%string "1"%string 0;
               CacheManager.Get_ "a"%string 1;
               CacheManager.Set_ "b"%string "2"%string 2;
               CacheManager.Set_ "c"%string "3"%string 3])
    as [Hsize Hset]; [simpl; lia|].
  split; [exact Hsize|].
  destruct (Hset "d"%string "4"%string 4 _ eq_refl eq_refl)
    as (evicted & kept & Hd & _ & _ & _ & Hone & _ & Hstored & _).
  exists evicted, kept. split; [exact Hd|]. split; [exact Hone|exact Hstored].
Defined.

(** ** The orchestrator *)

Section Orchestrator.

Import GeminiClient.

Variable env : environment.

Lemma traced_nil w : traced w [] = w.
Proof.
  destruct w. unfold traced. simpl. now rewrite app_nil_r.
Qed.

Lemma web_search_outcome question w :
  exists text added,
    web_search env question w = Some (Ok text, traced w added)
    /\ (added = [] \/ exists url, added = [WebRequest url]).
Proof.
  unfold web_search.
  destruct (negb (Str.truthy _)).
  - eexists. exists []. rewrite traced_nil. split; [reflexivity|auto].
  - set (url := ("https://duckduckgo.com/html/?q=" ++ _)%string).
    unfold bind, emit. fold (traced w [WebRequest url]).
    destruct (web env url) as [message|status_code snippets].
    + do 2 eexists. split; [reflexivity|eauto].
    + destruct (status_code =? 200)%Z.
      * destruct (firstn 3 snippets);
          do 2 eexists; (split; [reflexivity|eauto]).
      * do 2 eexists. split; [reflexivity|eauto].
Qed.

(** *** [wait_for_token] ends *)

Lemma poll_finishes (polls : nat) : forall self (start now : Q),
  (1 <= polls)%nat ->
  (10 - (now - start)) * 10 <= inject_Z (Z.of_nat polls) - 1 ->
  exists granted limiter ended,
    RateLimiter.poll polls self (Some 10) start now
    = Some (granted, limiter, ended).
Proof.
  induction polls as [|polls IH]; intros self start now Hpos Hleft; [lia|].
  cbn [RateLimiter.poll].
  destruct (RateLimiter.try_acquire self now now) as [[|] self'];
    [eauto|].
  unfold RateLimiter.timed_out.
  destruct (Qle_bool 10 (now - start)) eqn:E; [eauto|].
  assert (Helapsed : now - start < 10).
  { apply Qnot_le_lt. intros H. apply Qle_bool_iff in H. congruence. }
  rewrite Nat2Z.inj_succ, <- Z.add_1_r, inject_Z_plus in Hleft.
  change (inject_Z 1) with 1 in Hleft.
  apply IH.
  - destruct polls; [exfalso|lia].
    change (inject_Z (Z.of_nat 0)) with 0 in Hleft. lra.
  - lra.
Qed.

Lemma wait_for_token_runs w :
  exists granted limiter ended,
    wait_for_token w
    = Some (Ok granted,
            mk_world ended w.(cache) limiter w.(history) w.(dispatches)
                     w.(database_calls)
                     (w.(trace) ++ [WaitForToken granted])).
Proof.
  unfold wait_for_token, RateLimiter.wait_for_token.
  destruct (@poll_finishes 101 (rate_limiter w) (clock w) (clock w))
    as (granted & limiter & ended & H).
  - lia.
  - change (inject_Z (Z.of_nat 101)) with 101. lra.
  - rewrite H. eauto.
Qed.

Lemma quiet_readings added :
  Forall quiet added ->
  rhythm added = [] /\ failures added = [] /\ final_errors added = [].
Proof.
  induction 1 as [|e added (H1 & H2 & H3) _ (IH1 & IH2 & IH3)]; auto.
  change (e :: added) with ([e] ++ added).
  unfold rhythm, failures, final_errors in *. rewrite !flat_map_app.
  now rewrite H1, H2, H3, IH1, IH2, IH3.
Qed.

Lemma quietly_ret (A : Type) (a : A) : quietly (ret a).
Proof.
  intros w. exists (Ok a), w, []. rewrite app_nil_r. auto.
Qed.

Lemma quietly_raise (A : Type) (e : exn) : quietly (@raise A e).
Proof.
  intros w. exists (Raise e), w, []. rewrite app_nil_r. auto.
Qed.

Lemma quietly_bind (A B : Type) (m : M A) (k : A -> M B) :
  quietly m -> (forall a, quietly (k a)) -> quietly (bind m k).
Proof.
  intros Hm Hk w. unfold bind.
  destruct (Hm w) as (r & w1 & added1 & -> & Ht1 & Hq1).
  destruct r as [a|e].
  - destruct (Hk a w1) as (r & w2 & added2 & -> & Ht2 & Hq2).
    exists r, w2, (added1 ++ added2). repeat split.
    + now rewrite Ht2, Ht1, app_assoc.
    + now apply Forall_app.
  - now exists (Raise e), w1, added1.
Qed.

Lemma quietly_emit (e : event) : quiet e -> quietly (emit e).
Proof.
  intros He w. unfold emit. do 3 eexists. split; [reflexivity|].
  split; [reflexivity|]. auto.
Qed.

Lemma quietly_cache_set key value : quietly (cache_set key value).
Proof.
  intros w. unfold cache_set.
  destruct (CacheManager.set (cache w) key value (clock w)) as [outcome c].
  do 3 eexists. split; [reflexivity|]. split; [reflexivity|].
  repeat constructor.
Qed.

Lemma quietly_database_call (A : Type) (e : event)
  (done : world -> A * list conversation) :
  quiet e -> quietly (database_call env e done).
Proof.
  intros He w. unfold database_call.
  destruct (database env (database_calls w)).
  - do 3 eexists. split; [reflexivity|]. split; [reflexivity|]. auto.
  - destruct (done w) as [a rows].
    do 3 eexists. split; [reflexivity|]. split; [reflexivity|]. auto.
Qed.

Lemma quietly_get_wait_time : quietly get_wait_time.
Proof.
  intros w. unfold get_wait_time. exists
    (RateLimiter.get_wait_time (rate_limiter w) (clock w)), w, [].
  rewrite app_nil_r. auto.
Qed.

Lemma quietly_generate_content model prompt images :
  quietly (generate_content env model prompt images).
Proof.
  intros w. unfold generate_content.
  destruct (backend env (dispatches w));
    do 3 eexists; (split; [reflexivity|]); (split; [reflexivity|]);
    repeat constructor.
Qed.

Lemma quietly_process_images paths : quietly (_process_images env paths).
Proof.
  induction paths as [|path rest IH]; cbn [_process_images].
  - apply quietly_ret.
  - destruct (image_error env path).
    + apply quietly_bind; auto. apply quietly_emit. repeat constructor.
    + apply quietly_bind; auto. intros. apply quietly_ret.
Qed.

Lemma quietly_save_temp_response text :
  quietly (_save_temp_response env text).
Proof.
  unfold _save_temp_response. apply quietly_bind.
  - apply quietly_emit. repeat constructor.
  - intros _. destruct (save_error env text).
    + apply quietly_bind; [|intros; apply quietly_ret].
      apply quietly_emit. repeat constructor.
    + apply quietly_ret.
Qed.

(** One turn of the loop checks admission once, first, and is quiet
    after that. *)
Lemma attempt_runs question image_paths cache_key w :
  exists r w' granted added,
    attempt env question image_paths cache_key w = Some (r, w')
    /\ w'.(trace) = w.(trace) ++ WaitForToken granted :: added
    /\ Forall quiet added.
Proof.
  unfold attempt. unfold bind at 1.
  destruct (wait_for_token_runs w) as (granted & limiter & ended & ->).
  set (w1 := mk_world _ _ _ _ _ _ _).
  assert (Hrest : forall m : M string, quietly m ->
            exists r w' granted0 added,
              m w1 = Some (r, w')
              /\ trace w' = trace w ++ WaitForToken granted0 :: added
              /\ Forall quiet added).
  { intros m Hm. destruct (Hm w1) as (r & w' & added & Hrun & Ht & Hq).
    exists r, w', granted, added. repeat split; auto.
    rewrite Ht. unfold w1. simpl. now rewrite <- app_assoc. }
  apply Hrest. destruct granted; simpl negb; cbv iota.
  - apply quietly_bind.
    + apply quietly_database_call. repeat constructor.
    + intros historico. apply quietly_bind.
      * destruct (attached image_paths).
        -- apply quietly_generate_content.
        -- apply quietly_bind; [apply quietly_process_images|].
           intros. apply quietly_generate_content.
      * intros [text flagged]. destruct (Str.truthy text).
        -- apply quietly_bind; [apply quietly_cache_set|intros _].
           apply quietly_bind;
             [apply quietly_database_call; repeat constructor|intros _].
           apply quietly_bind;
             [apply quietly_save_temp_response|intros _].
           apply quietly_ret.
        -- destruct flagged; apply quietly_ret.
  - apply quietly_bind; [apply quietly_get_wait_time|].
    intros. apply quietly_ret.
Qed.

(** *** The retry loop *)

Lemma readings_of_turn granted added rest :
  Forall quiet added ->
  rhythm (WaitForToken granted :: added ++ rest) = None :: rhythm rest
  /\ failures (WaitForToken granted :: added ++ rest) = failures rest
  /\ final_errors (WaitForToken granted :: added ++ rest)
     = final_errors rest.
Proof.
  intros Hq. apply quiet_readings in Hq. destruct Hq as (Hr & Hf & He).
  change (WaitForToken granted :: added ++ rest)
    with ([WaitForToken granted] ++ added ++ rest).
  unfold rhythm, failures, final_errors in *.
  rewrite !flat_map_app, Hr, Hf, He. auto.
Qed.

Lemma retry_loop_runs question image_paths cache_key (max_retries : Z)
  (remaining : nat) : forall (retries : Z) last_error w,
  (remaining <> O -> max_retries = (retries + Z.of_nat remaining)%Z) ->
  exists text w' added,
    retry_loop env question image_paths cache_key max_retries
               remaining retries last_error w
    = Some (Ok text, w')
    /\ w'.(trace) = w.(trace) ++ added
    /\ (List.length (failures added) <= remaining)%nat
    /\ rhythm added
       = rhythm_from retries (turns (List.length (failures added)) remaining)
    /\ (List.length (failures added) = remaining ->
        text = error_msg
        /\ final_errors added
           = [last_error_after last_error (failures added)])
    /\ ((List.length (failures added) < remaining)%nat ->
        final_errors added = []).
Proof.
  induction remaining as [|n IH]; intros retries last_error w Hmax.
  - cbn [retry_loop]. unfold bind, emit, ret.
    do 3 eexists. split; [reflexivity|]. split; [reflexivity|].
    simpl. repeat split; auto. lia.
  - cbn [retry_loop]. unfold try_except.
    destruct (attempt_runs question image_paths cache_key w)
      as (r & w1 & granted & added1 & -> & Ht1 & Hq1).
    destruct r as [text|e].
    + exists text, w1, (WaitForToken granted :: added1 ++ []).
      destruct (readings_of_turn granted [] Hq1) as (-> & -> & ->).
      split; [reflexivity|]. split; [now rewrite app_nil_r|].
      simpl. repeat split; auto; try lia; try discriminate.
    + specialize (Hmax (Nat.neq_succ_0 n)).
      set (message := str_of_exn e).
      unfold bind at 1. unfold emit at 1.
      set (w2 := mk_world _ _ _ _ _ _ (trace w1 ++ [PrintQueryError message])).
      unfold bind at 1.
      destruct n as [|n'].
      * assert ((retries + 1 <? max_retries)%Z = false) as ->
          by (apply Z.ltb_ge; lia).
        unfold ret at 1.
        destruct (IH (retries + 1)%Z (Some message) w2)
          as (text & w' & added2 & -> & Ht2 & Hlen2 & Hr2 & Hfin2 & _);
          [congruence|].
        assert (Hf2 : failures added2 = [])
          by (destruct (failures added2); [auto|simpl in Hlen2; lia]).
        rewrite Hf2 in *. destruct (Hfin2 eq_refl) as [-> He2].
        exists error_msg, w',
          (WaitForToken granted
           :: added1 ++ PrintQueryError message :: added2).
        split; [reflexivity|]. split.
        { rewrite Ht2. unfold w2. simpl. rewrite Ht1.
          now rewrite <- !app_assoc. }
        destruct (readings_of_turn granted
                    (PrintQueryError message :: added2) Hq1)
          as (-> & -> & ->).
        change (failures (PrintQueryError message :: added2))
          with (message :: failures added2).
        change (rhythm (PrintQueryError message :: added2))
          with (rhythm added2).
        change (final_errors (PrintQueryError message :: added2))
          with (final_errors added2).
        rewrite Hf2, Hr2, He2. simpl. repeat split; auto. lia.
      * assert ((retries + 1 <? max_retries)%Z = true) as ->
          by (apply Z.ltb_lt; lia).
        unfold bind at 1. unfold emit at 1. unfold bind at 1.
        unfold emit at 1. unfold sleep.
        set (w3 := mk_world _ _ _ _ _ _ _).
        destruct (IH (retries + 1)%Z (Some message) w3)
          as (text & w' & added2 & -> & Ht2 & Hlen2 & Hr2 & Hfin2 & Hopen2);
          [intros _; lia|].
        set (rest := PrintQueryError message
                     :: PrintRetry (retries + 1) max_retries
                     :: Backoff (2 ^ (retries + 1)) :: added2).
        exists text, w', (WaitForToken granted :: added1 ++ rest).
        split; [reflexivity|]. split.
        { rewrite Ht2. unfold w3, w2, rest. simpl. rewrite Ht1.
          now rewrite <- !app_assoc. }
        destruct (readings_of_turn granted rest Hq1) as (-> & -> & ->).
        change (failures rest) with (message :: failures added2).
        change (rhythm rest)
          with (Some (2 ^ (retries + 1))%Z :: rhythm added2).
        change (final_errors rest) with (final_errors added2).
        cbn [List.length].
        set (f2 := List.length (failures added2)) in *.
        split; [lia|]. split; [|split].
        -- rewrite Hr2. unfold turns.
           destruct (Nat.ltb_spec f2 (S n'));
             destruct (Nat.ltb_spec (S f2) (S (S n'))); try lia.
           ++ reflexivity.
           ++ destruct f2; [lia|]. reflexivity.
        -- intros Hall. destruct Hfin2 as [-> He2]; [lia|].
           split; auto. rewrite He2. unfold last_error_after.
           cbn [map]. now rewrite last_cons.
        -- intros Hsome. apply Hopen2. lia.
Qed.

(** *** [send_query] by its paths *)

Lemma send_query_cached question image_paths max_retries w cached :
  searches_web question = false ->
  cached_answer w (_generate_cache_key env question image_paths)
  = Some cached ->
  send_query env question image_paths max_retries w
  = (add_conversation env question cached image_paths
       (_extract_tags env (question ++ " " ++ cached)%string) ;;
     ret cached)
      (after_get w (_generate_cache_key env question image_paths)).
Proof.
  intros Hweb Hhit. unfold send_query. rewrite Hweb.
  unfold bind at 1. unfold cache_get, cached_answer, after_get in *.
  destruct (CacheManager.get _ _ _) as [[[|c rest]|] changed];
    simpl in Hhit; try discriminate.
  now injection Hhit as <-.
Qed.

Lemma send_query_missed question image_paths max_retries w :
  searches_web question = false ->
  cached_answer w (_generate_cache_key env question image_paths) = None ->
  send_query env question image_paths max_retries w
  = retry_loop env question image_paths
      (_generate_cache_key env question image_paths) max_retries
      (Z.to_nat max_retries) 0 None
      (after_get w (_generate_cache_key env question image_paths)).
Proof.
  intros Hweb Hmiss. unfold send_query. rewrite Hweb.
  unfold bind at 1. unfold cache_get, cached_answer, after_get in *.
  destruct (CacheManager.get _ _ _) as [[[|c rest]|] changed];
    simpl in Hmiss; try discriminate; reflexivity.
Qed.

(** The retry loop as [send_query] enters it. *)
Lemma missed_query_runs question image_paths (max_retries : Z) w :
  searches_web question = false ->
  cached_answer w (_generate_cache_key env question image_paths) = None ->
  exists text w' added,
    send_query env question image_paths max_retries w = Some (Ok text, w')
    /\ w'.(trace)
       = w.(trace)
         ++ CacheGet (_generate_cache_key env question image_paths) :: added
    /\ (List.length (failures added) <= Z.to_nat max_retries)%nat
    /\ rhythm added
       = expected_rhythm
           (turns (List.length (failures added)) (Z.to_nat max_retries))
    /\ (List.length (failures added) = Z.to_nat max_retries ->
        text = error_msg
        /\ final_errors added = [last_error_after None (failures added)])
    /\ ((List.length (failures added) < Z.to_nat max_retries)%nat ->
        final_errors added = []).
Proof.
  intros Hweb Hmiss. rewrite send_query_missed by assumption.
  set (key := _generate_cache_key env question image_paths).
  destruct (@retry_loop_runs question image_paths key max_retries
              (Z.to_nat max_retries) 0 None (after_get w key))
    as (text & w' & added & Hrun & Ht & Hlen & Hr & Hall & Hsome).
  { intros Hpos. rewrite Z2Nat.id; lia. }
  exists text, w', added. split; [exact Hrun|]. split.
  { rewrite Ht. unfold after_get. simpl. now rewrite <- app_assoc. }
  repeat split; auto; now apply Hall.
Qed.

(** *** The cache-hit path *)


Lemma process_images_runs paths w :
  exists added,
    _process_images env paths w = Some (Ok (opened env paths), traced w added).
Proof.
  revert w. induction paths as [|path rest IH]; intros w;
    cbn [_process_images opened filter].
  - exists []. now rewrite traced_nil.
  - destruct (image_error env path) as [message|].
    + unfold bind at 1, emit. cbv beta iota.
      fold (traced w [PrintImageError path message]).
      destruct (IH (traced w [PrintImageError path message]))
        as (added & ->).
      exists (PrintImageError path message :: added).
      unfold traced. simpl. now rewrite <- app_assoc.
    + unfold bind at 1. destruct (IH w) as (added & ->).
      exists added. reflexivity.
Qed.

Lemma bind_ok (A B : Type) (m : M A) (k : A -> M B) w a w' :
  m w = Some (Ok a, w') -> bind m k w = k a w'.
Proof.
  intros H. unfold bind. now rewrite H.
Qed.

Lemma bind_then (A B : Type) (m : M A) (k : A -> M B) w a w'
  (r : result B) (P : world -> Prop) :
  m w = Some (Ok a, w') ->
  (exists w1, k a w' = Some (r, w1) /\ P w1) ->
  exists w1, bind m k w = Some (r, w1) /\ P w1.
Proof.
  intros H. unfold bind. now rewrite H.
Qed.

Lemma wait_for_token_at_once w :
  fst (RateLimiter.try_acquire w.(rate_limiter) w.(clock) w.(clock)) = true ->
  wait_for_token w
  = Some (Ok true,
          mk_world w.(clock) w.(cache)
            (snd (RateLimiter.try_acquire w.(rate_limiter)
                    w.(clock) w.(clock)))
            w.(history) w.(dispatches) w.(database_calls)
            (w.(trace) ++ [WaitForToken true])).
Proof.
  intros Hgrant. unfold wait_for_token, RateLimiter.wait_for_token.
  change 101%nat with (S 100). cbn [RateLimiter.poll].
  destruct (RateLimiter.try_acquire (rate_limiter w) (clock w) (clock w))
    as [granted limiter]. simpl in Hgrant. now subst granted.
Qed.

Lemma database_call_succeeds (A : Type) (e : event)
  (done : world -> A * list conversation) w :
  database env w.(database_calls) = None ->
  database_call env e done w
  = Some (Ok (fst (done w)),
          mk_world w.(clock) w.(cache) w.(rate_limiter) (snd (done w))
                   w.(dispatches) (S w.(database_calls))
                   (w.(trace) ++ [e])).
Proof.
  intros Hdb. unfold database_call. rewrite Hdb. now destruct (done w).
Qed.

Lemma generate_content_replies model prompt images w text flagged :
  backend env w.(dispatches) = BackendReplies text flagged ->
  generate_content env model prompt images w
  = Some (Ok (text, flagged),
          mk_world w.(clock) w.(cache) w.(rate_limiter) w.(history)
                   (S w.(dispatches)) w.(database_calls)
                   (w.(trace) ++ [Dispatch model prompt images])).
Proof.
  intros Hreply. unfold generate_content. now rewrite Hreply.
Qed.

Lemma cache_set_stores key value w outcome stored :
  CacheManager.set w.(cache) key value w.(clock) = (outcome, stored) ->
  cache_set key value w
  = Some (outcome,
          mk_world w.(clock) stored w.(rate_limiter) w.(history)
                   w.(dispatches) w.(database_calls)
                   (w.(trace) ++ [CacheSet key value])).
Proof.
  intros Hset. unfold cache_set. now rewrite Hset.
Qed.

Lemma save_temp_response_runs text w :
  exists saved added,
    _save_temp_response env text w = Some (Ok saved, traced w added).
Proof.
  unfold _save_temp_response, bind, emit.
  destruct (save_error env text) as [message|]; cbv beta iota.
  - exists false, [SaveTemp text; PrintSaveError message].
    unfold ret, traced. simpl. now rewrite <- app_assoc.
  - exists true, [SaveTemp text]. reflexivity.
Qed.

(** The dispatch of a turn: to the text model without images, to the
    vision model with the images that open. *)
Lemma dispatch_replies image_paths prompt w text flagged :
  backend env w.(dispatches) = BackendReplies text flagged ->
  exists added,
    match attached image_paths with
    | [] => generate_content env model_pro prompt []
    | path :: rest =>
        processed_images <- _process_images env (path :: rest) ;;
        generate_content env model_vision prompt processed_images
    end w
    = Some (Ok (text, flagged),
            mk_world w.(clock) w.(cache) w.(rate_limiter) w.(history)
                     (S w.(dispatches)) w.(database_calls)
                     (w.(trace) ++ added)).
Proof.
  intros Hreply. destruct (attached image_paths) as [|path rest].
  - eexists. now apply generate_content_replies.
  - destruct (process_images_runs (path :: rest) w) as (added & Hp).
    erewrite bind_ok by exact Hp.
    erewrite generate_content_replies by exact Hreply.
    eexists. unfold traced. simpl. now rewrite <- app_assoc.
Qed.

(** A turn whose admission is granted at once, whose database
    operations succeed and whose dispatch is answered with a text stores
    the sanitized text under the key and returns it. *)
Lemma turn_succeeds question image_paths key w text flagged :
  CacheManager.enabled w.(cache) = true ->
  (1 <= CacheManager.max_items w.(cache))%Z ->
  fst (RateLimiter.try_acquire w.(rate_limiter) w.(clock) w.(clock)) = true ->
  database env w.(database_calls) = None ->
  database env (S w.(database_calls)) = None ->
  backend env w.(dispatches) = BackendReplies text flagged ->
  Str.truthy text = true ->
  exists w1,
    attempt env question image_paths key w = Some (Ok (sanitize text), w1)
    /\ w1.(clock) = w.(clock)
    /\ w1.(database_calls) = S (S w.(database_calls))
    /\ CacheManager.enabled w1.(cache) = true
    /\ CacheManager.timeout w1.(cache) = CacheManager.timeout w.(cache)
    /\ CacheManager.lookup key (CacheManager._cache w1.(cache))
       = Some (sanitize text, w.(clock)).
Proof.
  intros Hen Hcap Hgrant Hread Hwrite Hreply Htruthy.
  destruct (set_stores (cache w) key (sanitize text) (clock w) Hen Hcap)
    as (room & Hset & Hstored).
  unfold attempt.
  eapply bind_then; [apply wait_for_token_at_once; exact Hgrant|].
  simpl negb. cbv iota. unfold get_recent_conversations.
  eapply bind_then; [apply database_call_succeeds; exact Hread|].
  lazymatch goal with
  | |- exists w1, bind (match _ with
                        | [] => generate_content _ _ ?prompt _
                        | _ :: _ => _
                        end) _ ?w3 = _ /\ _ =>
      destruct (@dispatch_replies image_paths prompt w3 text flagged Hreply)
        as (added & Hd)
  end.
  eapply bind_then; [exact Hd|].
  cbv beta iota. rewrite Htruthy.
  eapply bind_then; [apply cache_set_stores; exact Hset|].
  unfold add_conversation.
  eapply bind_then; [apply database_call_succeeds; exact Hwrite|].
  match goal with
  | |- context [bind (_save_temp_response env ?t) _ ?w3] =>
      destruct (save_temp_response_runs t w3) as (saved & added' & Hs)
  end.
  eapply bind_then; [exact Hs|].
  eexists. split; [reflexivity|]. simpl. auto.
Qed.

Lemma get_keeps_settings (c : CacheManager.t string) key (now : Q) :
  CacheManager.enabled (snd (CacheManager.get c key now))
  = CacheManager.enabled c
  /\ CacheManager.max_items (snd (CacheManager.get c key now))
     = CacheManager.max_items c
  /\ CacheManager.timeout (snd (CacheManager.get c key now))
     = CacheManager.timeout c.
Proof.
  unfold CacheManager.get.
  destruct (negb (CacheManager.enabled c)); auto.
  destruct (CacheManager.lookup key (CacheManager._cache c))
    as [[value written]|]; auto.
  destruct (Qle_bool _ _); auto.
Qed.

(** *** The fingerprint *)

Lemma string_length_append (s1 s2 : string) :
  String.length (s1 ++ s2) = (String.length s1 + String.length s2)%nat.
Proof.
  induction s1 as [|c s1 IH]; simpl; auto.
Qed.




(** C9. [send_query] always ends, and it ends in a text but in one
    case: when the answer comes from the cache and the write to the
    conversation log raises, that exception reaches the caller.  Every
    exception on the path past the cache is caught by the retry loop. *)
Theorem send_query_outcomes question image_paths (max_retries : Z) w :
  exists r w',
    send_query env question image_paths max_retries w = Some (r, w')
    /\ (forall e, r = Raise e ->
        searches_web question = false
        /\ exists cached message,
             cached_answer w (_generate_cache_key env question image_paths)
             = Some cached
             /\ database env w.(database_calls) = Some message
             /\ e = OtherError message)
    /\ (searches_web question = false ->
        forall cached message,
          cached_answer w (_generate_cache_key env question image_paths)
          = Some cached ->
          database env w.(database_calls) = Some message ->
          r = Raise (OtherError message))
    /\ (searches_web question = false ->
        cached_answer w (_generate_cache_key env question image_paths)
        = None ->
        exists text, r = Ok text).
Proof.
  destruct (searches_web question) eqn:Hweb.
  - destruct (web_search_outcome question w) as (text & added & Hrun & _).
    exists (Ok text), (traced w added). unfold send_query. rewrite Hweb.
    split; [exact Hrun|]. split; [|split]; discriminate.
  - destruct (cached_answer w
                (_generate_cache_key env question image_paths))
      as [cached|] eqn:Hhit.
    + rewrite (@send_query_cached question image_paths max_retries w
                 cached Hweb Hhit).
      unfold bind, add_conversation, database_call, after_get.
      cbn [database_calls].
      destruct (database env (database_calls w)) as [message|] eqn:Hdb.
      * do 2 eexists. split; [reflexivity|]. split; [|split].
        -- intros e' He. injection He as <-. split; auto.
           exists cached, message. auto.
        -- intros _ cached' message' Hc Hm. congruence.
        -- intros _ Hnone. discriminate.
      * do 2 eexists. split; [reflexivity|]. split; [|split].
        -- discriminate.
        -- intros _ cached' message' Hc Hm. discriminate.
        -- intros _ Hnone. discriminate.
    + destruct (@missed_query_runs question image_paths max_retries w
                  Hweb Hhit) as (text & w' & added & Hrun & _).
      exists (Ok text), w'. split; [exact Hrun|]. split; [|split].
      * discriminate.
      * intros _ cached' message' Hc Hm. discriminate.
      * intros _ _. eauto.
Qed.

End Orchestrator.

(** C10. For every question whose lowercased text contains one of the
    two web-search phrases, [send_query] returns a text and leaves the
    cache, the rate limiter, the history, the count of dispatches and
    the count of database operations as they were; the only thing it
    may do to the outside is one web request. *)
Theorem web_search_bypasses_core
  (env : GeminiClient.environment) (question : string)
  (image_paths : option (list string)) (max_retries : Z)
  (w : GeminiClient.world) :
  GeminiClient.searches_web question = true ->
  exists text added,
    GeminiClient.send_query env question image_paths max_retries w
    = Some (Ok text,
            GeminiClient.mk_world
              (GeminiClient.clock w) (GeminiClient.cache w)
              (GeminiClient.rate_limiter w) (GeminiClient.history w)
              (GeminiClient.dispatches w) (GeminiClient.database_calls w)
              (GeminiClient.trace w ++ added))
    /\ (added = [] \/ exists url, added = [GeminiClient.WebRequest url]).
Proof.
  intros Hweb. unfold GeminiClient.send_query. rewrite Hweb.
  apply web_search_outcome.
Qed.

(** ** Instances *)

Lemma web_search_bypasses_core_witness :
  exists text added,
    GeminiClient.send_query Samples.third_time_lucky
      "Pesquise na Internet gatos"%string None 3 Samples.fresh
    = Some (Ok text,
            GeminiClient.mk_world
              (GeminiClient.clock Samples.fresh)
              (GeminiClient.cache Samples.fresh)
              (GeminiClient.rate_limiter Samples.fresh)
              (GeminiClient.history Samples.fresh)
              (GeminiClient.dispatches Samples.fresh)
              (GeminiClient.database_calls Samples.fresh)
              (GeminiClient.trace Samples.fresh ++ added))
    /\ (added = [] \/ exists url, added = [GeminiClient.WebRequest url]).
Proof.
  apply (@web_search_bypasses_core Samples.third_time_lucky
           "Pesquise na Internet gatos"%string None 3 Samples.fresh).
  vm_compute. reflexivity.
Defined.

(** The scenario of the specification, run: the backend fails twice and
    answers the third time. *)
Example third_time_lucky_run :
  Samples.outcome
    (GeminiClient.send_query Samples.third_time_lucky
       "What is this?"%string None 3 Samples.fresh)
  = Some (Ok "It is a cat."%string)
  /\ GeminiClient.rhythm
       (Samples.added_to Samples.fresh
          (GeminiClient.send_query Samples.third_time_lucky
             "What is this?"%string None 3 Samples.fresh))
     = [None; Some 2%Z; None; Some 4%Z; None]
  /\ GeminiClient.failures
       (Samples.added_to Samples.fresh
          (GeminiClient.send_query Samples.third_time_lucky
             "What is this?"%string None 3 Samples.fresh))
     = ["503 unavailable"; "deadline exceeded"]%string.
Proof.
  vm_compute. repeat split; reflexivity.
Qed.




(** The database is locked.  A call answered from the cache raises the
    error of the log write to its caller; a call answered by the
    backend three times over fails three times at the log write and
    ends in the generic failure message. *)
Lemma log_failure_counterexample :
  Samples.outcome
    (GeminiClient.send_query Samples.database_locked
       "What is this?"%string None 3
       (Samples.answered Samples.database_locked
          "What is this?"%string "It is a cat."%string))
  = Some (Raise (OtherError "database is locked"%string))
  /\ Samples.outcome
       (GeminiClient.send_query Samples.writes_fail
          "What is this?"%string None 3 Samples.fresh)
     = Some (Ok GeminiClient.error_msg)
  /\ GeminiClient.dispatches
       (Samples.left_by Samples.fresh
          (GeminiClient.send_query Samples.writes_fail
             "What is this?"%string None 3 Samples.fresh))
     = 3%nat
  /\ GeminiClient.failures
       (Samples.added_to Samples.fresh
          (GeminiClient.send_query Samples.writes_fail
             "What is this?"%string None 3 Samples.fresh))
     = ["database is locked"; "database is locked";
        "database is locked"]%string.
Proof.
  vm_compute. repeat split; reflexivity.
Qed.

(** * Further properties *)

(** ** A tier between two grants *)

Section TierBetweenGrants.

Import ModelLimiter.

Lemma purge_purge (window now later : Q) (queue : list Q) :
  now <= later ->
  purge later window (purge now window queue) = purge later window queue.
Proof.
  intros Hle. induction queue as [|oldest rest IH]; auto.
  cbn [purge]. destruct (Qle_bool window (now - oldest)) eqn:E.
  - rewrite IH. apply Qle_bool_iff in E.
    assert (Qle_bool window (later - oldest) = true) as ->; auto.
    apply Qle_bool_iff. lra.
  - reflexivity.
Qed.

Lemma clean_clean (self : t) (now later : Q) :
  now <= later ->
  _clean_old_requests (_clean_old_requests self now) later
  = _clean_old_requests self later.
Proof.
  intros Hle. unfold _clean_old_requests. simpl.
  now rewrite !purge_purge.
Qed.

Lemma denied_state (self : t) (now : Q) :
  fst (try_acquire self now) = false ->
  snd (try_acquire self now) = _clean_old_requests self now.
Proof.
  unfold try_acquire. now destruct (below_limits _).
Qed.

(** X1. A denied call leaves no trace: every later call answers, and leaves
    the limiter, as if the denied call had not been made. *)
Theorem denied_call_leaves_no_trace (self : t) (now later : Q) :
  now <= later ->
  fst (try_acquire self now) = false ->
  try_acquire (snd (try_acquire self now)) later = try_acquire self later.
Proof.
  intros Hle Hdenied. rewrite (denied_state _ _ Hdenied).
  unfold try_acquire. now rewrite clean_clean.
Qed.

Lemma filter_length_mono (A : Type) (f g : A -> bool) (l : list A) :
  Forall (fun a => f a = true -> g a = true) l ->
  (List.length (filter f l) <= List.length (filter g l))%nat.
Proof.
  induction 1 as [|a l Ha _ IH]; simpl; auto.
  destruct (f a) eqn:Ef.
  - rewrite (Ha eq_refl). simpl. lia.
  - destruct (g a); simpl; lia.
Qed.

Lemma filter_length_all (A : Type) (f : A -> bool) (l : list A) :
  (List.length l <= List.length (filter f l))%nat -> filter f l = l.
Proof.
  induction l as [|a l IH]; simpl; auto.
  pose proof (filter_length_le f l) as Hle.
  destruct (f a); simpl; intros H.
  - f_equal. apply IH. lia.
  - lia.
Qed.

(** The wait of one window, as [get_wait_time] computes it at [now], is
    the time after which the window is no longer saturated. *)
Lemma window_opens_after_wait (window : Q) (limit : Z)
  (last now later : Q) (log queue : list Q) :
  (0 < limit)%Z ->
  last <= now -> now <= later ->
  tracked window limit last log queue ->
  let wait := if saturated log now window limit
              then ages_out_in log now window else 0 in
  0 <= wait
  /\ (saturated log later window limit = false <-> now + wait <= later).
Proof.
  intros Hpos Hnow Hlater Ht.
  assert (Hlast : last <= later) by lra.
  pose proof (requests_within_queue Hnow Ht) as Hfn.
  pose proof (requests_within_queue Hlast Ht) as Hfl.
  destruct Ht as [(stale & Hlog & _) Hb Hs Hlen _].
  assert (Hbq : Forall (fun g => g <= last) queue).
  { subst log. apply Forall_app in Hb. tauto. }
  unfold saturated, ages_out_in, oldest_within, requests_within.
  rewrite Hfn, Hfl. clear Hfn Hfl Hlog Hb. unfold len in Hlen.
  rewrite !Z.geb_leb.
  destruct (limit <=? Z.of_nat (List.length
              (filter (in_window now window) queue)))%Z eqn:E.
  - apply Z.leb_le in E.
    pose proof (filter_length_le (in_window now window) queue) as Hfl.
    assert (Hall : filter (in_window now window) queue = queue)
      by (apply filter_length_all; lia).
    rewrite Hall in *.
    destruct queue as [|oldest rest]; [simpl in E; lia|].
    cbn [hd_error].
    assert (Hin : in_window now window oldest = true).
    { simpl in Hall. destruct (in_window now window oldest); auto.
      pose proof (filter_length_le (in_window now window) rest) as Hr.
      apply (f_equal (@List.length Q)) in Hall. simpl in Hall. lia. }
    apply in_window_true in Hin. destruct Hin as [Hin1 Hin2].
    split; [lra|].
    inversion Hs as [|? ? Hs' Hle]; subst.
    inversion Hbq as [|? ? Hbo Hbr]; subst.
    destruct (Qlt_le_dec later (now + (window - (now - oldest))))
      as [Hearly|Hlate].
    + assert (Hstill : filter (in_window later window) (oldest :: rest)
                       = oldest :: rest).
      { apply filter_all. constructor.
        - apply in_window_true. split; lra.
        - rewrite Forall_forall in *. intros g Hg.
          specialize (Hle g Hg). specialize (Hbr g Hg). cbv beta in *.
          apply in_window_true. split; lra. }
      rewrite Hstill.
      assert ((limit <=? Z.of_nat (List.length (oldest :: rest)))%Z = true)
        as -> by (apply Z.leb_le; lia).
      split; [discriminate|]. intros H. lra.
    + assert (Hout : in_window later window oldest = false).
      { apply in_window_false. right. lra. }
      cbn [filter]. rewrite Hout.
      pose proof (filter_length_le (in_window later window) rest) as Hr.
      assert ((limit <=? Z.of_nat (List.length
                 (filter (in_window later window) rest)))%Z = false) as ->.
      { apply Z.leb_gt. simpl List.length in *. lia. }
      split; auto.
  - apply Z.leb_gt in E. split; [lra|].
    assert (Hmono : (List.length (filter (in_window later window) queue)
                     <= List.length (filter (in_window now window) queue))%nat).
    { apply filter_length_mono. rewrite Forall_forall in *.
      intros g Hg Hin. specialize (Hbq g Hg). cbv beta in *.
      apply in_window_true in Hin. apply in_window_true. split; lra. }
    assert ((limit <=? Z.of_nat (List.length
               (filter (in_window later window) queue)))%Z = false) as ->.
    { apply Z.leb_gt. lia. }
    split; auto. intros _. lra.
Qed.

(** A tier grants at [t], not before [now], exactly when its wait time
    at [now] is over. *)
Lemma tier_grants_after_wait (rpm rpd : Z) (clock : list Q) (now : Q) :
  (0 < rpm)%Z -> (0 < rpd)%Z ->
  monotone (clock ++ [now]) = true ->
  exists wait,
    get_wait_time (state_after rpm rpd clock) now = Ok wait
    /\ forall t, now <= t ->
         0 <= wait
         /\ (fst (try_acquire (state_after rpm rpd clock) t) = true
             <-> now + wait <= t).
Proof.
  intros Hm Hd Hmono.
  destruct (@get_wait_time_spec rpm rpd clock now Hm Hd Hmono)
    as (wait & Hget & Hwait).
  destruct (@consistent_at rpm rpd clock now) as (last & Hlast & Hc);
    auto; try lia.
  exists wait. split; [exact Hget|].
  intros t Ht.
  rewrite (@try_acquire_grants_iff_spare rpm rpd last t _ _
             ltac:(lra) Hc).
  destruct Hc as [_ _ _ _ Hmin Hday].
  destruct (window_opens_after_wait Hm Hlast Ht Hmin) as [Hm0 Hmo].
  destruct (window_opens_after_wait Hd Hlast Ht Hday) as [Hd0 Hdo].
  cbv zeta in *. unfold wait_time_per_window in Hwait.
  set (mw := if saturated _ now 60 rpm then _ else 0) in *.
  set (dw := if saturated _ now 86400 rpd then _ else 0) in *.
  unfold has_spare_capacity.
  rewrite andb_true_iff, !negb_true_iff, Hmo, Hdo, Hwait.
  split.
  - eapply Qle_trans; [exact Hm0|apply Q.le_max_l].
  - split.
    + intros [H1 H2]. destruct (Q.max_spec mw dw) as [[_ ->]|[_ ->]]; lra.
    + intros H. pose proof (Q.le_max_l mw dw). pose proof (Q.le_max_r mw dw).
      split; lra.
Qed.

(** X2. The wait time of a tier is the time to its next grant: on a state
    reached under a monotone clock, with positive limits, a call at
    [later], not before [now], is granted exactly when [later] is at
    least [now] plus what [get_wait_time] returns at [now].  So the wait
    time is 0 exactly when a call at [now] would be granted. *)
Theorem wait_time_is_time_to_next_grant
  (rpm rpd : Z) (clock : list Q) (now later : Q) :
  (0 < rpm)%Z -> (0 < rpd)%Z ->
  monotone (clock ++ [now]) = true ->
  now <= later ->
  exists wait,
    get_wait_time (state_after rpm rpd clock) now = Ok wait
    /\ 0 <= wait
    /\ (fst (try_acquire (state_after rpm rpd clock) later) = true
        <-> now + wait <= later)
    /\ (fst (try_acquire (state_after rpm rpd clock) now) = true
        <-> wait == 0).
Proof.
  intros Hm Hd Hmono Hlater.
  destruct (@tier_grants_after_wait rpm rpd clock now Hm Hd Hmono)
    as (wait & Hget & Hgrant).
  exists wait. split; [exact Hget|].
  destruct (Hgrant later Hlater) as [H0 Hl]. split; [exact H0|].
  split; [exact Hl|].
  destruct (Hgrant now (Qle_refl now)) as [_ Hn]. rewrite Hn.
  split; intros H; lra.
Qed.

End TierBetweenGrants.

Lemma denied_call_leaves_no_trace_witness :
  ModelLimiter.try_acquire
    (snd (ModelLimiter.try_acquire
            (ModelLimiter.state_after 3 30 [0; 1; 2]) 3)) 61
  = ModelLimiter.try_acquire (ModelLimiter.state_after 3 30 [0; 1; 2]) 61.
Proof.
  apply (@denied_call_leaves_no_trace
           (ModelLimiter.state_after 3 30 [0; 1; 2]) 3 61).
  - vm_compute. discriminate.
  - reflexivity.
Defined.

Lemma wait_time_is_time_to_next_grant_witness :
  exists wait,
    ModelLimiter.get_wait_time (ModelLimiter.state_after 3 30 [0; 1; 2]) 3
    = Ok wait
    /\ 0 <= wait
    /\ (fst (ModelLimiter.try_acquire
               (ModelLimiter.state_after 3 30 [0; 1; 2]) 60) = true
        <-> 3 + wait <= 60)
    /\ (fst (ModelLimiter.try_acquire
               (ModelLimiter.state_after 3 30 [0; 1; 2]) 3) = true
        <-> wait == 0).
Proof.
  apply (@wait_time_is_time_to_next_grant 3 30 [0; 1; 2] 3 60).
  - lia.
  - lia.
  - reflexivity.
  - vm_compute. discriminate.
Defined.

(** ** The wait time of any tier *)

Section WaitTimeOfAnyTier.

Import ModelLimiter.

Lemma window_wait_cases (queue : list Q) (limit : Z) (window now : Q) :
  (window_wait queue limit window now = Raise IndexError
   /\ (limit <= 0)%Z /\ queue = [])
  \/ (exists wait, window_wait queue limit window now = Ok wait
                   /\ 0 <= wait
                   /\ ~ ((limit <= 0)%Z /\ queue = [])).
Proof.
  unfold window_wait, len.
  destruct (Z.of_nat (List.length queue) >=? limit)%Z eqn:E.
  - destruct queue as [|oldest rest]; simpl in *.
    + left. repeat split; auto. lia.
    + right. eexists. split; [reflexivity|]. split.
      * apply Q.le_max_l.
      * intros [_ H]. discriminate.
  - right. exists 0. split; [reflexivity|]. split; [apply Qle_refl|].
    intros [H ->]. simpl in E. lia.
Qed.

(** X3. The wait time of a tier in any state.  [get_wait_time] raises
    exactly when a limit is not positive and the deque of that limit is
    empty, where [self.minute_requests[0]] or [self.day_requests[0]]
    raises [IndexError]; it raises nothing else, and a wait time it
    returns is not negative. *)
Theorem get_wait_time_raises_on_empty_deque (self : t) (now : Q) :
  (get_wait_time self now = Raise IndexError
   <-> ((rpm self <= 0)%Z /\ minute_requests self = [])
       \/ ((rpd self <= 0)%Z /\ day_requests self = []))
  /\ (forall e, get_wait_time self now = Raise e -> e = IndexError)
  /\ (forall wait, get_wait_time self now = Ok wait -> 0 <= wait).
Proof.
  unfold get_wait_time.
  destruct (window_wait_cases (minute_requests self) (rpm self)
              (minute_window self) now)
    as [(-> & Hm)|(minute_wait & -> & Hmw & Hm)];
    [|destruct (window_wait_cases (day_requests self) (rpd self)
                  (day_window self) now)
        as [(-> & Hd)|(day_wait & -> & Hdw & Hd)]].
  - split; [tauto|]. split; [now intros e [= <-]|discriminate].
  - split; [tauto|]. split; [now intros e [= <-]|discriminate].
  - split; [|split].
    + split; [discriminate|]. tauto.
    + discriminate.
    + intros wait [= <-]. pose proof (Q.le_max_l minute_wait day_wait). lra.
Qed.

End WaitTimeOfAnyTier.

(** ** Waiting for a token *)

Section WaitingForToken.

Lemma dual_denied_cleaned (self : RateLimiter.t) (now : Q) :
  fst (RateLimiter.try_acquire self now now) = false ->
  snd (RateLimiter.try_acquire self now now) = RateLimiter.cleaned self now.
Proof.
  destruct self as [pro flash current].
  unfold RateLimiter.try_acquire, RateLimiter.cleaned.
  pose proof (denied_state pro now) as Hp.
  pose proof (denied_state flash now) as Hf.
  destruct current; cbn [RateLimiter._current_model RateLimiter.other
                         RateLimiter.limiter RateLimiter.with_limiter
                         RateLimiter.pro RateLimiter.flash];
    destruct (ModelLimiter.try_acquire pro now) as [[|] pro'];
    destruct (ModelLimiter.try_acquire flash now) as [[|] flash'];
    cbn in *; intros H; try discriminate;
    now rewrite Hp, Hf.
Qed.

Lemma cleaned_cleaned (self : RateLimiter.t) (now later : Q) :
  now <= later ->
  RateLimiter.cleaned (RateLimiter.cleaned self now) later
  = RateLimiter.cleaned self later.
Proof.
  intros Hle. unfold RateLimiter.cleaned. simpl. now rewrite !clean_clean.
Qed.

Lemma poll_spec (timeout start : Q) (polls : nat) : forall self (now : Q),
  start <= now ->
  (now == start \/ now - (1 # 10) - start < timeout) ->
  (1 <= polls)%nat ->
  (timeout - (now - start)) * 10 <= inject_Z (Z.of_nat polls) - 1 ->
  exists granted limiter ended,
    RateLimiter.poll polls self (Some timeout) start now
    = Some (granted, limiter, ended)
    /\ now <= ended
    /\ ended - start < Qmax timeout 0 + (1 # 10)
    /\ (granted = true ->
        exists before,
          RateLimiter.try_acquire before ended ended = (true, limiter))
    /\ (granted = false ->
        timeout <= ended - start
        /\ limiter = RateLimiter.cleaned self ended).
Proof.
  induction polls as [|polls IH]; intros self now Hstart Hreached Hpos Hleft;
    [lia|].
  assert (Hsoon : now - start < Qmax timeout 0 + (1 # 10)).
  { pose proof (Q.le_max_l timeout 0). pose proof (Q.le_max_r timeout 0).
    destruct Hreached as [Heq|Hlt]; lra. }
  cbn [RateLimiter.poll].
  pose proof (dual_denied_cleaned self now) as Hdenied.
  destruct (RateLimiter.try_acquire self now now) as [[|] self'] eqn:Etry.
  - exists true, self', now.
    split; [reflexivity|]. split; [lra|]. split; [exact Hsoon|].
    split; [intros _; now exists self|discriminate].
  - cbn [fst snd] in Hdenied. specialize (Hdenied eq_refl). subst self'.
    unfold RateLimiter.timed_out.
    destruct (Qle_bool timeout (now - start)) eqn:E.
    + apply Qle_bool_iff in E.
      exists false, (RateLimiter.cleaned self now), now.
      split; [reflexivity|]. split; [lra|]. split; [exact Hsoon|].
      split; [discriminate|]. intros _. split; [exact E|reflexivity].
    + assert (Helapsed : now - start < timeout).
      { apply Qnot_le_lt. intros H. apply Qle_bool_iff in H. congruence. }
      rewrite Nat2Z.inj_succ, <- Z.add_1_r, inject_Z_plus in Hleft.
      change (inject_Z 1) with 1 in Hleft.
      destruct (IH (RateLimiter.cleaned self now) (now + (1 # 10)))
        as (granted & limiter & ended & Hrun & Hended & Hlate & Hyes & Hno).
      * lra.
      * right. lra.
      * destruct polls; [exfalso|lia].
        change (inject_Z (Z.of_nat 0)) with 0 in Hleft. lra.
      * lra.
      * exists granted, limiter, ended. rewrite Hrun.
        split; [reflexivity|]. split; [lra|]. split; [exact Hlate|].
        split; [exact Hyes|].
        intros Hg. destruct (Hno Hg) as [Hout ->]. split; [exact Hout|].
        apply cleaned_cleaned. lra.
Qed.

(** X4. [wait_for_token] with a timeout ends.  It ends less than a tenth of
    a second after the timeout; when it returns [True] the limiter is
    the one a granting [try_acquire] left at the time it ended, and when
    it returns [False] the timeout has passed and the limiter differs
    from the one it started with only by the requests that have aged
    out. *)
Theorem wait_for_token_ends (self : RateLimiter.t) (timeout now : Q) :
  exists enough,
    forall polls, (enough <= polls)%nat ->
    exists granted limiter ended,
      RateLimiter.wait_for_token polls self (Some timeout) now
      = Some (granted, limiter, ended)
      /\ now <= ended
      /\ ended - now < Qmax timeout 0 + (1 # 10)
      /\ (granted = true ->
          exists before,
            RateLimiter.try_acquire before ended ended = (true, limiter))
      /\ (granted = false ->
          timeout <= ended - now
          /\ limiter = RateLimiter.cleaned self ended).
Proof.
  exists (S (Z.to_nat (Qceiling (timeout * 10)))). intros polls Hpolls.
  unfold RateLimiter.wait_for_token. apply poll_spec.
  - apply Qle_refl.
  - left. reflexivity.
  - lia.
  - pose proof (Qle_ceiling (timeout * 10)) as Hceil.
    assert (Hz : (Qceiling (timeout * 10) <= Z.of_nat polls + -1)%Z) by lia.
    rewrite Zle_Qle, inject_Z_plus in Hz.
    change (inject_Z (-1)) with (-1) in Hz. lra.
Qed.

Lemma closed_tier_denies (tier : ModelLimiter.t) (now : Q) :
  RateLimiter.closed tier ->
  fst (ModelLimiter.try_acquire tier now) = false
  /\ RateLimiter.closed (snd (ModelLimiter.try_acquire tier now)).
Proof.
  intros Hclosed. unfold ModelLimiter.try_acquire.
  assert (Hbelow : ModelLimiter.below_limits
                     (ModelLimiter._clean_old_requests tier now) = false).
  { unfold ModelLimiter.below_limits, ModelLimiter.len. simpl.
    apply andb_false_iff. destruct Hclosed as [H|H]; [left|right];
      apply Z.ltb_ge; lia. }
  rewrite Hbelow. simpl. split; auto.
Qed.

(** X5. Without a timeout [wait_for_token] never returns when neither tier
    can grant: whatever the number of turns, the loop has not ended. *)
Theorem wait_without_timeout_never_returns
  (polls : nat) (self : RateLimiter.t) (now : Q) :
  RateLimiter.closed (RateLimiter.pro self) ->
  RateLimiter.closed (RateLimiter.flash self) ->
  RateLimiter.wait_for_token polls self None now = None.
Proof.
  unfold RateLimiter.wait_for_token. generalize now at 1 as start.
  revert self now.
  induction polls as [|polls IH]; intros self now start Hpro Hflash; auto.
  cbn [RateLimiter.poll].
  assert (Hstep : exists self',
            RateLimiter.try_acquire self now now = (false, self')
            /\ RateLimiter.closed (RateLimiter.pro self')
            /\ RateLimiter.closed (RateLimiter.flash self')).
  { destruct self as [pro flash current]. simpl in Hpro, Hflash.
    destruct (closed_tier_denies now Hpro) as [Hp Hp'].
    destruct (closed_tier_denies now Hflash) as [Hf Hf'].
    unfold RateLimiter.try_acquire.
    destruct current; cbn [RateLimiter._current_model RateLimiter.other
                           RateLimiter.limiter RateLimiter.with_limiter
                           RateLimiter.pro RateLimiter.flash];
      destruct (ModelLimiter.try_acquire pro now) as [gp pro'];
      destruct (ModelLimiter.try_acquire flash now) as [gf flash'];
      cbn [fst snd] in *; subst gp gf; cbn; eauto. }
  destruct Hstep as (self' & -> & Hp & Hf).
  cbn [RateLimiter.timed_out]. now apply IH.
Qed.

(** X6. The waits that [RateLimiter.get_wait_time] reports agree with
    admission: on tiers reached under monotone clocks, with positive
    limits, [try_acquire] grants at [now] exactly when the wait reported
    for one of the two tiers at [now] is 0. *)
Theorem reported_waits_agree_with_admission
  (rpm_c rpd_c rpm_o rpd_o : Z) (clock_c clock_o : list Q)
  (current : RateLimiter.ModelType) (now : Q) :
  (0 < rpm_c)%Z -> (0 < rpd_c)%Z -> (0 < rpm_o)%Z -> (0 < rpd_o)%Z ->
  ModelLimiter.monotone (clock_c ++ [now]) = true ->
  ModelLimiter.monotone (clock_o ++ [now]) = true ->
  let self :=
    RateLimiter.assemble current
      (ModelLimiter.state_after rpm_c rpd_c clock_c)
      (ModelLimiter.state_after rpm_o rpd_o clock_o) in
  exists waits,
    RateLimiter.get_wait_time self now = Ok waits
    /\ map fst waits = [RateLimiter.PRO; RateLimiter.FLASH]
    /\ (fst (RateLimiter.try_acquire self now now) = true
        <-> Exists (fun entry => snd entry == 0) waits).
Proof.
  intros Hmc Hdc Hmo Hdo Hcc Hco self.
  assert (Htier : forall rpm rpd clock,
             (0 < rpm)%Z -> (0 < rpd)%Z ->
             ModelLimiter.monotone (clock ++ [now]) = true ->
             exists wait,
               ModelLimiter.get_wait_time
                 (ModelLimiter.state_after rpm rpd clock) now = Ok wait
               /\ (fst (ModelLimiter.try_acquire
                          (ModelLimiter.state_after rpm rpd clock) now) = true
                   <-> wait == 0)).
  { intros rpm rpd clock Hm Hd Hmono.
    destruct (@tier_grants_after_wait rpm rpd clock now Hm Hd Hmono)
      as (wait & Hget & Hgrant).
    exists wait. split; [exact Hget|].
    destruct (Hgrant now (Qle_refl now)) as [H0 ->]. split; intros H; lra. }
  destruct (Htier rpm_c rpd_c clock_c Hmc Hdc Hcc) as (wc & Hgc & Hc).
  destruct (Htier rpm_o rpd_o clock_o Hmo Hdo Hco) as (wo & Hgo & Ho).
  clear Htier.
  pose proof (dual_tier_cases self now now) as Hcases. cbv zeta in Hcases.
  destruct (assemble_parts current
              (ModelLimiter.state_after rpm_c rpd_c clock_c)
              (ModelLimiter.state_after rpm_o rpd_o clock_o))
    as (Hp & Hlc & Hlo). fold self in Hp, Hlc, Hlo.
  rewrite Hp, Hlc, Hlo in Hcases.
  assert (Hgrant : fst (RateLimiter.try_acquire self now now) = true
                   <-> wc == 0 \/ wo == 0).
  { rewrite <- Hc, <- Ho.
    destruct (ModelLimiter.try_acquire
                (ModelLimiter.state_after rpm_c rpd_c clock_c) now)
      as [[|] tier_c];
      destruct (ModelLimiter.try_acquire
                  (ModelLimiter.state_after rpm_o rpd_o clock_o) now)
        as [[|] tier_o];
      cbn [fst snd] in *; destruct Hcases as (H1 & H2 & H3);
      intuition (try congruence). }
  assert (Hwaits : RateLimiter.get_wait_time self now
                   = Ok (match current with
                         | RateLimiter.PRO =>
                             [(RateLimiter.PRO, wc); (RateLimiter.FLASH, wo)]
                         | RateLimiter.FLASH =>
                             [(RateLimiter.PRO, wo); (RateLimiter.FLASH, wc)]
                         end)).
  { unfold RateLimiter.get_wait_time, self.
    destruct current; cbn [RateLimiter.assemble RateLimiter.pro
                           RateLimiter.flash];
      now rewrite Hgc, Hgo. }
  rewrite Hwaits.
  destruct current; eexists; (split; [reflexivity|]);
    (split; [reflexivity|]); (etransitivity; [exact Hgrant|]); split.
  - intros [H|H]; [left|right; left]; exact H.
  - intros H. inversion H as [? ? H1|? ? H1]; subst; [now left|].
    inversion H1 as [? ? H2|? ? H2]; subst; [now right|inversion H2].
  - intros [H|H]; [right; left|left]; exact H.
  - intros H. inversion H as [? ? H1|? ? H1]; subst; [now right|].
    inversion H1 as [? ? H2|? ? H2]; subst; [now left|inversion H2].
Qed.

End WaitingForToken.

Lemma wait_without_timeout_never_returns_witness :
  RateLimiter.wait_for_token 500
    (RateLimiter.init (Config.mk 0 30 5 0 true 3600 100)) None 1000
  = None.
Proof.
  apply (@wait_without_timeout_never_returns 500
           (RateLimiter.init (Config.mk 0 30 5 0 true 3600 100)) 1000).
  - left. simpl. lia.
  - right. simpl. lia.
Defined.

Lemma reported_waits_agree_with_admission_witness :
  exists waits,
    RateLimiter.get_wait_time
      (RateLimiter.assemble RateLimiter.PRO
         (ModelLimiter.state_after 3 30 [0; 1; 2])
         (ModelLimiter.state_after 5 50 [0; 1; 2; 3; 4])) 5
    = Ok waits
    /\ map fst waits = [RateLimiter.PRO; RateLimiter.FLASH]
    /\ (fst (RateLimiter.try_acquire
               (RateLimiter.assemble RateLimiter.PRO
                  (ModelLimiter.state_after 3 30 [0; 1; 2])
                  (ModelLimiter.state_after 5 50 [0; 1; 2; 3; 4])) 5 5)
        = true
        <-> Exists (fun entry => snd entry == 0) waits).
Proof.
  apply (@reported_waits_agree_with_admission 3 30 5 50
           [0; 1; 2] [0; 1; 2; 3; 4] RateLimiter.PRO 5);
    [lia | lia | lia | lia | reflexivity | reflexivity].
Defined.

(** ** The two tiers together *)

Section TwoTiers.

Variable config : Config.t.

Hypothesis pro_rpm : (0 <= Config.GEMINI_PRO_RPM config)%Z.
Hypothesis pro_rpd : (0 <= Config.GEMINI_PRO_RPD config)%Z.
Hypothesis flash_rpm : (0 <= Config.GEMINI_FLASH_RPM config)%Z.
Hypothesis flash_rpd : (0 <= Config.GEMINI_FLASH_RPD config)%Z.

Lemma shared_init (last : Q) :
  RateLimiter.shared config last [] (RateLimiter.init config).
Proof.
  exists [], [], last, last.
  split; [apply Qle_refl|]. split; [apply Qle_refl|].
  split; [now apply consistent_init|]. split; [now apply consistent_init|].
  reflexivity.
Qed.

Lemma shared_try_acquire (last now later : Q) (log : list Q)
  (self : RateLimiter.t) :
  last <= now -> now <= later ->
  RateLimiter.shared config last log self ->
  RateLimiter.shared config later
    (if fst (RateLimiter.try_acquire self now later)
     then log ++ [RateLimiter.granted_at
                    (RateLimiter._current_model self)
                    (RateLimiter._current_model
                       (snd (RateLimiter.try_acquire self now later)))
                    now later]
     else log)
    (snd (RateLimiter.try_acquire self now later)).
Proof.
  intros Hnow Hlater (pro_log & flash_log & last_pro & last_flash
                      & Hlp & Hlf & Hpro & Hflash & Hcount).
  assert (Hp : last_pro <= now) by lra.
  assert (Hf : last_flash <= now) by lra.
  assert (Hp' : last_pro <= later) by lra.
  assert (Hf' : last_flash <= later) by lra.
  pose proof (consistent_try_acquire Hp Hpro) as Hpro_now.
  pose proof (consistent_try_acquire Hp' Hpro) as Hpro_later.
  pose proof (consistent_try_acquire Hf Hflash) as Hflash_now.
  pose proof (consistent_try_acquire Hf' Hflash) as Hflash_later.
  destruct self as [pro flash current]. unfold RateLimiter.try_acquire.
  cbn [RateLimiter.pro RateLimiter.flash] in *.
  destruct current;
    cbn [RateLimiter._current_model RateLimiter.other RateLimiter.limiter
         RateLimiter.with_limiter RateLimiter.pro RateLimiter.flash].
  - (* the pointer is on [pro] *)
    clear Hpro_later Hflash_now.
    destruct (ModelLimiter.try_acquire pro now) as [[|] pro'];
      cbn [fst snd RateLimiter.pro RateLimiter.flash
           RateLimiter._current_model RateLimiter.granted_at] in *.
    + exists (pro_log ++ [now]), flash_log, now, last_flash.
      split; [exact Hlater|]. split; [exact Hf'|].
      split; [exact Hpro_now|]. split; [exact Hflash|].
      intros t window. rewrite !requests_within_app, Hcount. lia.
    + destruct (ModelLimiter.try_acquire flash later) as [[|] flash'];
        cbn [fst snd RateLimiter.pro RateLimiter.flash
             RateLimiter._current_model RateLimiter.granted_at] in *.
      * exists pro_log, (flash_log ++ [later]), now, later.
        split; [exact Hlater|]. split; [apply Qle_refl|].
        split; [exact Hpro_now|]. split; [exact Hflash_later|].
        intros t window. rewrite !requests_within_app, Hcount. lia.
      * exists pro_log, flash_log, now, later.
        split; [exact Hlater|]. split; [apply Qle_refl|].
        split; [exact Hpro_now|]. split; [exact Hflash_later|].
        exact Hcount.
  - (* the pointer is on [flash] *)
    clear Hpro_now Hflash_later.
    destruct (ModelLimiter.try_acquire flash now) as [[|] flash'];
      cbn [fst snd RateLimiter.pro RateLimiter.flash
           RateLimiter._current_model RateLimiter.granted_at] in *.
    + exists pro_log, (flash_log ++ [now]), last_pro, now.
      split; [exact Hp'|]. split; [exact Hlater|].
      split; [exact Hpro|]. split; [exact Hflash_now|].
      intros t window. rewrite !requests_within_app, Hcount. lia.
    + destruct (ModelLimiter.try_acquire pro later) as [[|] pro'];
        cbn [fst snd RateLimiter.pro RateLimiter.flash
             RateLimiter._current_model RateLimiter.granted_at] in *.
      * exists (pro_log ++ [later]), flash_log, later, now.
        split; [apply Qle_refl|]. split; [exact Hlater|].
        split; [exact Hpro_later|]. split; [exact Hflash_now|].
        intros t window. rewrite !requests_within_app, Hcount. lia.
      * exists pro_log, flash_log, later, now.
        split; [apply Qle_refl|]. split; [exact Hlater|].
        split; [exact Hpro_later|]. split; [exact Hflash_now|].
        exact Hcount.
Qed.

Lemma shared_run (clock : list (Q * Q)) : forall last log self,
  ModelLimiter.monotone_from last (RateLimiter.readings clock) = true ->
  RateLimiter.shared config last log self ->
  exists ended,
    RateLimiter.shared config ended
      (snd (RateLimiter.run self log clock))
      (fst (RateLimiter.run self log clock)).
Proof.
  induction clock as [|[now later] rest IH]; intros last log self Hmono Hshared.
  - now exists last.
  - cbn [RateLimiter.readings flat_map fst snd app
         ModelLimiter.monotone_from] in Hmono.
    apply andb_true_iff in Hmono. destruct Hmono as [H1 Hmono].
    apply andb_true_iff in Hmono. destruct Hmono as [H2 Hmono].
    apply Qle_bool_iff in H1. apply Qle_bool_iff in H2.
    pose proof (shared_try_acquire H1 H2 Hshared) as Hstep.
    cbn [RateLimiter.run].
    destruct (RateLimiter.try_acquire self now later) as [granted self'].
    cbn [fst snd] in Hstep. eapply IH; [exact Hmono|exact Hstep].
Qed.

Lemma shared_reachable (clock : list (Q * Q)) :
  ModelLimiter.monotone (RateLimiter.readings clock) = true ->
  exists last,
    RateLimiter.shared config last (RateLimiter.grants config clock)
      (fst (RateLimiter.run (RateLimiter.init config) [] clock)).
Proof.
  intros Hmono. unfold RateLimiter.grants.
  destruct clock as [|[first later] rest].
  - exists 0. apply shared_init.
  - apply shared_run with (last := first); [|apply shared_init].
    cbn [RateLimiter.readings flat_map fst snd app ModelLimiter.monotone]
      in Hmono.
    cbn [RateLimiter.readings flat_map fst snd app
         ModelLimiter.monotone_from].
    assert (H : Qle_bool first first = true)
      by (apply Qle_bool_iff, Qle_refl).
    rewrite H. exact Hmono.
Qed.

End TwoTiers.

(** X7. The two tiers together.  For every sequence of calls of
    [RateLimiter.try_acquire] on a new limiter, each reading the clock
    for the current tier and again for the other tier, the readings
    never decreasing, and at every instant [t], the granted calls that lie
    in the 60 seconds that trail [t] are at most the two limits per
    minute together, and those in the 86400 seconds that trail [t] at
    most the two limits per day together. *)
Theorem two_tiers_within_their_limits
  (config : Config.t) (clock : list (Q * Q)) (t : Q) :
  (0 <= Config.GEMINI_PRO_RPM config)%Z ->
  (0 <= Config.GEMINI_PRO_RPD config)%Z ->
  (0 <= Config.GEMINI_FLASH_RPM config)%Z ->
  (0 <= Config.GEMINI_FLASH_RPD config)%Z ->
  ModelLimiter.monotone (RateLimiter.readings clock) = true ->
  (ModelLimiter.requests_within (RateLimiter.grants config clock) t 60
   <= Config.GEMINI_PRO_RPM config + Config.GEMINI_FLASH_RPM config)%Z
  /\ (ModelLimiter.requests_within (RateLimiter.grants config clock) t 86400
      <= Config.GEMINI_PRO_RPD config + Config.GEMINI_FLASH_RPD config)%Z.
Proof.
  intros Hpm Hpd Hfm Hfd Hmono.
  destruct (@shared_reachable config Hpm Hpd Hfm Hfd clock Hmono)
    as (last & pro_log & flash_log & last_pro & last_flash
        & _ & _ & Hpro & Hflash & Hcount).
  destruct Hpro as [_ _ _ _ Hpmin Hpday].
  destruct Hflash as [_ _ _ _ Hfmin Hfday].
  rewrite !Hcount. split.
  - pose proof (ModelLimiter.tracked_count Hpmin t).
    pose proof (ModelLimiter.tracked_count Hfmin t). lia.
  - pose proof (ModelLimiter.tracked_count Hpday t).
    pose proof (ModelLimiter.tracked_count Hfday t). lia.
Qed.

Lemma two_tiers_within_their_limits_witness :
  Z.le (ModelLimiter.requests_within
          (RateLimiter.grants Config.defaults
             [(0, 0); (1, 1); (2, 2); (3, 7 # 2); (4, 4); (5, 5); (6, 6);
              (7, 7); (8, 8); (9, 19 # 2); (30, 30); (61, 61)]) 61 60)
       (Config.GEMINI_PRO_RPM Config.defaults
        + Config.GEMINI_FLASH_RPM Config.defaults)
  /\ Z.le (ModelLimiter.requests_within
             (RateLimiter.grants Config.defaults
                [(0, 0); (1, 1); (2, 2); (3, 7 # 2); (4, 4); (5, 5); (6, 6);
                 (7, 7); (8, 8); (9, 19 # 2); (30, 30); (61, 61)]) 61 86400)
          (Config.GEMINI_PRO_RPD Config.defaults
           + Config.GEMINI_FLASH_RPD Config.defaults).
Proof.
  apply (@two_tiers_within_their_limits Config.defaults
           [(0, 0); (1, 1); (2, 2); (3, 7 # 2); (4, 4); (5, 5); (6, 6);
            (7, 7); (8, 8); (9, 19 # 2); (30, 30); (61, 61)] 61);
    [simpl; lia | simpl; lia | simpl; lia | simpl; lia | reflexivity].
Defined.

(** ** Histories of the cache *)

Section CacheHistories.

Import CacheManager.

Variable V : Type.

Implicit Types (d room : ordered_dict V) (self : t V) (key other : string).

Lemma lookup_In key d (bound : V * Q) :
  lookup key d = Some bound -> In (key, bound) d.
Proof.
  induction d as [|[k old] d IH]; simpl; [discriminate|].
  destruct (String.eqb key k) eqn:E.
  - apply String.eqb_eq in E. subst k. intros [= ->]. now left.
  - intros H. right. auto.
Qed.

Lemma lookup_app key d1 d2 :
  lookup key (d1 ++ d2)
  = match lookup key d1 with
    | Some bound => Some bound
    | None => lookup key d2
    end.
Proof.
  induction d1 as [|[k old] d1 IH]; simpl; auto.
  now destruct (String.eqb key k).
Qed.

Lemma lookup_delete_other key other d :
  other <> key -> lookup other (delete key d) = lookup other d.
Proof.
  intros Hother. unfold delete.
  induction d as [|[k old] d IH]; simpl; auto.
  destruct (String.eqb key k) eqn:E; simpl.
  - apply String.eqb_eq in E. subst k.
    apply String.eqb_neq in Hother. now rewrite Hother.
  - now rewrite IH.
Qed.

Lemma lookup_assign_other key other (bound : V * Q) d :
  other <> key -> lookup other (assign key bound d) = lookup other d.
Proof.
  intros Hother. apply String.eqb_neq in Hother.
  induction d as [|[k old] d IH]; simpl.
  - now rewrite Hother.
  - destruct (String.eqb key k) eqn:E; simpl.
    + apply String.eqb_eq in E. subst k. now rewrite Hother.
    + now rewrite IH.
Qed.

Lemma lookup_moved key other d :
  lookup other (move_to_end key d) = lookup other d.
Proof.
  unfold move_to_end. destruct (lookup key d) as [bound|] eqn:E; auto.
  destruct (String.eqb other key) eqn:Eo.
  - apply String.eqb_eq in Eo. subst other. now rewrite lookup_last.
  - apply String.eqb_neq in Eo. rewrite lookup_app, lookup_delete_other; auto.
    destruct (lookup other d); auto. simpl.
    apply String.eqb_neq in Eo. now rewrite Eo.
Qed.

Lemma In_delete key d (binding : string * (V * Q)) :
  In binding (delete key d) <->
  In binding d /\ String.eqb key (fst binding) = false.
Proof.
  unfold delete. rewrite filter_In.
  now destruct (String.eqb key (fst binding)).
Qed.

Lemma evict_suffix (capacity : Z) d room :
  evict capacity d = Ok room -> exists evicted, d = evicted ++ room.
Proof.
  intros H. pose proof (evict_spec capacity d) as Hspec. rewrite H in Hspec.
  destruct Hspec as (evicted & Hd & _). now exists evicted.
Qed.

Lemma evict_room (capacity : Z) d :
  (size d < capacity)%Z -> evict capacity d = Ok d.
Proof.
  intros Hroom. destruct d as [|binding d]; simpl.
  - unfold size in Hroom. simpl in Hroom.
    destruct (0 >=? capacity)%Z eqn:E; auto. lia.
  - destruct (size (binding :: d) >=? capacity)%Z eqn:E; auto. lia.
Qed.

(** *** The settings of a history *)

Lemma perform_settings self (c : call V) :
  enabled (perform self c) = enabled self
  /\ timeout (perform self c) = timeout self
  /\ max_items (perform self c) = max_items self.
Proof.
  destruct c as [key value now|key now|key|]; simpl.
  - unfold set. destruct (negb (enabled self)); auto.
    destruct (evict (max_items self) (_cache self)); auto.
  - unfold get. destruct (negb (enabled self)); auto.
    destruct (lookup key (_cache self)) as [[value written]|]; auto.
    destruct (Qle_bool _ _); auto.
  - unfold remove. destruct (lookup key (_cache self)); auto.
  - auto.
Qed.

Lemma history_snoc (config : Config.t) (calls : list (call V)) (c : call V) :
  history config (calls ++ [c]) = perform (history config calls) c.
Proof. unfold history. now rewrite fold_left_app. Qed.

Lemma last_written_snoc key (calls : list (call V)) (c : call V) :
  last_written key (calls ++ [c]) = note key (last_written key calls) c.
Proof. unfold last_written. now rewrite fold_left_app. Qed.

Lemma history_settings (config : Config.t) (calls : list (call V)) :
  enabled (history config calls) = Config.CACHE_ENABLED config
  /\ timeout (history config calls) = Config.CACHE_TIMEOUT config
  /\ max_items (history config calls) = Config.MAX_CACHE_ITEMS config.
Proof.
  induction calls as [|c calls IH] using rev_ind; [now cbv|].
  rewrite history_snoc.
  destruct (perform_settings (history config calls) c) as (-> & -> & ->).
  exact IH.
Qed.

Lemma disabled_history (config : Config.t) (calls : list (call V)) :
  Config.CACHE_ENABLED config = false ->
  _cache (history config calls) = [].
Proof.
  intros Hoff. induction calls as [|c calls IH] using rev_ind; [now cbv|].
  rewrite history_snoc.
  destruct (history_settings config calls) as (Hon & _).
  rewrite Hoff in Hon.
  destruct c as [key value now|key now|key|]; simpl; auto.
  - unfold set. now rewrite Hon.
  - unfold get. now rewrite Hon.
  - unfold remove. now rewrite IH.
Qed.

(** X8. A cache that is switched off stores nothing and answers
    nothing: after whatever calls of [set], [get], [remove] and [clear],
    it holds no binding and every [get] returns [None] and leaves it as
    it is. *)
Theorem disabled_cache_stays_empty
  (config : Config.t) (calls : list (call V)) key (now : Q) :
  Config.CACHE_ENABLED config = false ->
  _cache (history config calls) = []
  /\ get (history config calls) key now = (None, history config calls).
Proof.
  intros Hoff. split; [now apply disabled_history|].
  destruct (history_settings config calls) as (Hon & _).
  unfold get. now rewrite Hon, Hoff.
Qed.

(** *** What a cache holds is what was written last *)

Lemma holds_last_written_history (config : Config.t) (calls : list (call V)) :
  holds_last_written calls (_cache (history config calls)).
Proof.
  unfold holds_last_written.
  induction calls as [|c calls IH] using rev_ind; [constructor|].
  rewrite history_snoc.
  destruct (Config.CACHE_ENABLED config) eqn:Hconfig.
  2:{ rewrite <- history_snoc, disabled_history; auto. }
  destruct (history_settings config calls) as (Hon & _).
  rewrite Hconfig in Hon.
  set (self := history config calls) in *.
  rewrite Forall_forall in IH. apply Forall_forall.
  intros [k bound] Hin. rewrite last_written_snoc. cbn [fst snd].
  destruct c as [key value now|key now|key|]; cbn [perform note] in *.
  - unfold set in Hin. rewrite Hon in Hin. cbn [negb] in Hin.
    destruct (evict (max_items self) (_cache self)) as [room|e] eqn:Eroom;
      cbn [snd with_cache _cache] in Hin; [|contradiction].
    rewrite move_to_end_assign in Hin.
    apply in_app_or in Hin. destruct Hin as [Hin|[[= <- <-]|[]]].
    + apply In_delete in Hin. destruct Hin as [Hin Hk]. cbn [fst] in Hk.
      rewrite String.eqb_sym in Hk. rewrite Hk.
      destruct (evict_suffix _ _ Eroom) as (evicted & Hd).
      apply (IH (k, bound)). rewrite Hd. apply in_or_app. now right.
    + now rewrite String.eqb_refl.
  - unfold get in Hin. rewrite Hon in Hin. cbn [negb] in Hin.
    destruct (lookup key (_cache self)) as [[value written]|] eqn:Ekey.
    + destruct (Qle_bool _ _); cbn [snd with_cache _cache] in Hin.
      * unfold move_to_end in Hin. rewrite Ekey in Hin.
        apply in_app_or in Hin. destruct Hin as [Hin|[[= <- <-]|[]]].
        -- apply In_delete in Hin. apply (IH (k, bound)). tauto.
        -- apply (IH (key, (value, written))). now apply lookup_In.
      * apply In_delete in Hin. apply (IH (k, bound)). tauto.
    + apply (IH (k, bound)). exact Hin.
  - unfold remove in Hin.
    destruct (lookup key (_cache self)) as [old|] eqn:Ekey.
    + cbn [with_cache _cache] in Hin.
      apply In_delete in Hin. destruct Hin as [Hin Hk]. cbn [fst] in Hk.
      rewrite String.eqb_sym in Hk. rewrite Hk. now apply (IH (k, bound)).
    + destruct (String.eqb k key) eqn:Ek; [|now apply (IH (k, bound))].
      apply String.eqb_eq in Ek. subst k.
      assert (Hsome : lookup key (_cache self) <> None).
      { clear - Hin. induction (_cache self) as [|[k0 b0] d IHd];
          [contradiction|]. simpl.
        destruct (String.eqb key k0) eqn:E; [discriminate|].
        destruct Hin as [[= -> ->]|Hin]; [|auto].
        now rewrite String.eqb_refl in E. }
      contradiction.
  - contradiction.
Qed.

(** X9. What a [get] returns is what was written last.  After whatever
    calls of [set], [get], [remove] and [clear] on a new cache, a value
    that [get] returns for a key is the value of the last [set] of that
    key, no [remove] of the key and no [clear] came after that [set],
    and the value is not older than the timeout. *)
Theorem get_returns_last_written
  (config : Config.t) (calls : list (call V)) key (now : Q) (value : V) :
  fst (get (history config calls) key now) = Some value ->
  exists written,
    last_written key calls = Some (value, written)
    /\ now - written <= inject_Z (Config.CACHE_TIMEOUT config).
Proof.
  pose proof (holds_last_written_history config calls) as Hheld.
  destruct (history_settings config calls) as (_ & Htimeout & _).
  unfold holds_last_written in Hheld. rewrite Forall_forall in Hheld.
  unfold get. destruct (negb _); [discriminate|].
  destruct (lookup key (_cache (history config calls)))
    as [[held written]|] eqn:Ekey; [|discriminate].
  destruct (Qle_bool _ _) eqn:Efresh; [|discriminate].
  cbn [fst]. intros [= ->]. exists written. split.
  - apply (Hheld (key, (value, written))). now apply lookup_In.
  - apply Qle_bool_iff in Efresh. now rewrite Htimeout in Efresh.
Qed.

(** *** The keys of a history *)

Lemma keys_delete key d : keys (delete key d) = filter (fun k => negb (String.eqb key k)) (keys d).
Proof.
  unfold keys, delete. induction d as [|[k bound] d IH]; simpl; auto.
  destruct (String.eqb key k); simpl; now rewrite IH.
Qed.

Lemma NoDup_filter (A : Type) (f : A -> bool) (l : list A) :
  NoDup l -> NoDup (filter f l).
Proof.
  induction 1 as [|x l Hx Hl IH]; simpl; [constructor|].
  destruct (f x); auto. constructor; auto.
  rewrite filter_In. tauto.
Qed.

Lemma NoDup_snoc (A : Type) (l : list A) (x : A) :
  NoDup l -> ~ In x l -> NoDup (l ++ [x]).
Proof.
  intros Hl Hx. apply NoDup_app; auto.
  - repeat constructor. intros [].
  - intros a Ha [<-|[]]. contradiction.
Qed.

Lemma unique_moved key d (bound : V * Q) :
  NoDup (keys d) -> NoDup (keys (delete key d ++ [(key, bound)])).
Proof.
  intros Hd. unfold keys. rewrite map_app. fold (keys (delete key d)).
  simpl. apply NoDup_snoc.
  - rewrite keys_delete. now apply NoDup_filter.
  - rewrite keys_delete, filter_In, String.eqb_refl. simpl.
    intros [_ H]. discriminate.
Qed.

Lemma unique_suffix (A : Type) (l1 l2 : list A) :
  NoDup (l1 ++ l2) -> NoDup l2.
Proof.
  induction l1 as [|x l1 IH]; simpl; auto.
  intros H. inversion H. auto.
Qed.

Lemma size_moved key d (bound : V * Q) :
  (size (delete key d ++ [(key, bound)]) <= size d + 1)%Z.
Proof.
  pose proof (size_delete key d) as H. unfold size in *.
  rewrite length_app. simpl. lia.
Qed.

Lemma perform_well_formed (capacity : Z) self (c : call V) :
  (0 <= capacity)%Z ->
  max_items self = capacity ->
  NoDup (keys (_cache self)) /\ (size (_cache self) <= capacity)%Z ->
  NoDup (keys (_cache (perform self c)))
  /\ (size (_cache (perform self c)) <= capacity)%Z.
Proof.
  intros Hcap Hmax [Hkeys Hsize].
  destruct c as [key value now|key now|key|]; cbn [perform].
  - unfold set. destruct (negb (enabled self)); [now split|].
    pose proof (evict_spec (max_items self) (_cache self)) as Hspec.
    destruct (evict (max_items self) (_cache self)) as [room|e];
      cbn [snd with_cache _cache].
    + destruct Hspec as (evicted & Hd & Hroom & _).
      rewrite move_to_end_assign. split.
      * apply unique_moved. rewrite Hd in Hkeys. unfold keys in Hkeys.
        rewrite map_app in Hkeys. now apply unique_suffix in Hkeys.
      * pose proof (size_moved key room (value, now)). lia.
    + split; [constructor|]. unfold size. simpl. lia.
  - unfold get. destruct (negb (enabled self)); [now split|].
    destruct (lookup key (_cache self)) as [[held written]|] eqn:Ekey;
      [|now split].
    destruct (Qle_bool _ _); cbn [snd with_cache _cache].
    + unfold move_to_end. rewrite Ekey. split.
      * now apply unique_moved.
      * pose proof (size_delete_held _ _ Ekey) as Hless.
        unfold size in *. rewrite length_app. simpl. lia.
    + split.
      * rewrite keys_delete. now apply NoDup_filter.
      * pose proof (size_delete key (_cache self)). lia.
  - unfold remove. destruct (lookup key (_cache self)); [|now split].
    cbn [with_cache _cache]. split.
    + rewrite keys_delete. now apply NoDup_filter.
    + pose proof (size_delete key (_cache self)). lia.
  - cbn. split; [constructor|]. unfold size. simpl. lia.
Qed.

(** X10. The bound on the size holds with [remove] and [clear] among the
    calls as well, and the list of bindings is a dictionary: after
    whatever calls of the four methods on a new cache with a limit that
    is not negative, no key is bound twice and the number of bindings
    does not exceed [MAX_CACHE_ITEMS]. *)
Theorem history_bounded_with_unique_keys
  (config : Config.t) (calls : list (call V)) :
  (0 <= Config.MAX_CACHE_ITEMS config)%Z ->
  NoDup (keys (_cache (history config calls)))
  /\ (size (_cache (history config calls)) <= Config.MAX_CACHE_ITEMS config)%Z.
Proof.
  intros Hcap. induction calls as [|c calls IH] using rev_ind.
  - split; [constructor|]. unfold size. simpl. lia.
  - rewrite history_snoc. apply perform_well_formed; auto.
    now destruct (history_settings config calls) as (_ & _ & ->).
Qed.

(** *** One call and the other keys *)

(** X11. A [get] and a [remove] leave the bindings of every other key
    as they are, and so does a [set] that finds room; a [get] that
    returns a value leaves the binding of its own key as it is too. *)
Theorem other_keys_untouched self key other (value : V) (now : Q) :
  other <> key ->
  lookup other (_cache (snd (get self key now))) = lookup other (_cache self)
  /\ lookup other (_cache (remove self key)) = lookup other (_cache self)
  /\ ((size (_cache self) < max_items self)%Z ->
      lookup other (_cache (snd (set self key value now)))
      = lookup other (_cache self))
  /\ (fst (get self key now) <> None ->
      lookup key (_cache (snd (get self key now)))
      = lookup key (_cache self)).
Proof.
  intros Hother. split; [|split; [|split]].
  - unfold get. destruct (negb (enabled self)); auto.
    destruct (lookup key (_cache self)) as [[held written]|]; auto.
    destruct (Qle_bool _ _); cbn [snd with_cache _cache].
    + apply lookup_moved.
    + now apply lookup_delete_other.
  - unfold remove. destruct (lookup key (_cache self)); auto.
    now apply lookup_delete_other.
  - intros Hroom. unfold set. destruct (negb (enabled self)); auto.
    rewrite evict_room by exact Hroom. cbn [snd with_cache _cache].
    rewrite lookup_moved. now apply lookup_assign_other.
  - unfold get. destruct (negb (enabled self)); [now intros []|].
    destruct (lookup key (_cache self)) as [[held written]|] eqn:Ekey;
      [|now intros []].
    destruct (Qle_bool _ _); cbn [fst snd with_cache _cache];
      [|now intros []].
    intros _. now rewrite lookup_moved.
Qed.

(** X12. What is gone stays gone.  After a [remove] of a key, and after
    a [get] of the key that returned [None], a [get] of that key
    returns [None] and changes nothing, whatever the clock reads then;
    a second [remove] of the key changes nothing either. *)
Theorem gone_stays_gone self key (now later : Q) :
  get (remove self key) key later = (None, remove self key)
  /\ remove (remove self key) key = remove self key
  /\ (fst (get self key now) = None ->
      get (snd (get self key now)) key later = (None, snd (get self key now))).
Proof.
  assert (Hmiss : forall held : t V,
             lookup key (_cache held) = None ->
             get held key later = (None, held)).
  { intros held Hnone. unfold get. rewrite Hnone.
    now destruct (negb (enabled held)). }
  assert (Hremoved : lookup key (_cache (remove self key)) = None).
  { unfold remove. destruct (lookup key (_cache self)) eqn:E; auto.
    apply lookup_delete. }
  split; [|split].
  - now apply Hmiss.
  - unfold remove at 1. now rewrite Hremoved.
  - destruct (get self key now) as [answer after] eqn:Eget.
    cbn [fst snd]. intros ->. unfold get in Eget.
    destruct (negb (enabled self)) eqn:Eon.
    + injection Eget as <-. unfold get. now rewrite Eon.
    + destruct (lookup key (_cache self)) as [[held written]|] eqn:Ekey.
      * destruct (Qle_bool _ _); [discriminate|].
        injection Eget as <-. apply Hmiss. apply lookup_delete.
      * injection Eget as <-. now apply Hmiss.
Qed.

End CacheHistories.

Lemma disabled_cache_stays_empty_witness :
  CacheManager._cache
    (CacheManager.history (Config.mk 3 30 5 50 false 3600 100)
       [CacheManager.CallSet "a" 1%nat 0; CacheManager.CallGet "a" 1]) = []
  /\ CacheManager.get
       (CacheManager.history (Config.mk 3 30 5 50 false 3600 100)
          [CacheManager.CallSet "a" 1%nat 0; CacheManager.CallGet "a" 1])
       "a" 2
     = (None,
        CacheManager.history (Config.mk 3 30 5 50 false 3600 100)
          [CacheManager.CallSet "a" 1%nat 0; CacheManager.CallGet "a" 1]).
Proof.
  apply (@disabled_cache_stays_empty nat (Config.mk 3 30 5 50 false 3600 100)
           [CacheManager.CallSet "a" 1%nat 0; CacheManager.CallGet "a" 1]
           "a" 2).
  reflexivity.
Defined.

Lemma get_returns_last_written_witness :
  exists written,
    CacheManager.last_written "a"
      [CacheManager.CallSet "a" 1%nat 0; CacheManager.CallSet "b" 7%nat 1;
       CacheManager.CallSet "a" 2%nat 2; CacheManager.CallRemove "b"]
    = Some (2%nat, written)
    /\ 5 - written <= inject_Z (Config.CACHE_TIMEOUT Config.defaults).
Proof.
  apply (@get_returns_last_written nat Config.defaults
           [CacheManager.CallSet "a" 1%nat 0; CacheManager.CallSet "b" 7%nat 1;
            CacheManager.CallSet "a" 2%nat 2; CacheManager.CallRemove "b"]
           "a" 5 2%nat).
  reflexivity.
Defined.

Lemma history_bounded_with_unique_keys_witness :
  NoDup (CacheManager.keys
           (CacheManager._cache
              (CacheManager.history (Config.mk 3 30 5 50 true 3600 2)
                 [CacheManager.CallSet "a" 1%nat 0;
                  CacheManager.CallSet "b" 2%nat 1;
                  CacheManager.CallSet "c" 3%nat 2])))
  /\ (CacheManager.size
        (CacheManager._cache
           (CacheManager.history (Config.mk 3 30 5 50 true 3600 2)
              [CacheManager.CallSet "a" 1%nat 0;
               CacheManager.CallSet "b" 2%nat 1;
               CacheManager.CallSet "c" 3%nat 2])) <= 2)%Z.
Proof.
  apply (@history_bounded_with_unique_keys nat
           (Config.mk 3 30 5 50 true 3600 2)
           [CacheManager.CallSet "a" 1%nat 0;
            CacheManager.CallSet "b" 2%nat 1;
            CacheManager.CallSet "c" 3%nat 2]).
  simpl. lia.
Defined.

Lemma other_keys_untouched_witness :
  CacheManager.lookup "b"
    (CacheManager._cache (snd (CacheManager.get Samples.two_entries "a" 5)))
  = CacheManager.lookup "b" (CacheManager._cache Samples.two_entries)
  /\ CacheManager.lookup "b"
       (CacheManager._cache (CacheManager.remove Samples.two_entries "a"))
     = CacheManager.lookup "b" (CacheManager._cache Samples.two_entries)
  /\ ((CacheManager.size (CacheManager._cache Samples.two_entries)
       < CacheManager.max_items Samples.two_entries)%Z ->
      CacheManager.lookup "b"
        (CacheManager._cache
           (snd (CacheManager.set Samples.two_entries "a" 3%nat 5)))
      = CacheManager.lookup "b" (CacheManager._cache Samples.two_entries))
  /\ (fst (CacheManager.get Samples.two_entries "a" 5) <> None ->
      CacheManager.lookup "a"
        (CacheManager._cache (snd (CacheManager.get Samples.two_entries "a" 5)))
      = CacheManager.lookup "a" (CacheManager._cache Samples.two_entries)).
Proof.
  apply (@other_keys_untouched nat Samples.two_entries "a" "b" 3%nat 5).
  discriminate.
Defined.

(** ** The discipline of a query *)

Section Discipline.

Import GeminiClient.

Variable env : environment.

Lemma follow_app (p : phase) (added more : list event) :
  follow p (added ++ more)
  = match follow p added with
    | Some p' => follow p' more
    | None => None
    end.
Proof.
  revert p. induction added as [|e added IH]; intros p; simpl; auto.
  destruct (advance p e); auto.
Qed.

Lemma checks_app (added more : list event) :
  checks (added ++ more) = (checks added + checks more)%nat.
Proof. unfold checks. now rewrite filter_app, length_app. Qed.

Lemma tokens_app (added more : list event) :
  tokens (added ++ more) = (tokens added + tokens more)%nat.
Proof. unfold tokens. now rewrite filter_app, length_app. Qed.

Lemma dispatched_app (added more : list event) :
  dispatched (added ++ more) = (dispatched added + dispatched more)%nat.
Proof. unfold dispatched. now rewrite filter_app, length_app. Qed.

Lemma tokens_le_checks (added : list event) :
  (tokens added <= checks added)%nat.
Proof.
  unfold tokens, checks.
  induction added as [|[| |[|]| | | | | | | | | | |] added IH]; simpl; lia.
Qed.

(** A dispatch takes a token: a trace that keeps the discipline has no
    more dispatches than granted checks, but for the token in hand at
    its start. *)
Lemma dispatched_le_tokens (added : list event) : forall p p',
  follow p added = Some p' ->
  (dispatched added
   <= tokens added + match p with Granted => 1 | _ => 0 end)%nat.
Proof.
  induction added as [|e added IH]; intros p p' H; [destruct p; cbn; lia|].
  simpl in H. destruct (advance p e) as [p1|] eqn:E; [|discriminate].
  specialize (IH _ _ H).
  change (e :: added) with ([e] ++ added).
  rewrite dispatched_app, tokens_app.
  destruct e as [| |[|]| | | | | | | | | | |]; simpl in E;
    destruct p; try discriminate; injection E as <-;
    cbn in *; lia.
Qed.

(** *** The rules of [orderly] *)

Lemma orderly_ret (A : Type) (a : A) (p : phase) :
  orderly (ret a) p 0 (fun r p' => r = Ok a /\ p' = p).
Proof.
  intros w. exists (Ok a), w, []. rewrite app_nil_r.
  repeat split; auto. exists p. auto.
Qed.

Lemma orderly_weaken (A : Type) (m : M A) (p : phase) (n n' : nat)
  (q q' : result A -> phase -> Prop) :
  orderly m p n q ->
  (forall r p', q r p' -> q' r p') -> (n <= n')%nat ->
  orderly m p n' q'.
Proof.
  intros Hm Hq Hn w.
  destruct (Hm w) as (r & w' & added & Hrun & Htrace & Hcount & Hchecks
                      & p' & Hfollow & Hpost).
  exists r, w', added. repeat split; auto; [lia|].
  exists p'. auto.
Qed.

Lemma orderly_bind (A B : Type) (m : M A) (k : A -> M B) (p : phase)
  (n1 n2 n : nat) (q1 : result A -> phase -> Prop)
  (q2 : result B -> phase -> Prop) :
  orderly m p n1 q1 ->
  (forall a p1, q1 (Ok a) p1 -> orderly (k a) p1 n2 q2) ->
  (forall e p1, q1 (Raise e) p1 -> q2 (Raise e) p1) ->
  (n1 + n2 <= n)%nat ->
  orderly (bind m k) p n q2.
Proof.
  intros Hm Hk Hraise Hn w. unfold bind.
  destruct (Hm w) as (r & w1 & added & Hrun & Htrace & Hcount & Hchecks
                      & p1 & Hfollow & Hpost).
  rewrite Hrun. destruct r as [a|e].
  - destruct (Hk a p1 Hpost w1)
      as (r & w2 & more & Hrun2 & Htrace2 & Hcount2 & Hchecks2
          & p2 & Hfollow2 & Hpost2).
    exists r, w2, (added ++ more). rewrite Hrun2.
    split; [reflexivity|]. split; [now rewrite Htrace2, Htrace, app_assoc|].
    split; [rewrite dispatched_app; lia|].
    split; [rewrite checks_app; lia|].
    exists p2. now rewrite follow_app, Hfollow.
  - exists (Raise e), w1, added.
    split; [reflexivity|]. split; [exact Htrace|]. split; [exact Hcount|].
    split; [lia|]. exists p1. auto.
Qed.

Lemma orderly_try (A : Type) (body : M A) (handler : exn -> M A)
  (p : phase) (n1 n2 n : nat) (q1 q2 : result A -> phase -> Prop) :
  orderly body p n1 q1 ->
  (forall e p1, q1 (Raise e) p1 -> orderly (handler e) p1 n2 q2) ->
  (forall a p1, q1 (Ok a) p1 -> q2 (Ok a) p1) ->
  (n1 + n2 <= n)%nat ->
  orderly (try_except body handler) p n q2.
Proof.
  intros Hm Hk Hok Hn w. unfold try_except.
  destruct (Hm w) as (r & w1 & added & Hrun & Htrace & Hcount & Hchecks
                      & p1 & Hfollow & Hpost).
  rewrite Hrun. destruct r as [a|e].
  - exists (Ok a), w1, added.
    split; [reflexivity|]. split; [exact Htrace|]. split; [exact Hcount|].
    split; [lia|]. exists p1. auto.
  - destruct (Hk e p1 Hpost w1)
      as (r & w2 & more & Hrun2 & Htrace2 & Hcount2 & Hchecks2
          & p2 & Hfollow2 & Hpost2).
    exists r, w2, (added ++ more). rewrite Hrun2.
    split; [reflexivity|]. split; [now rewrite Htrace2, Htrace, app_assoc|].
    split; [rewrite dispatched_app; lia|].
    split; [rewrite checks_app; lia|].
    exists p2. now rewrite follow_app, Hfollow.
Qed.

(** A step that ends in [w'] with one event [e] more on the trace. *)
Lemma orderly_step (A : Type) (m : M A) (p p1 : phase) (n : nat) (e : event)
  (q : result A -> phase -> Prop) :
  advance p e = Some p1 ->
  (checks [e] <= n)%nat ->
  (forall w, exists r w',
      m w = Some (r, w')
      /\ w'.(trace) = w.(trace) ++ [e]
      /\ w'.(dispatches) = (w.(dispatches) + dispatched [e])%nat
      /\ q r p1) ->
  orderly m p n q.
Proof.
  intros Hadvance Hn Hm w.
  destruct (Hm w) as (r & w' & Hrun & Htrace & Hcount & Hpost).
  exists r, w', [e]. repeat split; auto.
  exists p1. simpl. rewrite Hadvance. auto.
Qed.

Lemma orderly_emit (e : event) (p : phase) :
  neutral e -> orderly (emit e) p 0 (fun r p' => r = Ok tt /\ p' = p).
Proof.
  intros (Hadvance & Hchecks & Hcount).
  apply orderly_step with (p1 := p) (e := e); auto; [lia|].
  intros w. eexists _, _. split; [reflexivity|]. simpl.
  rewrite Hcount. repeat split; auto.
Qed.

Lemma orderly_sleep (seconds : Z) (p : phase) :
  orderly (sleep seconds) p 0 (fun r p' => r = Ok tt /\ p' = p).
Proof.
  intros w. eexists _, _, []. split; [reflexivity|]. simpl.
  rewrite app_nil_r. repeat split; auto. exists p. auto.
Qed.

Lemma orderly_wait_for_token (p : phase) :
  orderly wait_for_token p 1
    (fun r p' =>
       exists granted,
         r = Ok granted /\ p' = if granted then Granted else Idle).
Proof.
  intros w.
  destruct (wait_for_token_runs w) as (granted & limiter & ended & Hrun).
  rewrite Hrun. eexists _, _, [WaitForToken granted].
  split; [reflexivity|]. simpl. repeat split; auto.
  eexists. split; [reflexivity|]. exists granted. auto.
Qed.

Lemma orderly_get_wait_time (p : phase) :
  orderly get_wait_time p 0 (fun _ p' => p' = p).
Proof.
  intros w. eexists _, _, []. split; [reflexivity|].
  rewrite app_nil_r. repeat split; auto. exists p. auto.
Qed.

Lemma orderly_database_call (A : Type) (e : event)
  (done : world -> A * list conversation) (p : phase) :
  neutral e -> orderly (database_call env e done) p 0 (fun _ p' => p' = p).
Proof.
  intros (Hadvance & Hchecks & Hcount).
  apply orderly_step with (p1 := p) (e := e); auto; [lia|].
  intros w. unfold database_call.
  destruct (database env (database_calls w)).
  - eexists _, _. split; [reflexivity|]. simpl. rewrite Hcount. auto.
  - destruct (done w) as [a rows].
    eexists _, _. split; [reflexivity|]. simpl. rewrite Hcount. auto.
Qed.

Lemma orderly_generate_content model prompt images :
  orderly (generate_content env model prompt images) Granted 0
    (fun _ p' => p' = Dispatched).
Proof.
  apply orderly_step with (p1 := Dispatched) (e := Dispatch model prompt images);
    auto.
  intros w. unfold generate_content.
  destruct (backend env (dispatches w));
    (eexists _, _; split; [reflexivity|]; unfold dispatched; simpl;
     repeat split; auto; lia).
Qed.

Lemma orderly_cache_set key value :
  orderly (cache_set key value) Dispatched 0 (fun _ p' => p' = Idle).
Proof.
  apply orderly_step with (p1 := Idle) (e := CacheSet key value); auto.
  intros w. unfold cache_set.
  destruct (CacheManager.set (cache w) key value (clock w)) as [outcome stored].
  eexists _, _. split; [reflexivity|]. unfold dispatched. simpl.
  repeat split; auto; lia.
Qed.

Lemma orderly_cache_get key (p : phase) :
  orderly (cache_get key) p 0 (fun r p' => (exists found, r = Ok found) /\ p' = p).
Proof.
  apply orderly_step with (p1 := p) (e := CacheGet key); auto.
  intros w. unfold cache_get.
  destruct (CacheManager.get (cache w) key (clock w)) as [found changed].
  eexists _, _. split; [reflexivity|]. unfold dispatched. simpl.
  repeat split; eauto; lia.
Qed.

Lemma orderly_process_images paths (p : phase) :
  orderly (_process_images env paths) p 0
    (fun r p' => (exists images, r = Ok images) /\ p' = p).
Proof.
  induction paths as [|path paths IH]; simpl.
  - eapply orderly_weaken; [apply orderly_ret| |lia].
    intros r p' [-> ->]. eauto.
  - destruct (image_error env path) as [message|].
    + eapply orderly_bind with (n1 := 0%nat) (n2 := 0%nat);
        [apply orderly_emit; now cbv| | |lia].
      * intros [] p1 [_ ->]. exact IH.
      * intros e p1 [H _]. discriminate.
    + eapply orderly_bind with (n1 := 0%nat) (n2 := 0%nat);
        [exact IH| | |lia].
      * intros images p1 [_ ->].
        eapply orderly_weaken; [apply orderly_ret| |lia].
        intros r p' [-> ->]. eauto.
      * intros e p1 [[images H] _]. discriminate.
Qed.

Lemma orderly_save_temp_response text (p : phase) :
  orderly (_save_temp_response env text) p 0
    (fun r p' => (exists saved, r = Ok saved) /\ p' = p).
Proof.
  unfold _save_temp_response.
  eapply orderly_bind with (n1 := 0%nat) (n2 := 0%nat);
    [apply orderly_emit; now cbv| | |lia].
  - intros [] p1 [_ ->]. destruct (save_error env text) as [message|].
    + eapply orderly_bind with (n1 := 0%nat) (n2 := 0%nat);
        [apply orderly_emit; now cbv| | |lia].
      * intros [] p1 [_ ->].
        eapply orderly_weaken; [apply orderly_ret| |lia].
        intros r p' [-> ->]. eauto.
      * intros e p1 [H _]. discriminate.
    + eapply orderly_weaken; [apply orderly_ret| |lia].
      intros r p' [-> ->]. eauto.
  - intros e p1 [H _]. discriminate.
Qed.

Lemma orderly_attempt question image_paths cache_key (p : phase) :
  orderly (attempt env question image_paths cache_key) p 1
    (fun _ _ => True).
Proof.
  unfold attempt.
  eapply orderly_bind with (n1 := 1%nat) (n2 := 0%nat);
    [apply orderly_wait_for_token| |auto|lia].
  intros granted p1 (g & [= <-] & ->). destruct granted; cbn [negb].
  2:{ eapply orderly_bind with (n1 := 0%nat) (n2 := 0%nat);
        [apply orderly_get_wait_time| |auto|lia].
      intros waits p1 ->.
      eapply orderly_weaken; [apply orderly_ret|auto|lia]. }
  eapply orderly_bind with (n1 := 0%nat) (n2 := 0%nat);
    [apply orderly_database_call; now cbv| |auto|lia].
  intros historico p1 ->.
  eapply orderly_bind with (n1 := 0%nat) (n2 := 0%nat)
                           (q1 := fun _ p' => p' = Dispatched);
    [| |auto|lia].
  { destruct (attached image_paths) as [|path rest].
    - apply orderly_generate_content.
    - eapply orderly_bind with (n1 := 0%nat) (n2 := 0%nat);
        [apply orderly_process_images| | |lia].
      + intros images p1 [_ ->]. apply orderly_generate_content.
      + intros e p1 [[images H] _]. discriminate. }
  intros [text flagged] p1 ->.
  destruct (Str.truthy text).
  2:{ destruct flagged;
        (eapply orderly_weaken; [apply orderly_ret|auto|lia]). }
  eapply orderly_bind with (n1 := 0%nat) (n2 := 0%nat);
    [apply orderly_cache_set| |auto|lia].
  intros [] p1 ->.
  eapply orderly_bind with (n1 := 0%nat) (n2 := 0%nat);
    [apply orderly_database_call; now cbv| |auto|lia].
  intros [] p1 ->.
  eapply orderly_bind with (n1 := 0%nat) (n2 := 0%nat);
    [apply orderly_save_temp_response| |auto|lia].
  intros saved p1 [_ ->].
  eapply orderly_weaken; [apply orderly_ret|auto|lia].
Qed.

Lemma orderly_retry_loop question image_paths cache_key (max_retries : Z)
  (remaining : nat) : forall (retries : Z) last_error (p : phase),
  orderly (retry_loop env question image_paths cache_key max_retries
                      remaining retries last_error)
          p remaining (fun _ _ => True).
Proof.
  induction remaining as [|remaining IH]; intros retries last_error p;
    cbn [retry_loop].
  - eapply orderly_bind with (n1 := 0%nat) (n2 := 0%nat);
      [apply orderly_emit; now cbv| |auto|lia].
    intros [] p1 _.
    eapply orderly_weaken; [apply orderly_ret|auto|lia].
  - eapply orderly_try with (n1 := 1%nat) (n2 := remaining);
      [apply orderly_attempt| |auto|lia].
    intros e p1 _.
    eapply orderly_bind with (n1 := 0%nat) (n2 := remaining);
      [apply orderly_emit; now cbv| |auto|lia].
    intros [] p2 [_ ->].
    eapply orderly_bind with (n1 := 0%nat) (n2 := remaining)
                             (q1 := fun _ _ => True);
      [| |auto|lia].
    + destruct (retries + 1 <? max_retries)%Z.
      * eapply orderly_bind with (n1 := 0%nat) (n2 := 0%nat);
          [apply orderly_emit; now cbv| |auto|lia].
        intros [] p3 [_ ->].
        eapply orderly_bind with (n1 := 0%nat) (n2 := 0%nat);
          [apply orderly_emit; now cbv| |auto|lia].
        intros [] p3 [_ ->].
        eapply orderly_weaken; [apply orderly_sleep|auto|lia].
      * eapply orderly_weaken; [apply orderly_ret|auto|lia].
    + intros [] p3 _. apply IH.
Qed.

Lemma orderly_web_search question (p : phase) :
  orderly (web_search env question) p 0 (fun _ _ => True).
Proof.
  intros w.
  destruct (web_search_outcome env question w)
    as (text & added & Hrun & Hadded).
  exists (Ok text), (traced w added), added.
  split; [exact Hrun|]. split; [reflexivity|].
  destruct Hadded as [->|[url ->]]; unfold dispatched, checks; simpl;
    (split; [lia|]); (split; [lia|]); eauto.
Qed.

Lemma orderly_send_query question image_paths (max_retries : Z) :
  orderly (send_query env question image_paths max_retries)
          Idle (Z.to_nat max_retries) (fun _ _ => True).
Proof.
  unfold send_query. destruct (searches_web question).
  - eapply orderly_weaken; [apply orderly_web_search|auto|lia].
  - eapply orderly_bind with (n1 := 0%nat) (n2 := Z.to_nat max_retries);
      [apply orderly_cache_get| |auto|lia].
    intros cached p1 [_ ->].
    assert (Hmiss : orderly
                      (retry_loop env question image_paths
                         (_generate_cache_key env question image_paths)
                         max_retries (Z.to_nat max_retries) 0 None)
                      Idle (Z.to_nat max_retries) (fun _ _ => True))
      by apply orderly_retry_loop.
    destruct cached as [[|c rest]|]; auto.
    eapply orderly_bind with (n1 := 0%nat) (n2 := 0%nat);
      [apply orderly_database_call; now cbv| |auto|lia].
    intros [] p1 ->.
    eapply orderly_weaken; [apply orderly_ret|auto|lia].
Qed.

(** X13. The backend is called only with a token.  Every call of
    [send_query] ends; in what it adds to the trace every dispatch comes
    after an admission check that was granted, with no other dispatch in
    between, and every write of the cache comes after a dispatch, with
    no other write in between.  There are no more dispatches than
    granted checks and no more checks than [max_retries], and the
    counter of dispatches moves by the dispatches of the trace. *)
Theorem backend_called_only_with_token
  question image_paths (max_retries : Z) w :
  exists r w' added,
    send_query env question image_paths max_retries w = Some (r, w')
    /\ w'.(trace) = w.(trace) ++ added
    /\ (exists p, follow Idle added = Some p)
    /\ (dispatched added <= tokens added)%nat
    /\ (tokens added <= checks added)%nat
    /\ (checks added <= Z.to_nat max_retries)%nat
    /\ w'.(dispatches) = (w.(dispatches) + dispatched added)%nat.
Proof.
  destruct (orderly_send_query question image_paths max_retries w)
    as (r & w' & added & Hrun & Htrace & Hcount & Hchecks
        & p & Hfollow & _).
  exists r, w', added.
  split; [exact Hrun|]. split; [exact Htrace|]. split; [now exists p|].
  split; [|split; [apply tokens_le_checks|split; [exact Hchecks|exact Hcount]]].
  pose proof (@dispatched_le_tokens added Idle p Hfollow) as H.
  simpl in H. lia.
Qed.

End Discipline.

(** ** A denial and a reply without a text *)

Section Endings.

Import GeminiClient.

Variable env : environment.

(** X15. A denial is not retried.  When the cache has no answer and
    [wait_for_token] returns [False], [send_query] returns the message
    of the waits at once: the backend is not called, nothing is written
    to the cache or to the history, there is no other turn.  The call
    has lasted ten seconds or more, and the limiter has lost only
    the requests that have aged out. *)
Theorem denial_is_not_retried question image_paths (max_retries : Z) w
  limiter (ended : Q) waits :
  searches_web question = false ->
  cached_answer w (_generate_cache_key env question image_paths) = None ->
  (1 <= max_retries)%Z ->
  RateLimiter.wait_for_token 101 w.(rate_limiter) (Some 10) w.(clock)
  = Some (false, limiter, ended) ->
  RateLimiter.get_wait_time limiter ended = Ok waits ->
  send_query env question image_paths max_retries w
  = Some (Ok (unavailable env waits),
          mk_world ended
            (snd (CacheManager.get w.(cache)
                    (_generate_cache_key env question image_paths)
                    w.(clock)))
            limiter w.(history) w.(dispatches) w.(database_calls)
            (w.(trace)
             ++ [CacheGet (_generate_cache_key env question image_paths);
                 WaitForToken false]))
  /\ w.(clock) + 10 <= ended
  /\ limiter = RateLimiter.cleaned w.(rate_limiter) ended.
Proof.
  intros Hweb Hmiss Hretries Hwait Hwaits. split.
  - rewrite send_query_missed by assumption.
    set (key := _generate_cache_key env question image_paths).
    destruct (Z.to_nat max_retries) as [|remaining] eqn:E; [lia|].
    cbn [retry_loop]. unfold try_except, attempt, bind at 1.
    unfold wait_for_token at 1, after_get.
    cbn [rate_limiter clock cache history dispatches database_calls trace].
    rewrite Hwait. cbn [negb]. unfold bind, get_wait_time, ret.
    cbn [rate_limiter clock]. rewrite Hwaits.
    now rewrite <- app_assoc.
  - unfold RateLimiter.wait_for_token in Hwait.
    destruct (@poll_spec 10 w.(clock) 101 w.(rate_limiter) w.(clock))
      as (granted & limiter' & ended' & Hrun & _ & _ & _ & Hdenied).
    + apply Qle_refl.
    + left. reflexivity.
    + lia.
    + change (inject_Z (Z.of_nat 101)) with 101. lra.
    + rewrite Hrun in Hwait. injection Hwait as -> -> ->.
      destruct (Hdenied eq_refl) as [Hlate ->]. split; [lra|reflexivity].
Qed.

(** X16. A reply without a text is final.  When the cache has no
    answer, the token is granted at once, the history is read and the
    backend replies without a text, [send_query] returns one of two
    fixed messages, the one of a blocked reply when the reply is
    flagged.  The backend was called once, the clock has not moved, and
    nothing was written to the cache or to the history. *)
Theorem reply_without_text_is_final
  question image_paths (max_retries : Z) w (flagged : bool) :
  searches_web question = false ->
  cached_answer w (_generate_cache_key env question image_paths) = None ->
  (1 <= max_retries)%Z ->
  fst (RateLimiter.try_acquire w.(rate_limiter) w.(clock) w.(clock)) = true ->
  database env w.(database_calls) = None ->
  backend env w.(dispatches) = BackendReplies EmptyString flagged ->
  exists w',
    send_query env question image_paths max_retries w
    = Some (Ok (no_text_answer flagged), w')
    /\ w'.(cache)
       = snd (CacheManager.get w.(cache)
                (_generate_cache_key env question image_paths) w.(clock))
    /\ w'.(history) = w.(history)
    /\ w'.(dispatches) = S w.(dispatches)
    /\ w'.(database_calls) = S w.(database_calls)
    /\ w'.(clock) = w.(clock).
Proof.
  intros Hweb Hmiss Hretries Hgrant Hread Hreply.
  rewrite send_query_missed by assumption.
  set (key := _generate_cache_key env question image_paths).
  destruct (Z.to_nat max_retries) as [|remaining] eqn:E; [lia|].
  cbn [retry_loop]. unfold try_except.
  assert (Hturn : exists w',
             attempt env question image_paths key (after_get w key)
             = Some (Ok (no_text_answer flagged), w')
             /\ w'.(cache) = snd (CacheManager.get w.(cache) key w.(clock))
             /\ w'.(history) = w.(history)
             /\ w'.(dispatches) = S w.(dispatches)
             /\ w'.(database_calls) = S w.(database_calls)
             /\ w'.(clock) = w.(clock)).
  { unfold attempt.
    eapply bind_then; [apply wait_for_token_at_once; exact Hgrant|].
    simpl negb. cbv iota. unfold get_recent_conversations.
    eapply bind_then; [apply database_call_succeeds; exact Hread|].
    lazymatch goal with
    | |- exists w1, bind (match _ with
                          | [] => generate_content _ _ ?prompt _
                          | _ :: _ => _
                          end) _ ?w3 = _ /\ _ =>
        destruct (@dispatch_replies env image_paths prompt w3
                    EmptyString flagged Hreply)
          as (added & Hd)
    end.
    eapply bind_then; [exact Hd|].
    cbv beta iota. cbn [Str.truthy].
    destruct flagged; (eexists; split; [reflexivity|]; simpl; auto). }
  destruct Hturn as (w' & Hrun & Hrest). rewrite Hrun.
  exists w'. split; [reflexivity|exact Hrest].
Qed.

End Endings.

Lemma denial_is_not_retried_witness :
  GeminiClient.send_query Samples.answers "What is this?" None 3 Samples.busy
  = Some (Ok (GeminiClient.unavailable Samples.answers Samples.busy_waits),
          GeminiClient.mk_world (snd Samples.busy_wait)
            (snd (CacheManager.get (GeminiClient.cache Samples.busy)
                    (GeminiClient._generate_cache_key Samples.answers "What is this?" None)
                    (GeminiClient.clock Samples.busy)))
            (snd (fst Samples.busy_wait))
            (GeminiClient.history Samples.busy) (GeminiClient.dispatches Samples.busy)
            (GeminiClient.database_calls Samples.busy)
            (GeminiClient.trace Samples.busy
             ++ [GeminiClient.CacheGet
                   (GeminiClient._generate_cache_key Samples.answers "What is this?" None);
                 GeminiClient.WaitForToken false]))
  /\ GeminiClient.clock Samples.busy + 10 <= snd Samples.busy_wait
  /\ snd (fst Samples.busy_wait)
     = RateLimiter.cleaned (GeminiClient.rate_limiter Samples.busy)
                           (snd Samples.busy_wait).
Proof.
  apply (@denial_is_not_retried Samples.answers "What is this?" None 3
           Samples.busy (snd (fst Samples.busy_wait))
           (snd Samples.busy_wait) Samples.busy_waits).
  - vm_compute. reflexivity.
  - vm_compute. reflexivity.
  - lia.
  - vm_compute. reflexivity.
  - vm_compute. reflexivity.
Defined.

Lemma reply_without_text_is_final_witness :
  exists w',
    GeminiClient.send_query (Samples.no_text true) "What is this?" None 3 Samples.fresh
    = Some (Ok (GeminiClient.no_text_answer true), w')
    /\ GeminiClient.cache w'
       = snd (CacheManager.get (GeminiClient.cache Samples.fresh)
                (GeminiClient._generate_cache_key (Samples.no_text true)
                   "What is this?" None)
                (GeminiClient.clock Samples.fresh))
    /\ GeminiClient.history w' = GeminiClient.history Samples.fresh
    /\ GeminiClient.dispatches w' = S (GeminiClient.dispatches Samples.fresh)
    /\ GeminiClient.database_calls w' = S (GeminiClient.database_calls Samples.fresh)
    /\ GeminiClient.clock w' = GeminiClient.clock Samples.fresh.
Proof.
  apply (@reply_without_text_is_final (Samples.no_text true)
           "What is this?" None 3 Samples.fresh true).
  - vm_compute. reflexivity.
  - vm_compute. reflexivity.
  - lia.
  - vm_compute. reflexivity.
  - reflexivity.
  - reflexivity.
Defined.

(** ** The time a query sleeps *)

Section Sleeps.

Import GeminiClient.

Variable env : environment.

Lemma lasts_weaken (A : Type) (m : M A) (d d' : Q) :
  lasts m d -> d <= d' -> lasts m d'.
Proof.
  intros Hm Hd w. destruct (Hm w) as (r & w' & Hrun & Hfwd & Hlate).
  exists r, w'. repeat split; auto. lra.
Qed.

(** A computation that leaves the clock as it is. *)
Lemma lasts_instant (A : Type) (m : M A) :
  (forall w, exists r w', m w = Some (r, w') /\ clock w' = clock w) ->
  lasts m 0.
Proof.
  intros Hm w. destruct (Hm w) as (r & w' & Hrun & Hclock).
  exists r, w'. rewrite Hclock. repeat split; auto; lra.
Qed.

Lemma lasts_ret (A : Type) (a : A) : lasts (ret a) 0.
Proof. apply lasts_instant. intros w. now exists (Ok a), w. Qed.

Lemma lasts_bind (A B : Type) (m : M A) (k : A -> M B) (d1 d2 d : Q) :
  lasts m d1 -> (forall a, lasts (k a) d2) -> 0 <= d2 -> d1 + d2 <= d ->
  lasts (bind m k) d.
Proof.
  intros Hm Hk Hpos Hd w. unfold bind.
  destruct (Hm w) as (r & w1 & Hrun & Hfwd & Hlate). rewrite Hrun.
  destruct r as [a|e].
  - destruct (Hk a w1) as (r & w2 & Hrun2 & Hfwd2 & Hlate2).
    exists r, w2. repeat split; auto; lra.
  - exists (Raise e), w1. repeat split; auto; lra.
Qed.

Lemma lasts_try (A : Type) (body : M A) (handler : exn -> M A)
  (d1 d2 d : Q) :
  lasts body d1 -> (forall e, lasts (handler e) d2) -> 0 <= d2 ->
  d1 + d2 <= d ->
  lasts (try_except body handler) d.
Proof.
  intros Hm Hk Hpos Hd w. unfold try_except.
  destruct (Hm w) as (r & w1 & Hrun & Hfwd & Hlate). rewrite Hrun.
  destruct r as [a|e].
  - exists (Ok a), w1. repeat split; auto; lra.
  - destruct (Hk e w1) as (r & w2 & Hrun2 & Hfwd2 & Hlate2).
    exists r, w2. repeat split; auto; lra.
Qed.

Lemma lasts_emit (e : event) : lasts (emit e) 0.
Proof. apply lasts_instant. intros w. eexists _, _. split; reflexivity. Qed.

Lemma lasts_sleep (seconds : Z) :
  (0 <= seconds)%Z -> lasts (sleep seconds) (inject_Z seconds).
Proof.
  intros Hpos w. eexists _, _. split; [reflexivity|]. simpl.
  assert (H : 0 <= inject_Z seconds).
  { change 0 with (inject_Z 0). now rewrite <- Zle_Qle. }
  split; lra.
Qed.

Lemma lasts_cache_get key : lasts (cache_get key) 0.
Proof.
  apply lasts_instant. intros w. unfold cache_get.
  destruct (CacheManager.get (cache w) key (clock w)).
  eexists _, _. split; reflexivity.
Qed.

Lemma lasts_cache_set key value : lasts (cache_set key value) 0.
Proof.
  apply lasts_instant. intros w. unfold cache_set.
  destruct (CacheManager.set (cache w) key value (clock w)).
  eexists _, _. split; reflexivity.
Qed.

Lemma lasts_database_call (A : Type) (e : event)
  (done : world -> A * list conversation) :
  lasts (database_call env e done) 0.
Proof.
  apply lasts_instant. intros w. unfold database_call.
  destruct (database env (database_calls w)).
  - eexists _, _. split; reflexivity.
  - destruct (done w). eexists _, _. split; reflexivity.
Qed.

Lemma lasts_generate_content model prompt images :
  lasts (generate_content env model prompt images) 0.
Proof.
  apply lasts_instant. intros w. unfold generate_content.
  destruct (backend env (dispatches w)); eexists _, _; split; reflexivity.
Qed.

Lemma lasts_get_wait_time : lasts get_wait_time 0.
Proof. apply lasts_instant. intros w. eexists _, _. split; reflexivity. Qed.

Lemma lasts_process_images paths : lasts (_process_images env paths) 0.
Proof.
  apply lasts_instant. intros w.
  destruct (process_images_runs env paths w) as (added & Hrun).
  rewrite Hrun. eexists _, _. split; reflexivity.
Qed.

Lemma lasts_save_temp_response text :
  lasts (_save_temp_response env text) 0.
Proof.
  apply lasts_instant. intros w.
  destruct (save_temp_response_runs env text w) as (saved & added & Hrun).
  rewrite Hrun. eexists _, _. split; reflexivity.
Qed.

Lemma lasts_wait_for_token : lasts wait_for_token (101 # 10).
Proof.
  intros w. unfold wait_for_token, RateLimiter.wait_for_token.
  destruct (@poll_spec 10 (clock w) 101 (rate_limiter w) (clock w))
    as (granted & limiter & ended & Hrun & Hfwd & Hlate & _).
  - apply Qle_refl.
  - left. reflexivity.
  - lia.
  - change (inject_Z (Z.of_nat 101)) with 101. lra.
  - rewrite Hrun. eexists _, _. split; [reflexivity|]. simpl.
    split; [exact Hfwd|].
    assert (Hmax : Qmax 10 0 == 10) by (apply Q.max_l; lra).
    rewrite Hmax in Hlate. lra.
Qed.

Ltac instantly :=
  first [ apply lasts_ret | apply lasts_emit | apply lasts_cache_get
        | apply lasts_cache_set | apply lasts_database_call
        | apply lasts_generate_content | apply lasts_get_wait_time
        | apply lasts_process_images | apply lasts_save_temp_response ].

Ltac and_then :=
  eapply lasts_bind with (d1 := 0) (d2 := 0); [instantly| |lra|lra]; intros ?.

Lemma lasts_attempt question image_paths cache_key :
  lasts (attempt env question image_paths cache_key) (101 # 10).
Proof.
  unfold attempt.
  eapply lasts_bind with (d1 := 101 # 10) (d2 := 0);
    [apply lasts_wait_for_token| |lra|lra].
  intros granted. destruct granted; cbn [negb].
  2:{ and_then. instantly. }
  unfold get_recent_conversations. and_then.
  eapply lasts_bind with (d1 := 0) (d2 := 0); [| |lra|lra].
  { destruct (attached image_paths) as [|path rest]; [instantly|].
    and_then. instantly. }
  intros [text flagged]. destruct (Str.truthy text).
  2:{ destruct flagged; instantly. }
  and_then. unfold add_conversation. and_then. and_then. instantly.
Qed.

Lemma budget_nonnegative (remaining : nat) : forall retries,
  0 <= budget retries remaining.
Proof.
  induction remaining as [|remaining IH]; intros retries; simpl; [lra|].
  destruct remaining as [|more]; [lra|].
  specialize (IH (retries + 1)%Z).
  assert (H : 0 <= inject_Z (2 ^ (retries + 1))).
  { change 0 with (inject_Z 0). rewrite <- Zle_Qle.
    apply Z.pow_nonneg. lia. }
  lra.
Qed.

Lemma lasts_retry_loop question image_paths cache_key (max_retries : Z)
  (remaining : nat) : forall (retries : Z) last_error,
  (remaining <> O -> max_retries = (retries + Z.of_nat remaining)%Z) ->
  lasts (retry_loop env question image_paths cache_key max_retries
                    remaining retries last_error)
        (budget retries remaining).
Proof.
  induction remaining as [|remaining IH]; intros retries last_error Hmax;
    cbn [retry_loop].
  - simpl. and_then. instantly.
  - specialize (Hmax ltac:(discriminate)).
    pose proof (budget_nonnegative remaining (retries + 1)) as Hrest.
    assert (Hpow : 0 <= inject_Z (2 ^ (retries + 1))).
    { change 0 with (inject_Z 0). rewrite <- Zle_Qle.
      apply Z.pow_nonneg. lia. }
    destruct remaining as [|more].
    + (* the last turn: no backoff after it *)
      assert (Hlast : (retries + 1 <? max_retries)%Z = false)
        by (apply Z.ltb_ge; lia).
      rewrite Hlast.
      eapply lasts_try with (d1 := 101 # 10) (d2 := 0);
        [apply lasts_attempt| |lra|cbn [budget]; lra].
      intros e. and_then. and_then. cbn [retry_loop]. and_then. instantly.
    + assert (Hmore : (retries + 1 <? max_retries)%Z = true)
        by (apply Z.ltb_lt; lia).
      rewrite Hmore.
      eapply lasts_try with
        (d1 := 101 # 10)
        (d2 := inject_Z (2 ^ (retries + 1)) + budget (retries + 1) (S more));
        [apply lasts_attempt| |lra|cbn [budget]; lra].
      intros e.
      eapply lasts_bind with
        (d1 := 0)
        (d2 := inject_Z (2 ^ (retries + 1)) + budget (retries + 1) (S more));
        [apply lasts_emit| |lra|lra].
      intros [].
      eapply lasts_bind with (d1 := inject_Z (2 ^ (retries + 1)))
                             (d2 := budget (retries + 1) (S more));
        [| |exact Hrest|lra].
      * eapply lasts_bind with (d1 := 0) (d2 := inject_Z (2 ^ (retries + 1)));
          [apply lasts_emit| |exact Hpow|lra].
        intros [].
        eapply lasts_bind with (d1 := 0) (d2 := inject_Z (2 ^ (retries + 1)));
          [apply lasts_emit| |exact Hpow|lra].
        intros []. apply lasts_sleep. apply Z.pow_nonneg. lia.
      * intros []. apply IH. intros _. lia.
Qed.

(** The sleeps of [n] turns from the start: [n] admission checks and the
    backoffs [2], [4], ... between them. *)
Lemma budget_closed (more : nat) : forall retries,
  (0 <= retries)%Z ->
  budget retries (S more)
  == inject_Z (Z.of_nat (S more)) * (101 # 10)
     + inject_Z (2 ^ (retries + Z.of_nat (S more)))
     - inject_Z (2 ^ (retries + 1)).
Proof.
  induction more as [|more IH]; intros retries Hpos.
  - cbn [budget]. replace (retries + Z.of_nat 1)%Z with (retries + 1)%Z by lia.
    change (inject_Z (Z.of_nat 1)) with 1. lra.
  - cbn [budget]. cbn [budget] in IH.
    rewrite (IH (retries + 1)%Z) by lia.
    replace (retries + 1 + Z.of_nat (S more))%Z
      with (retries + Z.of_nat (S (S more)))%Z by lia.
    replace (retries + 1 + 1)%Z with (Z.succ (retries + 1)) by lia.
    rewrite Z.pow_succ_r by lia.
    rewrite (Nat2Z.inj_succ (S more)), <- Z.add_1_r.
    rewrite !inject_Z_plus, inject_Z_mult.
    change (inject_Z 2) with 2. change (inject_Z 1) with 1. lra.
Qed.

(** X17. The time a query sleeps.  The clock of the model moves in
    [time.sleep] only.  A call that may take [max_retries] turns ends
    and has slept no longer than [max_retries] admission checks of ten
    seconds and a tenth, and the backoffs of 2, 4, ... seconds between
    the turns: 36.3 seconds for the three turns of the default. *)
Theorem send_query_sleeps_at_most question image_paths (max_retries : Z) w :
  (1 <= max_retries)%Z ->
  exists r w',
    send_query env question image_paths max_retries w = Some (r, w')
    /\ w.(clock) <= w'.(clock)
    /\ w'.(clock) - w.(clock)
       <= inject_Z max_retries * (101 # 10) + inject_Z (2 ^ max_retries) - 2.
Proof.
  intros Hretries.
  assert (Hbudget : budget 0 (Z.to_nat max_retries)
                    == inject_Z max_retries * (101 # 10)
                       + inject_Z (2 ^ max_retries) - 2).
  { destruct (Z.to_nat max_retries) as [|more] eqn:E; [lia|].
    rewrite budget_closed by lia. rewrite <- E, Z2Nat.id by lia.
    change (inject_Z (2 ^ (0 + 1))) with 2.
    now rewrite Z.add_0_l. }
  assert (Hlasts : lasts (send_query env question image_paths max_retries)
                         (budget 0 (Z.to_nat max_retries))).
  { pose proof (budget_nonnegative (Z.to_nat max_retries) 0) as Hpos.
    unfold send_query. destruct (searches_web question).
    - intros w0.
      destruct (web_search_outcome env question w0)
        as (text & added & Hrun & _).
      exists (Ok text), (traced w0 added). split; [exact Hrun|].
      simpl. split; lra.
    - eapply lasts_bind with (d1 := 0); [apply lasts_cache_get| |exact Hpos|lra].
      intros cached.
      assert (Hmiss : lasts
                        (retry_loop env question image_paths
                           (_generate_cache_key env question image_paths)
                           max_retries (Z.to_nat max_retries) 0 None)
                        (budget 0 (Z.to_nat max_retries))).
      { apply lasts_retry_loop. intros _. rewrite Z2Nat.id; lia. }
      destruct cached as [[|c rest]|]; auto.
      eapply lasts_weaken; [|exact Hpos].
      unfold add_conversation. and_then. instantly. }
  destruct (Hlasts w) as (r & w' & Hrun & Hfwd & Hlate).
  exists r, w'. split; [exact Hrun|]. split; [exact Hfwd|].
  rewrite <- Hbudget. exact Hlate.
Qed.

End Sleeps.

Lemma send_query_sleeps_at_most_witness :
  exists r w',
    GeminiClient.send_query Samples.third_time_lucky "What is this?" None 3
                            Samples.fresh
    = Some (r, w')
    /\ GeminiClient.clock Samples.fresh <= GeminiClient.clock w'
    /\ GeminiClient.clock w' - GeminiClient.clock Samples.fresh
       <= inject_Z 3 * (101 # 10) + inject_Z (2 ^ 3) - 2.
Proof.
  apply (@send_query_sleeps_at_most Samples.third_time_lucky
           "What is this?" None 3 Samples.fresh).
  lia.
Defined.

(** ** The characters removed from a response *)

Section Sanitize.

Import GeminiClient.

Lemma prefix_empty (s : string) : String.prefix EmptyString s = true.
Proof. now destruct s. Qed.

Lemma contains_char (c : ascii) (s : string) :
  Str.contains (String c EmptyString) s = true
  <-> In c (list_ascii_of_string s).
Proof.
  induction s as [|a rest IH]; simpl.
  - split; [discriminate|contradiction].
  - destruct (ascii_dec c a) as [->|Hne].
    + rewrite prefix_empty. split; auto.
    + simpl. rewrite IH. split; [auto|]. intros [H|H]; [congruence|auto].
Qed.

Lemma replace_from_sub (old : string) (c : ascii) (s : string) :
  forall skip,
  In c (list_ascii_of_string (Str.replace_from skip old EmptyString s)) ->
  In c (list_ascii_of_string s).
Proof.
  induction s as [|a rest IH]; intros skip;
    cbn [Str.replace_from list_ascii_of_string append]; auto.
  destruct skip as [|skip].
  - destruct (String.prefix old (String a rest));
      cbn [list_ascii_of_string append].
    + intros H. right. eapply IH. exact H.
    + intros [H|H]; [now left|]. right. eapply IH. exact H.
  - intros H. right. eapply IH. exact H.
Qed.

Lemma replace_sub (old : string) (c : ascii) (s : string) :
  ~ In c (list_ascii_of_string s) ->
  ~ In c (list_ascii_of_string (Str.replace old EmptyString s)).
Proof. intros Hs H. apply Hs. eapply replace_from_sub. exact H. Qed.

Lemma replace_char_removes (c : ascii) (s : string) :
  ~ In c (list_ascii_of_string
            (Str.replace (String c EmptyString) EmptyString s)).
Proof.
  unfold Str.replace. induction s as [|a rest IH]; [simpl; auto|].
  cbn [Str.replace_from String.prefix String.length Nat.sub].
  destruct (ascii_dec c a) as [->|Hne].
  - rewrite prefix_empty. cbn [append]. exact IH.
  - cbn [list_ascii_of_string]. intros [H|H]; [congruence|auto].
Qed.

Lemma replace_from_length (old : string) (s : string) : forall skip,
  (String.length (Str.replace_from skip old EmptyString s)
   <= String.length s)%nat.
Proof.
  induction s as [|a rest IH]; intros skip;
    cbn [Str.replace_from String.length append]; auto.
  destruct skip as [|skip].
  - destruct (String.prefix old (String a rest));
      cbn [String.length append].
    + specialize (IH (String.length old - 1)%nat). lia.
    + specialize (IH O). lia.
  - specialize (IH skip). lia.
Qed.

Lemma absent_char (c : ascii) (s : string) :
  ~ In c (list_ascii_of_string s) ->
  Str.contains (String c EmptyString) s = false.
Proof.
  intros H. destruct (Str.contains (String c EmptyString) s) eqn:E; auto.
  apply contains_char in E. contradiction.
Qed.

(** X18. What [send_query] takes out of a response: in the text the
    loop of replacements leaves, there is no asterisk, no backquote, no
    double quote and no apostrophe, whatever the text was, and the text
    has not grown. *)
Theorem sanitize_leaves_no_marker (text : string) :
  Str.contains "*" (sanitize text) = false
  /\ Str.contains "`" (sanitize text) = false
  /\ Str.contains double_quote (sanitize text) = false
  /\ Str.contains "'" (sanitize text) = false
  /\ (String.length (sanitize text) <= String.length text)%nat.
Proof.
  unfold sanitize. cbn [fold_left].
  split; [|split; [|split; [|split]]].
  - apply absent_char. do 4 apply replace_sub. apply replace_char_removes.
  - apply absent_char. do 2 apply replace_sub. apply replace_char_removes.
  - apply absent_char. apply replace_sub. apply replace_char_removes.
  - apply absent_char. apply replace_char_removes.
  - unfold Str.replace.
    repeat (etransitivity; [apply replace_from_length|]). reflexivity.
Qed.

End Sanitize.

(** ** The key of a changed image *)

Section ChangedImage.

Import GeminiClient.

Lemma append_assoc (a b c : string) : ((a ++ b) ++ c = a ++ b ++ c)%string.
Proof. induction a as [|x a IH]; simpl; [reflexivity|now rewrite IH]. Qed.

Lemma append_empty (a : string) : (a ++ "")%string = a.
Proof. induction a as [|x a IH]; simpl; [reflexivity|now rewrite IH]. Qed.

Lemma append_inv_head (a b c : string) :
  (a ++ b = a ++ c)%string -> b = c.
Proof.
  induction a as [|x a IH]; simpl; [auto|]. intros [= H]. auto.
Qed.

Lemma append_inv_tail (c : string) : forall a b : string,
  (a ++ c = b ++ c)%string -> a = b.
Proof.
  induction a as [|x a IH]; intros [|y b] H; simpl in H.
  - reflexivity.
  - apply (f_equal String.length) in H. simpl in H.
    rewrite string_length_append in H. lia.
  - apply (f_equal String.length) in H. simpl in H.
    rewrite string_length_append in H. lia.
  - injection H as -> H. f_equal. now apply IH.
Qed.

Lemma join_insert (sep first part : string) (after : list string) :
  forall before,
  Str.join sep ((first :: before) ++ part :: after)
  = (Str.join sep (first :: before) ++ sep ++ part
     ++ match after with
        | [] => ""
        | _ :: _ => sep ++ Str.join sep after
        end)%string.
Proof.
  assert (Hcons : forall a b rest,
             Str.join sep (a :: b :: rest)
             = (a ++ sep ++ Str.join sep (b :: rest))%string)
    by reflexivity.
  intros before. revert first.
  induction before as [|b before IH]; intros first.
  - change (([first] ++ part :: after)) with (first :: part :: after).
    rewrite Hcons. change (Str.join sep [first]) with first.
    destruct after as [|a after]; [|now rewrite Hcons].
    change (Str.join sep [part]) with part. now rewrite append_empty.
  - change ((first :: b :: before) ++ part :: after)
      with (first :: b :: (before ++ part :: after)).
    rewrite !Hcons.
    change (b :: (before ++ part :: after))
      with ((b :: before) ++ part :: after).
    rewrite IH. now rewrite !append_assoc.
Qed.

Lemma split_at_colon : forall m1 m2 s1 s2 : string,
  Str.contains ":" m1 = false -> Str.contains ":" m2 = false ->
  (m1 ++ ":" ++ s1 = m2 ++ ":" ++ s2)%string ->
  m1 = m2 /\ s1 = s2.
Proof.
  assert (Hhead : forall (c : ascii) (m : string),
             Str.contains ":" (String c m) = false ->
             c <> ":"%char /\ Str.contains ":" m = false).
  { intros c m H. split.
    - intros ->. assert (Hin : Str.contains ":" (String ":" m) = true).
      { apply contains_char. now left. }
      congruence.
    - destruct (Str.contains ":" m) eqn:E; auto.
      assert (Hin : Str.contains ":" (String c m) = true).
      { apply contains_char. right. now apply contains_char. }
      congruence. }
  induction m1 as [|x m1 IH]; intros [|y m2] s1 s2 H1 H2 H; simpl in H.
  - injection H as ->. auto.
  - injection H as <- _. now destruct (Hhead _ _ H2).
  - injection H as -> _. now destruct (Hhead _ _ H1).
  - injection H as -> H.
    destruct (Hhead _ _ H1) as [_ H1']. destruct (Hhead _ _ H2) as [_ H2'].
    destruct (IH m2 s1 s2 H1' H2' H) as [-> ->]. auto.
Qed.

(** X19. A changed image changes the key.  Take two states of the file
    system that give the other attached images the same entries and the
    image at [path] a time of modification and a size, the times printed
    without a colon.  The strings that [_generate_cache_key] hashes for a
    question and these images are equal exactly when the time and the
    size of the image are. *)
Theorem changed_image_changes_key (env1 env2 : environment)
  (question path : string) (before after : list string)
  (mtime1 size1 mtime2 size2 : string) :
  map (key_part env1) before = map (key_part env2) before ->
  map (key_part env1) after = map (key_part env2) after ->
  getmtime env1 path = Some mtime1 -> getsize env1 path = Some size1 ->
  getmtime env2 path = Some mtime2 -> getsize env2 path = Some size2 ->
  Str.contains ":" mtime1 = false -> Str.contains ":" mtime2 = false ->
  (key_string env1 question (Some (before ++ path :: after))
   = key_string env2 question (Some (before ++ path :: after))
   <-> mtime1 = mtime2 /\ size1 = size2).
Proof.
  intros Hbefore Hafter Hm1 Hs1 Hm2 Hs2 Hc1 Hc2.
  unfold key_string, attached. rewrite !map_app. cbn [map].
  rewrite Hbefore, Hafter.
  change (question :: map (key_part env2) before
                      ++ ?x :: map (key_part env2) after)
    with ((question :: map (key_part env2) before)
          ++ x :: map (key_part env2) after).
  rewrite !(join_insert "||" question).
  unfold key_part. rewrite Hm1, Hs1, Hm2, Hs2.
  split.
  - intros H. apply append_inv_head in H. apply append_inv_head in H.
    rewrite <- !append_assoc in H. apply append_inv_tail in H.
    rewrite !append_assoc in H. apply append_inv_head in H.
    change (":" ++ mtime1 ++ ":" ++ size1)%string
      with (String ":" (mtime1 ++ ":" ++ size1)) in H.
    change (":" ++ mtime2 ++ ":" ++ size2)%string
      with (String ":" (mtime2 ++ ":" ++ size2)) in H.
    injection H as H. now apply split_at_colon.
  - now intros [-> ->].
Qed.

End ChangedImage.

Lemma changed_image_changes_key_witness :
  GeminiClient.key_string
    (Samples.with_metadata "shot.png" "1700000000.5" "2048")
    "What is this?" (Some (["menu.png"%string] ++ "shot.png"%string :: []))
  = GeminiClient.key_string
      (Samples.with_metadata "shot.png" "1700000000.5" "4096")
      "What is this?" (Some (["menu.png"%string] ++ "shot.png"%string :: []))
  <-> "1700000000.5"%string = "1700000000.5"%string
      /\ "2048"%string = "4096"%string.
Proof.
  apply (@changed_image_changes_key
           (Samples.with_metadata "shot.png" "1700000000.5" "2048")
           (Samples.with_metadata "shot.png" "1700000000.5" "4096")
           "What is this?" "shot.png" ["menu.png"%string] []
           "1700000000.5" "2048" "1700000000.5" "4096");
    reflexivity.
Defined.

(** ** What a query has done when it ends *)

Section Answers.

Import GeminiClient.

Variable env : environment.
Variable question : string.
Variable image_paths : option (list string).
Variable key : string.

Lemma steady_refl w : steady w w.
Proof. unfold steady. auto. Qed.

(** What holds from a world on holds from a world it is steady with. *)
Lemma steady_then w w1 (r : result string) w' :
  steady w w1 ->
  steady w1 w' \/ backend_answered env question image_paths key w1 r w' ->
  steady w w' \/ backend_answered env question image_paths key w r w'.
Proof.
  intros (Hrows & Hcount & Hon & Hold) [(Hrows' & Hcount' & Hon' & Hold')|H].
  - left. unfold steady. repeat split; try congruence. lia.
  - right. destruct H as (n & reply & flagged & Hn & Hlast & Hreply & Htext
                          & Hr & Hrow & Hon' & Hold' & Hheld).
    exists n, reply, flagged. repeat split; try congruence; auto. lia.
Qed.

Lemma set_keeps_settings (c : CacheManager.t string) k value (now : Q) :
  CacheManager.enabled (snd (CacheManager.set c k value now))
  = CacheManager.enabled c
  /\ CacheManager.timeout (snd (CacheManager.set c k value now))
     = CacheManager.timeout c.
Proof.
  unfold CacheManager.set. destruct (negb (CacheManager.enabled c)); auto.
  destruct (CacheManager.evict _ _); auto.
Qed.

Lemma set_ok_stores (c stored : CacheManager.t string) k value (now : Q) :
  CacheManager.enabled c = true ->
  CacheManager.set c k value now = (Ok tt, stored) ->
  CacheManager.lookup k (CacheManager._cache stored) = Some (value, now).
Proof.
  intros Hon. unfold CacheManager.set. rewrite Hon. cbn [negb].
  destruct (CacheManager.evict _ _) as [room|e]; [|discriminate].
  intros [= <-]. cbn [CacheManager.with_cache CacheManager._cache].
  rewrite move_to_end_assign. apply lookup_last.
Qed.

(** The dispatch of a turn: the images that open are attached, and the
    backend is called once. *)
Lemma dispatch_cases prompt w :
  exists added,
    match attached image_paths with
    | [] => generate_content env model_pro prompt []
    | path :: rest =>
        processed_images <- _process_images env (path :: rest) ;;
        generate_content env model_vision prompt processed_images
    end w
    = Some (match backend env w.(dispatches) with
            | BackendRaises message => Raise (OtherError message)
            | BackendReplies text flagged => Ok (text, flagged)
            end,
            mk_world w.(clock) w.(cache) w.(rate_limiter) w.(history)
                     (S w.(dispatches)) w.(database_calls)
                     (w.(trace) ++ added)).
Proof.
  destruct (attached image_paths) as [|path rest].
  - eexists. unfold generate_content.
    destruct (backend env (dispatches w)); reflexivity.
  - destruct (process_images_runs env (path :: rest) w) as (added & Hp).
    erewrite bind_ok by exact Hp.
    eexists. unfold generate_content, traced. simpl.
    rewrite <- app_assoc.
    destruct (backend env (dispatches w)); reflexivity.
Qed.

(** A text of the backend on its way to the caller: it is written to the
    cache, then to the history, then to the temporary file. *)
Lemma answer_stored (text : string) w :
  exists r w',
    (cache_set key text ;;
     add_conversation env question text image_paths
       (_extract_tags env (question ++ " " ++ text)%string) ;;
     _save_temp_response env text ;;
     ret text) w
    = Some (r, w')
    /\ w'.(dispatches) = w.(dispatches)
    /\ CacheManager.enabled w'.(cache) = CacheManager.enabled w.(cache)
    /\ CacheManager.timeout w'.(cache) = CacheManager.timeout w.(cache)
    /\ ((w'.(history) = w.(history) /\ exists e, r = Raise e)
        \/ (r = Ok text
            /\ w'.(history) = row env question text image_paths :: w.(history)
            /\ w'.(clock) = w.(clock)
            /\ (CacheManager.enabled w'.(cache) = true ->
                CacheManager.lookup key (CacheManager._cache w'.(cache))
                = Some (text, w.(clock))))).
Proof.
  destruct (set_keeps_settings (cache w) key text (clock w)) as [Hon Hold].
  pose proof (@set_ok_stores (cache w)
                (snd (CacheManager.set (cache w) key text (clock w)))
                key text (clock w)) as Hheld.
  unfold bind at 1. unfold cache_set.
  destruct (CacheManager.set (cache w) key text (clock w))
    as [[[]|e] stored]; cbn [snd] in *.
  2:{ eexists _, _. split; [reflexivity|]. simpl.
      repeat split; auto. left. eauto. }
  unfold bind at 1. unfold add_conversation, database_call.
  cbn [database_calls].
  destruct (database env (database_calls w)) as [message|].
  { eexists _, _. split; [reflexivity|]. simpl.
    repeat split; auto. left. eauto. }
  match goal with
  | |- context [bind (_save_temp_response env text) _ ?w3] =>
      destruct (save_temp_response_runs env text w3) as (saved & added & Hs)
  end.
  unfold bind at 1. rewrite Hs. unfold ret.
  eexists _, _. split; [reflexivity|]. simpl.
  repeat split; auto. right. repeat split; auto.
  intros Hen. apply Hheld; [congruence|reflexivity].
Qed.

(** One turn of the retry loop. *)
Lemma attempt_ends w :
  exists r w',
    attempt env question image_paths key w = Some (r, w')
    /\ (steady w w' \/ backend_answered env question image_paths key w r w')
    /\ (w'.(dispatches) = w.(dispatches)
        \/ (w'.(dispatches) = S w.(dispatches)
            /\ forall message,
                 backend env w.(dispatches) = BackendRaises message ->
                 r = Raise (OtherError message))).
Proof.
  unfold attempt. unfold bind at 1.
  destruct (wait_for_token_runs w) as (granted & limiter & ended & ->).
  set (w1 := mk_world _ _ _ _ _ _ _).
  destruct granted; cbn [negb].
  2:{ unfold bind, get_wait_time, ret.
      destruct (RateLimiter.get_wait_time _ _);
        (eexists _, _; split; [reflexivity|]; split;
         [left; unfold steady, w1; simpl; auto|left; reflexivity]). }
  unfold bind at 1. unfold get_recent_conversations, database_call.
  destruct (database env (database_calls w1)) as [message|].
  { eexists _, _. split; [reflexivity|]. split;
      [left; unfold steady, w1; simpl; auto|left; reflexivity]. }
  set (w2 := mk_world _ _ _ _ _ _ _).
  set (prompt := build_prompt _ _).
  destruct (dispatch_cases prompt w2) as (added & Hd).
  unfold bind at 1. rewrite Hd.
  set (w3 := mk_world _ _ _ _ _ _ _).
  assert (H13 : steady w w3).
  { unfold steady, w3, w2, w1. simpl. repeat split; auto. }
  change (dispatches w2) with (dispatches w) in *.
  destruct (backend env (dispatches w)) as [message|text flagged] eqn:Eb.
  { eexists _, _. split; [reflexivity|]. split; [left; exact H13|].
    right. split; [reflexivity|]. now intros m [= <-]. }
  destruct (Str.truthy text) eqn:Etext.
  2:{ destruct flagged;
        (eexists _, _; split; [reflexivity|]; split; [left; exact H13|];
         right; split; [reflexivity|discriminate]). }
  destruct (answer_stored (sanitize text) w3)
    as (r & w' & Hrun & Hcount & Hon & Hold & Hcases).
  rewrite Hrun. exists r, w'. split; [reflexivity|].
  destruct H13 as (Hrows3 & Hcount3 & Hon3 & Hold3).
  assert (Hd3 : dispatches w3 = S (dispatches w)) by reflexivity.
  split.
  - destruct Hcases as [[Hrows _]|(Hr & Hrow & Hclock & Hheld)].
    + left. unfold steady.
      split; [congruence|]. split; [lia|]. split; congruence.
    + right. exists (dispatches w), text, flagged.
      split; [apply le_n|]. split; [congruence|]. split; [exact Eb|].
      split; [exact Etext|]. split; [exact Hr|].
      split; [congruence|]. split; [congruence|]. split; [congruence|].
      intros Hen. rewrite Hclock. now apply Hheld.
  - right. split; [congruence|discriminate].
Qed.

(** The turns of the retry loop. *)
Lemma retry_loop_ends (max_retries : Z) (remaining : nat) :
  forall (retries : Z) last_error w,
  exists text w',
    retry_loop env question image_paths key max_retries
               remaining retries last_error w
    = Some (Ok text, w')
    /\ (steady w w'
        \/ backend_answered env question image_paths key w (Ok text) w').
Proof.
  induction remaining as [|remaining IH]; intros retries last_error w;
    cbn [retry_loop].
  - unfold bind, emit, ret. eexists _, _. split; [reflexivity|].
    left. unfold steady. simpl. auto.
  - unfold try_except.
    destruct (attempt_ends w) as (r & w1 & -> & Hends & _).
    destruct r as [text|e]; [now exists text, w1|].
    destruct Hends as [H1|(n & reply & flagged & _ & _ & _ & _ & Hr & _)];
      [|discriminate].
    unfold bind at 1. unfold emit at 1.
    set (w2 := mk_world _ _ _ _ _ _ _).
    assert (H2 : steady w w2).
    { destruct H1 as (? & ? & ? & ?). unfold steady, w2. simpl. auto. }
    unfold bind at 1.
    destruct (retries + 1 <? max_retries)%Z.
    + unfold bind at 1. unfold emit at 1. unfold bind at 1.
      unfold emit at 1. unfold sleep.
      set (w3 := mk_world _ _ _ _ _ _ _).
      destruct (IH (retries + 1)%Z (Some (str_of_exn e)) w3)
        as (text & w' & -> & Hends).
      exists text, w'. split; [reflexivity|].
      apply steady_then with (w1 := w3); [|exact Hends].
      destruct H2 as (? & ? & ? & ?). unfold steady, w3. simpl. auto.
    + unfold ret at 1.
      destruct (IH (retries + 1)%Z (Some (str_of_exn e)) w2)
        as (text & w' & -> & Hends).
      exists text, w'. split; [reflexivity|].
      now apply steady_then with (w1 := w2).
Qed.

End Answers.

(** ** The turns of a query and the failures of the backend *)

Section Turns.

Import GeminiClient.

Variable env : environment.
Variable question : string.
Variable image_paths : option (list string).
Variable key : string.

Lemma raised_le (first count : nat) : (raised env first count <= count)%nat.
Proof.
  unfold raised.
  pose proof (filter_length_le (raises env) (seq first count)) as H.
  now rewrite length_seq in H.
Qed.

Lemma raised_split (a b c : nat) :
  (a <= b)%nat -> (b <= c)%nat ->
  raised env a (c - a)
  = (raised env a (b - a) + raised env b (c - b))%nat.
Proof.
  intros Hab Hbc. unfold raised.
  replace (c - a)%nat with ((b - a) + (c - b))%nat by lia.
  rewrite seq_app, filter_app, length_app.
  now replace (a + (b - a))%nat with b by lia.
Qed.

Lemma raised_one (n : nat) :
  raised env n 1 = if raises env n then 1%nat else 0%nat.
Proof. unfold raised. simpl. now destruct (raises env n). Qed.

Lemma backoff_seconds_app (added more : list event) :
  backoff_seconds (added ++ more)
  = (backoff_seconds added + backoff_seconds more)%Z.
Proof.
  unfold backoff_seconds. rewrite flat_map_app.
  induction (flat_map _ added) as [|seconds l IH]; simpl; lia.
Qed.

Lemma backoff_seconds_quiet (added : list event) :
  Forall quiet added -> backoff_seconds added = 0%Z.
Proof.
  induction 1 as [|e added [He _] _ IH]; [reflexivity|].
  change (e :: added) with ([e] ++ added).
  rewrite backoff_seconds_app, IH.
  destruct e; try reflexivity. discriminate.
Qed.

(** What one turn tells of the loop after it. *)
Lemma turn_links w (r : result string) w1 (rest : list string) :
  (w1.(dispatches) = w.(dispatches)
   \/ (w1.(dispatches) = S w.(dispatches)
       /\ forall message,
            backend env w.(dispatches) = BackendRaises message ->
            r = Raise (OtherError message))) ->
  (forall e, r = Raise e -> exists tail, rest = str_of_exn e :: tail) ->
  (w.(dispatches) <= w1.(dispatches))%nat
  /\ (raised env w.(dispatches) (w1.(dispatches) - w.(dispatches))
      <= List.length rest)%nat
  /\ (forall n message,
        (w.(dispatches) <= n < w1.(dispatches))%nat ->
        backend env n = BackendRaises message -> In message rest).
Proof.
  intros [Hsame|[Hnext Hraise]] Hrest.
  - rewrite Hsame. split; [lia|]. rewrite Nat.sub_diag. split.
    + unfold raised. simpl. lia.
    + intros n message Hn. lia.
  - rewrite Hnext. split; [lia|].
    replace (S (dispatches w) - dispatches w)%nat with 1%nat by lia.
    rewrite raised_one. unfold raises. split.
    + destruct (backend env (dispatches w)) as [message|text flagged] eqn:E;
        [|lia].
      destruct (Hrest _ (Hraise message eq_refl)) as (tail & ->).
      simpl. lia.
    + intros n message Hn Hb.
      assert (n = dispatches w) as -> by lia.
      destruct (Hrest _ (Hraise message Hb)) as (tail & ->).
      now left.
Qed.

Lemma retry_loop_links (max_retries : Z) (remaining : nat) :
  forall (retries : Z) last_error w,
  exists text w' added,
    retry_loop env question image_paths key max_retries
               remaining retries last_error w
    = Some (Ok text, w')
    /\ w'.(trace) = w.(trace) ++ added
    /\ (w.(dispatches) <= w'.(dispatches))%nat
    /\ (raised env w.(dispatches) (w'.(dispatches) - w.(dispatches))
        <= List.length (failures added))%nat
    /\ (forall n message,
          (w.(dispatches) <= n < w'.(dispatches))%nat ->
          backend env n = BackendRaises message ->
          In message (failures added))
    /\ ((List.length (failures added) < remaining)%nat ->
        exists w_last,
          attempt env question image_paths key w_last = Some (Ok text, w'))
    /\ w.(clock) + inject_Z (backoff_seconds added) <= w'.(clock).
Proof.
  induction remaining as [|remaining IH]; intros retries last_error w;
    cbn [retry_loop].
  - unfold bind, emit, ret. do 3 eexists. split; [reflexivity|].
    split; [reflexivity|]. simpl. rewrite Nat.sub_diag.
    split; [lia|]. split; [unfold raised; simpl; lia|].
    split; [intros n message Hn; lia|]. split; [intros Hn; lia|].
    change (inject_Z (backoff_seconds _)) with 0. lra.
  - unfold try_except.
    destruct (attempt_runs env question image_paths key w)
      as (r & w1 & granted & added1 & Hrun & Ht1 & Hq1).
    destruct (attempt_ends env question image_paths key w)
      as (r' & w1' & Hrun' & _ & Hd).
    rewrite Hrun in Hrun'. injection Hrun' as <- <-.
    assert (Hfwd : clock w <= clock w1).
    { destruct (lasts_attempt env question image_paths key w)
        as (r2 & w2 & Hrun2 & Hfwd & _).
      rewrite Hrun in Hrun2. now injection Hrun2 as <- <-. }
    pose proof (backoff_seconds_quiet Hq1) as Hquiet1.
    rewrite Hrun.
    destruct r as [text|e].
    + exists text, w1, (WaitForToken granted :: added1 ++ []).
      destruct (readings_of_turn granted [] Hq1) as (_ & Hf & _).
      rewrite Hf.
      destruct (@turn_links w (Ok text) w1 [] Hd) as (Hle & Hcount & Hin).
      { intros e [=]. }
      split; [reflexivity|]. split; [now rewrite app_nil_r|].
      split; [exact Hle|]. split; [exact Hcount|]. split; [exact Hin|].
      split; [intros _; now exists w|].
      change (WaitForToken granted :: added1 ++ [])
        with ([WaitForToken granted] ++ added1 ++ []).
      rewrite !backoff_seconds_app, Hquiet1.
      change (inject_Z _) with 0. lra.
    + set (message := str_of_exn e).
      unfold bind at 1. unfold emit at 1.
      set (w2 := mk_world _ _ _ _ _ _ (trace w1 ++ [PrintQueryError message])).
      unfold bind at 1.
      assert (Hloop : forall w3 between,
                dispatches w3 = dispatches w1 ->
                trace w3 = trace w2 ++ between ->
                failures between = [] ->
                clock w1 + inject_Z (backoff_seconds between) <= clock w3 ->
                exists text w' added,
                  retry_loop env question image_paths key max_retries
                             remaining (retries + 1) (Some message) w3
                  = Some (Ok text, w')
                  /\ trace w' = trace w ++ added
                  /\ (dispatches w <= dispatches w')%nat
                  /\ (raised env (dispatches w)
                             (dispatches w' - dispatches w)
                      <= List.length (failures added))%nat
                  /\ (forall n m,
                        (dispatches w <= n < dispatches w')%nat ->
                        backend env n = BackendRaises m ->
                        In m (failures added))
                  /\ ((List.length (failures added) < S remaining)%nat ->
                      exists w_last,
                        attempt env question image_paths key w_last
                        = Some (Ok text, w'))
                  /\ clock w + inject_Z (backoff_seconds added)
                     <= clock w').
      { intros w3 between Hd3 Ht3 Hquiet Hslept.
        destruct (IH (retries + 1)%Z (Some message) w3)
          as (text & w' & added2 & Hrun2 & Ht2 & Hle2 & Hcount2 & Hin2
              & Hlast2 & Hslept2).
        rewrite Hd3 in *.
        set (rest := PrintQueryError message :: between ++ added2).
        exists text, w', (WaitForToken granted :: added1 ++ rest).
        destruct (readings_of_turn granted rest Hq1) as (_ & Hf & _).
        rewrite Hf.
        assert (Hrest : failures rest = message :: failures added2).
        { unfold rest.
          change (PrintQueryError message :: between ++ added2)
            with ([PrintQueryError message] ++ between ++ added2).
          unfold failures in *. rewrite !flat_map_app, Hquiet. reflexivity. }
        rewrite Hrest.
        destruct (@turn_links w (Raise e) w1 (message :: failures added2) Hd)
          as (Hle & Hcount & Hin).
        { intros e0 [= <-]. now exists (failures added2). }
        split; [exact Hrun2|]. split.
        { rewrite Ht2, Ht3. unfold w2, rest. cbn [trace]. rewrite Ht1.
          rewrite <- !app_assoc. reflexivity. }
        split; [lia|]. split.
        { rewrite (@raised_split (dispatches w) (dispatches w1)
                     (dispatches w')) by lia.
          pose proof (raised_le (dispatches w)
                        (dispatches w1 - dispatches w)) as Hone.
          assert (dispatches w1 - dispatches w <= 1)%nat
            by (destruct Hd as [->|[-> _]]; lia).
          cbn [List.length]. lia. }
        split.
        { intros n m Hn Hb.
          destruct (Nat.lt_ge_cases n (dispatches w1)) as [Hlt|Hge].
          - apply Hin with (n := n); [lia|exact Hb].
          - right. apply Hin2 with (n := n); [lia|exact Hb]. }
        split.
        { intros Hfew. apply Hlast2. cbn [List.length] in Hfew. lia. }
        change (WaitForToken granted :: added1 ++ rest)
          with ([WaitForToken granted] ++ added1
                ++ [PrintQueryError message] ++ between ++ added2).
        rewrite !backoff_seconds_app, Hquiet1.
        change (backoff_seconds [WaitForToken granted]) with 0%Z.
        change (backoff_seconds [PrintQueryError message]) with 0%Z.
        rewrite !Z.add_0_l, inject_Z_plus. lra. }
      destruct (retries + 1 <? max_retries)%Z.
      * unfold bind at 1. unfold emit at 1. unfold bind at 1.
        unfold emit at 1. unfold sleep.
        set (w3 := mk_world _ _ _ _ _ _ _).
        apply (Hloop w3 [PrintRetry (retries + 1) max_retries;
                         Backoff (2 ^ (retries + 1))]);
          [reflexivity| |reflexivity|].
        -- unfold w3, w2. cbn [trace]. now rewrite <- app_assoc.
        -- unfold w3, w2. cbn [clock].
           change (backoff_seconds _) with (2 ^ (retries + 1) + 0)%Z.
           rewrite Z.add_0_r. apply Qle_refl.
      * unfold ret at 1.
        apply (Hloop w2 []); [reflexivity| |reflexivity|].
        -- now rewrite app_nil_r.
        -- unfold w2. cbn [clock].
           change (inject_Z (backoff_seconds [])) with 0. lra.
Qed.

End Turns.

(** ** The claims about a query *)

Section Queries.

Import GeminiClient.

Variable env : environment.

(** What [send_query] has done when it ends: nothing to the history, or
    it has served the cache, or the backend has answered. *)
Lemma send_query_ends question image_paths (max_retries : Z) w :
  exists r w',
    send_query env question image_paths max_retries w = Some (r, w')
    /\ (history w' = history w
        \/ (searches_web question = false
            /\ exists text,
                 cached_answer w
                   (_generate_cache_key env question image_paths)
                 = Some text
                 /\ r = Ok text
                 /\ history w'
                    = row env question text image_paths :: history w
                 /\ dispatches w' = dispatches w)
        \/ (searches_web question = false
            /\ cached_answer w
                 (_generate_cache_key env question image_paths) = None
            /\ backend_answered env question image_paths
                 (_generate_cache_key env question image_paths) w r w')).
Proof.
  set (key := _generate_cache_key env question image_paths).
  destruct (searches_web question) eqn:Hweb.
  - unfold send_query. rewrite Hweb.
    destruct (web_search_outcome env question w)
      as (text & added & Hrun & _).
    exists (Ok text), (traced w added). split; [exact Hrun|]. now left.
  - destruct (cached_answer w key) as [cached|] eqn:Hcached.
    + rewrite (@send_query_cached env question image_paths max_retries w
                 cached Hweb Hcached).
      fold key. unfold bind, add_conversation, database_call, ret.
      destruct (database env (database_calls (after_get w key)))
        as [message|].
      * eexists _, _. split; [reflexivity|]. now left.
      * eexists _, _. split; [reflexivity|]. right. left.
        split; [reflexivity|]. exists cached. repeat split.
    + rewrite (@send_query_missed env question image_paths max_retries w
                 Hweb Hcached).
      fold key.
      destruct (@retry_loop_ends env question image_paths key max_retries
                  (Z.to_nat max_retries) 0 None (after_get w key))
        as (text & w' & Hrun & Hends).
      exists (Ok text), w'. split; [exact Hrun|].
      assert (Hget : steady w (after_get w key)).
      { destruct (get_keeps_settings (cache w) key (clock w))
          as (Hon & _ & Hold).
        unfold steady, after_get. simpl. auto. }
      destruct (@steady_then env question image_paths key w
                  (after_get w key) (Ok text) w' Hget Hends)
        as [(Hrows & _)|Hanswered].
      * now left.
      * right. right. auto.
Qed.

(** X14. The history gains a row only for an answer.  Every call of
    [send_query] ends.  It leaves the rows of the history as they were,
    or it has added one row, the newest, in one of two ways.  The cache
    held a text for the call: the call returns it, and the row holds
    the question and that text.  Or the cache held none and the last
    dispatch of the call replied with a text: the call returns that
    text, sanitized, and the row holds the question and the sanitized
    text.  So a web search adds no row, nor does a call that dispatched
    nothing, nor a call whose last dispatch raised or replied without a
    text; and no row holds the message of a denial or of a failure. *)
Theorem history_gains_the_answer_only
  question image_paths (max_retries : Z) w :
  exists r w',
    send_query env question image_paths max_retries w = Some (r, w')
    /\ (history w' = history w
        \/ (searches_web question = false
            /\ exists text,
                 cached_answer w
                   (_generate_cache_key env question image_paths)
                 = Some text
                 /\ r = Ok text
                 /\ history w'
                    = row env question text image_paths :: history w
                 /\ dispatches w' = dispatches w)
        \/ (searches_web question = false
            /\ cached_answer w
                 (_generate_cache_key env question image_paths) = None
            /\ exists n reply flagged,
                 (dispatches w <= n)%nat
                 /\ dispatches w' = S n
                 /\ backend env n = BackendReplies reply flagged
                 /\ Str.truthy reply = true
                 /\ r = Ok (sanitize reply)
                 /\ history w'
                    = row env question (sanitize reply) image_paths
                      :: history w)).
Proof.
  destruct (send_query_ends question image_paths max_retries w)
    as (r & w' & Hrun & Hends).
  exists r, w'. split; [exact Hrun|].
  destruct Hends as [Hrows|[Hhit|(Hweb & Hmiss & Hanswered)]]; auto.
  right. right. split; [exact Hweb|]. split; [exact Hmiss|].
  destruct Hanswered as (n & reply & flagged & Hn & Hlast & Hreply & Htext
                         & Hr & Hrow & _).
  exists n, reply, flagged. auto 10.
Qed.


(** C6. On the path past the cache, [send_query] returns a text and
    never raises.  At most [max_retries] turns fail; the admission
    checks and the backoff sleeps alternate, the sleep after the [i]-th
    failed turn being [2 ^ i] seconds and a sleep following every failed
    turn but the last allowed one; with [max_retries = 3] and two failed
    turns or more the rhythm is check, 2, check, 4, check.  When all
    [max_retries] turns have failed the result is the generic failure
    message and the last error is printed as the final error.  The
    failed turns are tied to the backend and to the result: every
    dispatch of the call that raised is a failed turn of its own, its
    error among the errors printed, and a call with fewer than
    [max_retries] failed turns ended in a turn that did not raise and
    returns what that turn returned.  And the backoffs are slept: the
    clock has moved by the seconds of all the backoffs at least. *)
Theorem retry_with_backoff question image_paths (max_retries : Z) w :
  searches_web question = false ->
  cached_answer w (_generate_cache_key env question image_paths) = None ->
  exists text w' added,
    send_query env question image_paths max_retries w = Some (Ok text, w')
    /\ w'.(trace)
       = w.(trace)
         ++ CacheGet (_generate_cache_key env question image_paths) :: added
    /\ (List.length (failures added) <= Z.to_nat max_retries)%nat
    /\ rhythm added
       = expected_rhythm
           (turns (List.length (failures added)) (Z.to_nat max_retries))
    /\ (max_retries = 3%Z -> (2 <= List.length (failures added))%nat ->
        rhythm added = [None; Some 2%Z; None; Some 4%Z; None])
    /\ (List.length (failures added) = Z.to_nat max_retries ->
        text = error_msg
        /\ final_errors added = [last_error_after None (failures added)])
    /\ ((List.length (failures added) < Z.to_nat max_retries)%nat ->
        final_errors added = [])
    /\ (w.(dispatches) <= w'.(dispatches))%nat
    /\ (raised env w.(dispatches) (w'.(dispatches) - w.(dispatches))
        <= List.length (failures added))%nat
    /\ (forall n message,
          (w.(dispatches) <= n < w'.(dispatches))%nat ->
          backend env n = BackendRaises message ->
          In message (failures added))
    /\ ((List.length (failures added) < Z.to_nat max_retries)%nat ->
        exists w_last,
          attempt env question image_paths
                  (_generate_cache_key env question image_paths) w_last
          = Some (Ok text, w'))
    /\ w.(clock) + inject_Z (backoff_seconds added) <= w'.(clock).
Proof.
  intros Hweb Hmiss.
  destruct (@missed_query_runs env question image_paths max_retries w
              Hweb Hmiss)
    as (text & w' & added & Hrun & Ht & Hlen & Hr & Hall & Hsome).
  set (key := _generate_cache_key env question image_paths) in *.
  destruct (@retry_loop_links env question image_paths key max_retries
              (Z.to_nat max_retries) 0 None (after_get w key))
    as (text2 & w2 & added2 & Hrun2 & Ht2 & Hle & Hcount & Hin & Hlast
        & Hslept).
  rewrite (@send_query_missed env question image_paths max_retries w
             Hweb Hmiss) in Hrun.
  fold key in Hrun. rewrite Hrun in Hrun2. injection Hrun2 as <- <-.
  assert (Hadded : added2 = added).
  { rewrite Ht in Ht2. unfold after_get in Ht2. cbn [trace] in Ht2.
    rewrite <- app_assoc in Ht2. apply app_inv_head in Ht2.
    now injection Ht2 as ->. }
  subst added2. change (dispatches (after_get w key)) with (dispatches w) in *.
  change (clock (after_get w key)) with (clock w) in *.
  exists text, w', added.
  split.
  { rewrite (@send_query_missed env question image_paths max_retries w
               Hweb Hmiss). exact Hrun. }
  split; [exact Ht|]. split; [exact Hlen|]. split; [exact Hr|].
  split.
  { intros -> Htwo. rewrite Hr. change (Z.to_nat 3) with 3%nat in *.
    assert (Hcases : List.length (failures added) = 2%nat
                     \/ List.length (failures added) = 3%nat) by lia.
    destruct Hcases as [-> | ->]; reflexivity. }
  split; [exact Hall|]. split; [exact Hsome|].
  split; [exact Hle|]. split; [exact Hcount|]. split; [exact Hin|].
  split; [exact Hlast|exact Hslept].
Qed.

End Queries.

(** ** Instances of the claims about a query *)

Lemma retry_with_backoff_witness :
  exists text w' added,
    GeminiClient.send_query Samples.third_time_lucky
      "What is this?"%string None 3 Samples.fresh
    = Some (Ok text, w')
    /\ GeminiClient.trace w'
       = GeminiClient.trace Samples.fresh
         ++ GeminiClient.CacheGet
              (GeminiClient._generate_cache_key Samples.third_time_lucky
                 "What is this?"%string None)
            :: added
    /\ GeminiClient.rhythm added
       = [None; Some 2%Z; None; Some 4%Z; None]
    /\ List.length (GeminiClient.failures added) = 2%nat
    /\ GeminiClient.dispatches w' = 3%nat
    /\ (forall n message,
          (0 <= n < 3)%nat ->
          GeminiClient.backend Samples.third_time_lucky n
          = GeminiClient.BackendRaises message ->
          In message (GeminiClient.failures added))
    /\ exists w_last,
         GeminiClient.attempt Samples.third_time_lucky
           "What is this?"%string None
           (GeminiClient._generate_cache_key Samples.third_time_lucky
              "What is this?"%string None) w_last
         = Some (Ok text, w').
Proof.
  destruct (@retry_with_backoff Samples.third_time_lucky
              "What is this?"%string None 3 Samples.fresh)
    as (text & w' & added & Hrun & Htrace & _ & _ & Hrhythm & _ & _ & _ & _
        & Hin & Hlast & _);
    [vm_compute; reflexivity | vm_compute; reflexivity |].
  assert (Hadded : added
                   = skipn 1 (Samples.added_to Samples.fresh
                                (GeminiClient.send_query
                                   Samples.third_time_lucky
                                   "What is this?"%string None 3
                                   Samples.fresh))).
  { rewrite Hrun. unfold Samples.added_to. rewrite Htrace. reflexivity. }
  assert (Hfailed : List.length (GeminiClient.failures added) = 2%nat).
  { rewrite Hadded. vm_compute. reflexivity. }
  assert (Hleft : w' = Samples.left_by Samples.fresh
                         (GeminiClient.send_query Samples.third_time_lucky
                            "What is this?"%string None 3 Samples.fresh)).
  { rewrite Hrun. reflexivity. }
  assert (Hcount : GeminiClient.dispatches w' = 3%nat).
  { rewrite Hleft. vm_compute. reflexivity. }
  exists text, w', added. split; [exact Hrun|]. split; [exact Htrace|].
  split; [apply Hrhythm; [reflexivity|rewrite Hfailed; apply le_n]|].
  split; [exact Hfailed|]. split; [exact Hcount|]. split.
  - intros n message Hn. apply Hin. rewrite Hcount. exact Hn.
  - apply Hlast. rewrite Hfailed. vm_compute. lia.
Defined.

(** The backend raises at every dispatch and five turns are allowed:
    five dispatches, five errors printed, four backoffs, the generic
    failure message and the last error as the final one. *)
Example always_raises_run :
  Samples.outcome
    (GeminiClient.send_query Samples.always_raises
       "What is this?"%string None 5 Samples.fresh)
  = Some (Ok GeminiClient.error_msg)
  /\ GeminiClient.dispatches
       (Samples.left_by Samples.fresh
          (GeminiClient.send_query Samples.always_raises
             "What is this?"%string None 5 Samples.fresh))
     = 5%nat
  /\ GeminiClient.rhythm
       (Samples.added_to Samples.fresh
          (GeminiClient.send_query Samples.always_raises
             "What is this?"%string None 5 Samples.fresh))
     = [None; Some 2%Z; None; Some 4%Z; None; Some 8%Z; None; Some 16%Z;
        None]
  /\ List.length
       (GeminiClient.failures
          (Samples.added_to Samples.fresh
             (GeminiClient.send_query Samples.always_raises
                "What is this?"%string None 5 Samples.fresh)))
     = 5%nat
  /\ GeminiClient.final_errors
       (Samples.added_to Samples.fresh
          (GeminiClient.send_query Samples.always_raises
             "What is this?"%string None 5 Samples.fresh))
     = [Some "503 unavailable"%string].
Proof.
  vm_compute. repeat split; reflexivity.
Qed.


(** The scenario of the specification after two failed turns: the
    third turn is answered, and the same call a minute later is served
    from the cache: the cache is read, the log written, no admission is
    checked and the backend is not called. *)
Example answered_after_retries_then_served :
  Samples.outcome
    (GeminiClient.send_query Samples.third_time_lucky
       "What is this?"%string None 3
       (GeminiClient.elapse 60
          (Samples.left_by Samples.fresh
             (GeminiClient.send_query Samples.third_time_lucky
                "What is this?"%string None 3 Samples.fresh))))
  = Some (Ok "It is a cat."%string)
  /\ GeminiClient.rhythm
       (Samples.added_to
          (Samples.left_by Samples.fresh
             (GeminiClient.send_query Samples.third_time_lucky
                "What is this?"%string None 3 Samples.fresh))
          (GeminiClient.send_query Samples.third_time_lucky
             "What is this?"%string None 3
             (GeminiClient.elapse 60
                (Samples.left_by Samples.fresh
                   (GeminiClient.send_query Samples.third_time_lucky
                      "What is this?"%string None 3 Samples.fresh)))))
     = []
  /\ GeminiClient.dispatches
       (Samples.left_by Samples.fresh
          (GeminiClient.send_query Samples.third_time_lucky
             "What is this?"%string None 3
             (GeminiClient.elapse 60
                (Samples.left_by Samples.fresh
                   (GeminiClient.send_query Samples.third_time_lucky
                      "What is this?"%string None 3 Samples.fresh)))))
     = 3%nat.
Proof.
  vm_compute. repeat split; reflexivity.
Qed.
